(** * Math_Simple_Interpreter: tokenizer, parser, evaluator and symbol table

    A shallow embedding of [src/parser.c] and [src/symbolTable.c], and of
    the command map and the loop of [main] in [src/instruction.c].

    - C strings are [string]s without NUL; a [const char*] into the input
      line is the suffix of the line that starts at the pointed character.
    - Functions that return [NULL] or [false] after printing a diagnostic
      return [Err] with the diagnostic's kind; a dereference of a null or
      freed pointer and an integer division by zero are [Undef].
    - Recursive-descent functions and the scanning loop take fuel; the entry
      points [tokenize] and [parse] supply it, and are shown never to run out.
    - MPFR numbers (precision 256, rounding to nearest) are modelled exactly:
      every operation is the correctly rounded exact result, as MPFR
      specifies.  The exponent range is taken as unbounded (MPFR's default
      range is [1-2^30, 2^30-1]).
    - Allocation ([malloc], [realloc], [strdup]) is assumed to succeed, and
      the 16-bit token, node and scratch counters are assumed not to wrap.
    - The evaluator is defined without its scratch pool and
      [symbol_table_insert] without the two text buffers of its update
      path.  A statement that ranges over every line, tree or stored value
      has the range in which that is what the code does as a hypothesis:
      [token_counters_in_range], [pool_has_room] or a bound on the line by
      [MPRF_BUFFER_SIZE], and [sprintf_fits], [update_prints] or
      [values_fit]. *)

From Stdlib Require Import ZArith Lia Ascii.
From Stdlib Require String.
From stdpp Require Import base numbers list strings.

Open Scope Z_scope.

(** ** Outcomes *)

Inductive error : Type :=
| TooLong              (* "Number too long" / "Identifier too long" *)
| UnrecognizedChar     (* "Unrecognized character" *)
| UnexpectedEOF        (* "Unexpected EOF in primary expression" *)
| UnexpectedToken      (* "Unexpected token in primary expression" *)
| MissingCloseParen    (* "Missing closing parenthesis [for sqrt]" *)
| MissingOpenParen     (* "Expected '(' after sqrt" *)
| NodeBufferOverflow   (* "AST node buffer overflow" *)
| UnsupportedNode.     (* "Unsupported token type in evaluation" *)

Inductive outcome (A : Type) : Type :=
| Ok (a : A)
| Err (e : error)
| Undef
| Timeout.

Arguments Ok {A} a.
Arguments Err {A} e.
Arguments Undef {A}.
Arguments Timeout {A}.

Definition bind {A B : Type} (x : outcome A) (f : A -> outcome B) : outcome B :=
  match x with
  | Ok a => f a
  | Err e => Err e
  | Undef => Undef
  | Timeout => Timeout
  end.

Notation "'let*' x ':=' c 'in' k" := (bind c (fun x => k))
  (at level 10, x pattern, c at level 100, k at level 200).

(** ** MPFR numbers at precision 256 *)

Definition PRECISION_ROUNDING_BITS : Z := 256.

(** [MNum neg m e] is [(-1)^neg * m * 2^e] with [m] odd and of at most 256
    bits, so that every representable number has one representation. *)
Inductive mpfr_t : Type :=
| MNaN
| MInf (neg : bool)
| MZero (neg : bool)
| MNum (neg : bool) (m : positive) (e : Z).

Definition mpfr_eqb (x y : mpfr_t) : bool :=
  match x, y with
  | MNaN, MNaN => true
  | MInf a, MInf b => Bool.eqb a b
  | MZero a, MZero b => Bool.eqb a b
  | MNum a m e, MNum b n f => Bool.eqb a b && (m =? n)%positive && (e =? f)
  | _, _ => false
  end.

Definition bitlen (m : Z) : Z := if m =? 0 then 0 else Z.log2 m + 1.

Fixpoint strip_pos (m : positive) (e : Z) : positive * Z :=
  match m with
  | xO m' => strip_pos m' (e + 1)
  | _ => (m, e)
  end.

Definition mk_num (neg : bool) (m e : Z) : mpfr_t :=
  match m with
  | Zpos p => let (p', e') := strip_pos p e in MNum neg p' e'
  | _ => MZero neg
  end.

(** Rounding to nearest, ties to even, of [(m + d) * 2^e] to 256 bits, where
    [0 <= d < 1] and [d > 0] exactly when [sticky].  Callers pass at least
    258 bits in [m] when [sticky] holds. *)
Definition round_nearest (neg : bool) (m e : Z) (sticky : bool) : mpfr_t :=
  let k := bitlen m - PRECISION_ROUNDING_BITS in
  if k <=? 0 then mk_num neg m e
  else
    let q := Z.shiftr m k in
    let r := Z.land m (Z.ones k) in
    let half := Z.shiftl 1 (k - 1) in
    let up := (half <? r) || ((r =? half) && (sticky || Z.odd q)) in
    mk_num neg (if up then q + 1 else q) (e + k).

(** The correctly rounded value of [(num / den) * 2^e], [num, den > 0]. *)
Definition round_ratio (neg : bool) (num den e : Z) : mpfr_t :=
  let s := Z.max 0 (PRECISION_ROUNDING_BITS + 2 + bitlen den - bitlen num) in
  let n := num * 2 ^ s in
  round_nearest neg (n / den) (e - s) (negb (n mod den =? 0)).

Definition signed (neg : bool) (m : positive) : Z :=
  if neg then Zneg m else Zpos m.

Definition mpfr_neg (x : mpfr_t) : mpfr_t :=
  match x with
  | MNaN => MNaN
  | MInf s => MInf (negb s)
  | MZero s => MZero (negb s)
  | MNum s m e => MNum (negb s) m e
  end.

Definition mpfr_set_nan : mpfr_t := MNaN.

(** [mpfr_set(rop, op, MPFR_RNDN)] between numbers of equal precision. *)
Definition mpfr_set (op : mpfr_t) : mpfr_t := op.

Definition mpfr_zero_p (x : mpfr_t) : bool :=
  match x with MZero _ => true | _ => false end.

Definition mpfr_nan_p (x : mpfr_t) : bool :=
  match x with MNaN => true | _ => false end.

(** [mpfr_cmp_d(x, 0) < 0]: a NaN compares as 0. *)
Definition mpfr_cmp_d_0_neg (x : mpfr_t) : bool :=
  match x with
  | MInf true | MNum true _ _ => true
  | _ => false
  end.

Definition mpfr_add (x y : mpfr_t) : mpfr_t :=
  match x, y with
  | MNaN, _ | _, MNaN => MNaN
  | MInf a, MInf b => if Bool.eqb a b then MInf a else MNaN
  | MInf a, _ => MInf a
  | _, MInf b => MInf b
  | MZero a, MZero b => MZero (a && b)
  | MZero _, _ => y
  | _, MZero _ => x
  | MNum n1 m1 e1, MNum n2 m2 e2 =>
      let e := Z.min e1 e2 in
      let s := signed n1 m1 * 2 ^ (e1 - e) + signed n2 m2 * 2 ^ (e2 - e) in
      if s =? 0 then MZero false
      else round_nearest (s <? 0) (Z.abs s) e false
  end.

Definition mpfr_sub (x y : mpfr_t) : mpfr_t := mpfr_add x (mpfr_neg y).

Definition mpfr_mul (x y : mpfr_t) : mpfr_t :=
  match x, y with
  | MNaN, _ | _, MNaN => MNaN
  | MInf _, MZero _ | MZero _, MInf _ => MNaN
  | MInf a, MInf b | MInf a, MNum b _ _ | MNum a _ _, MInf b => MInf (xorb a b)
  | MZero a, MZero b | MZero a, MNum b _ _ | MNum a _ _, MZero b =>
      MZero (xorb a b)
  | MNum n1 m1 e1, MNum n2 m2 e2 =>
      round_nearest (xorb n1 n2) (Zpos m1 * Zpos m2) (e1 + e2) false
  end.

Definition mpfr_div (x y : mpfr_t) : mpfr_t :=
  match x, y with
  | MNaN, _ | _, MNaN => MNaN
  | MInf _, MInf _ | MZero _, MZero _ => MNaN
  | MInf a, MZero b | MInf a, MNum b _ _ => MInf (xorb a b)
  | MZero a, MInf b | MNum a _ _, MInf b | MZero a, MNum b _ _ =>
      MZero (xorb a b)
  | MNum a _ _, MZero b => MInf (xorb a b)
  | MNum n1 m1 e1, MNum n2 m2 e2 =>
      round_ratio (xorb n1 n2) (Zpos m1) (Zpos m2) (e1 - e2)
  end.

Definition mpfr_sqrt (x : mpfr_t) : mpfr_t :=
  match x with
  | MNaN | MInf true | MNum true _ _ => MNaN
  | MInf false => MInf false
  | MZero s => MZero s
  | MNum false m e =>
      let s0 := Z.max 0 (2 * (PRECISION_ROUNDING_BITS + 2) - bitlen (Zpos m)) in
      let s := if Z.even (e - s0) then s0 else s0 + 1 in
      let t := Zpos m * 2 ^ s in
      let r := Z.sqrt t in
      round_nearest false r ((e - s) / 2) (negb (r * r =? t))
  end.

(** [mpfr_trunc]: the integral part, rounding toward zero. *)
Definition mpfr_trunc (x : mpfr_t) : mpfr_t :=
  match x with
  | MNum s m e => if 0 <=? e then x else mk_num s (Z.shiftr (Zpos m) (- e)) 0
  | _ => x
  end.

(** [mpfr_frac]: the fractional part, with the sign of the operand. *)
Definition mpfr_frac (x : mpfr_t) : mpfr_t :=
  match x with
  | MNaN => MNaN
  | MInf s | MZero s => MZero s
  | MNum s m e =>
      if 0 <=? e then MZero s
      else round_nearest s (Z.land (Zpos m) (Z.ones (- e))) e false
  end.

(** [mpfr_modf(iop, fop, op, rnd)] sets [iop] to the integral part of [op]
    and [fop] to its fractional part; the pair is [(iop, fop)]. *)
Definition mpfr_modf (op : mpfr_t) : mpfr_t * mpfr_t :=
  (mpfr_trunc op, mpfr_frac op).

Fixpoint iter_sqrt (k : nat) (t : Z) : Z :=
  match k with
  | O => t
  | S k' => iter_sqrt k' (Z.sqrt t)
  end.

(** [x^y] for finite non-zero [x = ±mx*2^ex] and [y = ±my*2^ey] ([my] odd).
    An exponent with [ey >= 0] is an integer; otherwise [y = ±my / 2^(-ey)]
    and [x^y] is the [2^(-ey)]-th root of [x^(±my)], an algebraic number
    whose floor and exactness are computed with integer square roots. *)
Definition pow_finite (nx : bool) (mx : positive) (ex : Z)
    (ny : bool) (my : positive) (ey : Z) : mpfr_t :=
  if 0 <=? ey then
    let y := Zpos my * 2 ^ ey in
    let neg := nx && Z.odd y in
    let a := Zpos mx ^ y in
    if ny then round_ratio neg 1 a (- (ex * y))
    else round_nearest neg a (ex * y) false
  else if nx then MNaN
  else
    let k := - ey in
    let K := 2 ^ k in
    let a := Zpos mx ^ Zpos my in
    let E := ex * Zpos my in
    let bits := K * (PRECISION_ROUNDING_BITS + 2) in
    if ny then
      let s0 := bitlen a + bits in
      let s := s0 + (- E - s0) mod K in
      let t := 2 ^ s / a in
      let r := iter_sqrt (Z.to_nat k) t in
      round_nearest false r ((- E - s) / K)
        (negb (2 ^ s mod a =? 0) || negb (r ^ K =? t))
    else
      let s0 := Z.max 0 (bits - bitlen a) in
      let s := s0 + (E - s0) mod K in
      let t := a * 2 ^ s in
      let r := iter_sqrt (Z.to_nat k) t in
      round_nearest false r ((E - s) / K) (negb (r ^ K =? t)).

Definition is_integer (m : positive) (e : Z) : bool := 0 <=? e.
Definition is_odd_integer (m : positive) (e : Z) : bool := e =? 0.

(** [|x| > 1] for [x = m * 2^e] with [m] odd. *)
Definition abs_gt_one (m : positive) (e : Z) : bool :=
  match m with
  | xH => 0 <? e
  | _ => 0 <=? Z.log2 (Zpos m) + e
  end.

Definition mpfr_pow (x y : mpfr_t) : mpfr_t :=
  match x, y with
  | _, MZero _ => MNum false 1 0
  | MNum false 1%positive 0, _ => MNum false 1 0
  | MNaN, _ | _, MNaN => MNaN
  | MNum true 1%positive 0, MInf _ => MNum false 1 0
  | MNum _ m e, MInf ny =>
      if Bool.eqb (abs_gt_one m e) ny then MZero false else MInf false
  | MZero _, MInf ny | MInf _, MInf ny =>
      if ny then (match x with MZero _ => MInf false | _ => MZero false end)
      else (match x with MZero _ => MZero false | _ => MInf false end)
  | MZero nx, MNum ny my ey =>
      let neg := nx && is_odd_integer my ey in
      if ny then MInf neg else MZero neg
  | MInf nx, MNum ny my ey =>
      let neg := nx && is_odd_integer my ey in
      if ny then MZero neg else MInf neg
  | MNum nx mx ex, MNum ny my ey => pow_finite nx mx ex ny my ey
  end.

(** *** Decimal input: [mpfr_set_str(rop, s, 10, MPFR_RNDN)]

    Restricted to the alphabet of the lexemes the tokenizer builds: an
    optional sign, digits and the period.  The program never calls
    [setlocale], so the locale is "C" and the period is the only decimal
    point MPFR accepts; a comma ends the number.  The string is valid
    (status 0) when it has at least one digit and is consumed entirely. *)

Definition byte_of (c : ascii) : Z := Z.of_N (N_of_ascii c).

Definition isdigit (c : ascii) : bool := (48 <=? byte_of c) && (byte_of c <=? 57).

Definition digit_value (c : ascii) : Z := byte_of c - 48.

(** Scans the significand: [acc] is the integer read so far, [ndig] the
    number of digits, [frac] the number of digits after the point. *)
Fixpoint parse_significand (s : string) (acc ndig frac : Z) (point : bool)
  : option (Z * Z) :=
  match s with
  | EmptyString => if ndig =? 0 then None else Some (acc, frac)
  | String c s' =>
      if isdigit c then
        parse_significand s' (acc * 10 + digit_value c) (ndig + 1)
          (if point then frac + 1 else frac) point
      else if (byte_of c =? 46) && negb point then
        parse_significand s' acc ndig frac true
      else None
  end.

Definition set_str_unsigned (neg : bool) (s : string) : option mpfr_t :=
  match parse_significand s 0 0 0 false with
  | None => None
  | Some (acc, frac) =>
      if acc =? 0 then Some (MZero neg)
      else Some (round_ratio neg acc (10 ^ frac) 0)
  end.

(** [None] is status -1. *)
Definition mpfr_set_str (s : string) : option mpfr_t :=
  match s with
  | String c s' =>
      if byte_of c =? 45 then set_str_unsigned true s'
      else if byte_of c =? 43 then set_str_unsigned false s'
      else set_str_unsigned false s
  | EmptyString => None
  end.

Definition mpfr_of_Z (z : Z) : mpfr_t :=
  if z =? 0 then MZero false else round_nearest (z <? 0) (Z.abs z) 0 false.

(** ** Symbol table ([src/symbolTable.c]) *)

Definition SYMBOL_MAP_BASE_SIZE : Z := 64.

(** [struct Symbol] without its [next] link, which [chain] carries. *)
Record Symbol : Type := mkSymbol {
  num : mpfr_t;
  name : string;
  sym_len : Z
}.

(** A bucket is a pointer to a chain of symbols: [NULL], a live symbol with
    its [next] pointer, or a pointer to a symbol that has been freed. *)
Inductive chain : Type :=
| Null
| Node (s : Symbol) (next : chain)
| Freed.

Record SymbolTable : Type := mkSymbolTable {
  buckets : list chain;
  capacity : Z;
  count : Z
}.

(** [str[i]] converted to [uint32_t]: [char] is signed, so a byte above 127
    is sign-extended.  Names built by the tokenizer are ASCII. *)
Definition char_to_u32 (c : ascii) : Z :=
  if byte_of c <? 128 then byte_of c else byte_of c + (2 ^ 32 - 256).

(** The loop of [hash_string]; callers pass [len = strlen(str)]. *)
Fixpoint hash_loop (str : string) (len : nat) (hash : Z) : Z :=
  match len, str with
  | S len', String c str' =>
      hash_loop str' len' ((Z.lxor hash (char_to_u32 c) * 16777619) mod 2 ^ 32)
  | _, _ => hash
  end.

Definition hash_string (str : string) (len : Z) : Z :=
  hash_loop str (Z.to_nat len) 2166136261.

Definition symbol_table_create : SymbolTable :=
  {| buckets := replicate (Z.to_nat SYMBOL_MAP_BASE_SIZE) Null;
     capacity := SYMBOL_MAP_BASE_SIZE;
     count := 0 |}.

(** [current->len == nameLen && strcmp(current->name, name) == 0] *)
Definition symbol_matches (s : Symbol) (nm : string) (nameLen : Z) : bool :=
  (sym_len s =? nameLen) && String.eqb (name s) nm.

(** The inner [while (current)] of [symbol_table_resize] on one chain: each
    symbol is unlinked and pushed at the head of its new bucket. *)
Fixpoint rehash_chain (current : chain) (new_capacity : Z)
    (new_buckets : list chain) : outcome (list chain) :=
  match current with
  | Null => Ok new_buckets
  | Freed => Undef
  | Node s next =>
      let new_index := Z.to_nat (hash_string (name s) (sym_len s) mod new_capacity) in
      match new_buckets !! new_index with
      | None => Undef
      | Some head =>
          rehash_chain next new_capacity (<[new_index := Node s head]> new_buckets)
      end
  end.

(** The outer [for] of [symbol_table_resize] over the old buckets. *)
Fixpoint rehash_buckets (old : list chain) (new_capacity : Z)
    (new_buckets : list chain) : outcome (list chain) :=
  match old with
  | [] => Ok new_buckets
  | c :: rest =>
      let* nb := rehash_chain c new_capacity new_buckets in
      rehash_buckets rest new_capacity nb
  end.

(** [new_capacity] is a [size_t]; the [capacity] field is 16 bits wide. *)
Definition symbol_table_resize (table : SymbolTable) (new_capacity : Z)
  : outcome SymbolTable :=
  if new_capacity =? 0 then Undef
  else if Z.of_nat (length (buckets table)) <? capacity table then Undef
  else
    let* nb := rehash_buckets (take (Z.to_nat (capacity table)) (buckets table))
                 new_capacity (replicate (Z.to_nat new_capacity) Null) in
    Ok {| buckets := nb;
          capacity := new_capacity mod 2 ^ 16;
          count := count table |}.

(** The search loop of [symbol_table_insert]: [Some] is the chain with the
    matching symbol's value replaced, [None] means no symbol matched. *)
Fixpoint chain_update (current : chain) (nm : string) (v : mpfr_t) (nameLen : Z)
  : outcome (option chain) :=
  match current with
  | Null => Ok None
  | Freed => Undef
  | Node s next =>
      if symbol_matches s nm nameLen then
        Ok (Some (Node {| num := mpfr_set v; name := name s; sym_len := sym_len s |} next))
      else
        let* r := chain_update next nm v nameLen in
        Ok (option_map (Node s) r)
  end.

(** [table->count > table->capacity * THRESHOLD_MAP] with [THRESHOLD_MAP]
    the double nearest to 0.6: for 16-bit operands the comparison in double
    arithmetic holds exactly when [5 * count > 3 * capacity]. *)
Definition over_threshold (table : SymbolTable) : bool :=
  3 * capacity table <? 5 * count table.

Definition symbol_table_insert (table : SymbolTable) (nm : string) (v : mpfr_t)
    (nameLen : Z) : outcome SymbolTable :=
  let* table :=
    (if over_threshold table
     then symbol_table_resize table (Z.shiftl (capacity table) 1)
     else Ok table) in
  if capacity table =? 0 then Undef
  else
    let index := Z.to_nat (hash_string nm nameLen mod capacity table) in
    match buckets table !! index with
    | None => Undef
    | Some head =>
        let* r := chain_update head nm v nameLen in
        match r with
        | Some updated =>
            Ok {| buckets := <[index := updated]> (buckets table);
                  capacity := capacity table;
                  count := count table |}
        | None =>
            let new_symbol := {| num := mpfr_set v; name := nm; sym_len := nameLen |} in
            Ok {| buckets := <[index := Node new_symbol head]> (buckets table);
                  capacity := capacity table;
                  count := (count table + 1) mod 2 ^ 16 |}
        end
    end.

Fixpoint chain_find (current : chain) (nm : string) (nameLen : Z)
  : outcome (option mpfr_t) :=
  match current with
  | Null => Ok None
  | Freed => Undef
  | Node s next =>
      if symbol_matches s nm nameLen then Ok (Some (num s))
      else chain_find next nm nameLen
  end.

(** [Ok None] is the [NULL] of an absent name. *)
Definition symbol_table_get (table : SymbolTable) (nm : string) (nameLen : Z)
  : outcome (option mpfr_t) :=
  if capacity table =? 0 then Undef
  else
    match buckets table !! Z.to_nat (hash_string nm nameLen mod capacity table) with
    | None => Undef
    | Some head => chain_find head nm nameLen
    end.

(** The [while (current)] of [symbol_table_empty]: every symbol of the chain
    is freed; reading a freed symbol's [next] is undefined. *)
Fixpoint free_chain (current : chain) : outcome unit :=
  match current with
  | Null => Ok tt
  | Freed => Undef
  | Node _ next => free_chain next
  end.

(** The [for] of [symbol_table_empty]: the bucket pointer itself is not
    written, so a bucket that held symbols now points to freed memory. *)
Fixpoint empty_buckets (bs : list chain) : outcome (list chain) :=
  match bs with
  | [] => Ok []
  | c :: rest =>
      let* _ := free_chain c in
      let* rest' := empty_buckets rest in
      Ok ((match c with Null => Null | _ => Freed end) :: rest')
  end.

Definition symbol_table_empty (symTable : SymbolTable) : outcome SymbolTable :=
  if Z.of_nat (length (buckets symTable)) <? capacity symTable then Undef
  else
    let n := Z.to_nat (capacity symTable) in
    let* freed := empty_buckets (take n (buckets symTable)) in
    Ok {| buckets := freed ++ drop n (buckets symTable);
          capacity := capacity symTable;
          count := count symTable |}.

(** ** Tokens ([include/parser.h]) *)

Inductive TokenType : Type :=
| TOK_NUM | TOK_VAR
| TOK_ASSING | TOK_ADD | TOK_SUB | TOK_DIVIDE | TOK_MODULE | TOK_MULT
| TOK_POWER | TOK_SQUARE
| TOK_LPAR | TOK_RPAR | TOK_COMM | TOK_LCOR | TOK_RCOR
| TOK_INVALID.

(** The enumeration constant of a token type. *)
Definition tok_index (t : TokenType) : Z :=
  match t with
  | TOK_NUM => 0 | TOK_VAR => 1
  | TOK_ASSING => 2 | TOK_ADD => 3 | TOK_SUB => 4 | TOK_DIVIDE => 5
  | TOK_MODULE => 6 | TOK_MULT => 7 | TOK_POWER => 8 | TOK_SQUARE => 9
  | TOK_LPAR => 10 | TOK_RPAR => 11 | TOK_COMM => 12 | TOK_LCOR => 13
  | TOK_RCOR => 14 | TOK_INVALID => 15
  end.

Definition type_eqb (a b : TokenType) : bool := tok_index a =? tok_index b.

(** [lexeme] is a pointer into the input line (or to a string literal): the
    text from the token's first character on.  [len] is a [uint8_t]. *)
Record Token : Type := mkToken {
  lexeme : string;
  type : TokenType;
  len : Z;
  negative : bool
}.

Definition TOKEN_BUFFER_SIZE : nat := 128.
Definition TOKEN_LEXEME_LEN_LIMIT : Z := 255.

(** [count] is the length of [token_buff]; [tb_size] is the field [size]. *)
Record TokenBuffer : Type := mkTokenBuffer {
  token_buff : list Token;
  tb_size : nat
}.

Definition tb_count (buff : TokenBuffer) : nat := length (token_buff buff).

Definition token_buffer_create : TokenBuffer :=
  {| token_buff := []; tb_size := TOKEN_BUFFER_SIZE |}.

Definition token_buffer_add (buff : TokenBuffer) (ty : TokenType)
    (start : string) (n : Z) : TokenBuffer :=
  {| token_buff :=
       token_buff buff ++
       [{| lexeme := start; type := ty; len := n mod 256; negative := false |}];
     tb_size := if (tb_size buff <=? tb_count buff)%nat
                then (tb_size buff + TOKEN_BUFFER_SIZE)%nat
                else tb_size buff |}.

Fixpoint take_str (n : nat) (s : string) : string :=
  match n, s with
  | S n', String c s' => String c (take_str n' s')
  | _, _ => EmptyString
  end.

(** [snprintf(bufferNames, len + 1 + negative, "%s%s", sign, lexeme)] keeps
    the first [len + negative] characters of the sign followed by the text
    at [lexeme]. *)
Definition token_adjust_lexeme (tok : Token) : string :=
  if 1 <? tok_index (type tok) then lexeme tok
  else
    take_str (Z.to_nat (len tok + (if negative tok then 1 else 0)))
      ((if negative tok then "-" else "") +:+ lexeme tok).

(** ** Tokenizer *)

(** [isspace] in the "C" locale. *)
Definition isspace (c : ascii) : bool :=
  (byte_of c =? 32) || ((9 <=? byte_of c) && (byte_of c <=? 13)).

Definition isascii (c : ascii) : bool := byte_of c <? 128.

(** The table filled by [token_buffer_create]: letters and the underscore. *)
Definition lookupTable (c : ascii) : bool :=
  ((97 <=? byte_of c) && (byte_of c <=? 122))
  || ((65 <=? byte_of c) && (byte_of c <=? 90))
  || (byte_of c =? 95).

(** [p - n] for two pointers into the same line, [n] the earlier one. *)
Definition ptr_diff (p n : string) : Z :=
  Z.of_nat (String.length n) - Z.of_nat (String.length p).

(** The [while (1)] of the digit run: digits and at most one '.' or ','. *)
Fixpoint scan_number (p : string) (isFloat : bool) : string :=
  match p with
  | String c p' =>
      if isdigit c then scan_number p' isFloat
      else if negb isFloat && ((byte_of c =? 46) || (byte_of c =? 44))
      then scan_number p' true
      else p
  | EmptyString => p
  end.

(** The identifier run: [p++] while the character is ASCII and in the table. *)
Fixpoint scan_ident (p : string) : string :=
  match p with
  | String c p' => if isascii c && lookupTable c then scan_ident p' else p
  | EmptyString => p
  end.

(** The blanks after a sign: [p++] while the character is a space. *)
Fixpoint skip_blanks (p : string) : string :=
  match p with
  | String c p' => if byte_of c =? 32 then skip_blanks p' else p
  | EmptyString => p
  end.

(** The digits after a sign: [p++] while the character is a digit. *)
Fixpoint scan_digits (p : string) : string :=
  match p with
  | String c p' => if isdigit c then scan_digits p' else p
  | EmptyString => p
  end.

(** The test that makes a '-' a sign: no token yet, or the previous token is
    not a number, a closing parenthesis or a variable. *)
Definition unary_position (buff : TokenBuffer) : bool :=
  match last (token_buff buff) with
  | None => true
  | Some prev =>
      negb (type_eqb (type prev) TOK_NUM)
      && negb (type_eqb (type prev) TOK_RPAR)
      && negb (type_eqb (type prev) TOK_VAR)
  end.

(** [tokBuff->token_buff[tokBuff->count-1].negative = true] *)
Definition set_last_negative (buff : TokenBuffer) : TokenBuffer :=
  match last (token_buff buff) with
  | None => buff
  | Some t =>
      {| token_buff :=
           take (length (token_buff buff) - 1)%nat (token_buff buff) ++
           [{| lexeme := lexeme t; type := type t; len := len t; negative := true |}];
         tb_size := tb_size buff |}
  end.

(** One iteration of the scanning loop at [p = String c p']: the pointer
    after the iteration and the buffer. *)
Definition tokenize_step (c : ascii) (p' : string) (tokBuff : TokenBuffer)
  : outcome (string * TokenBuffer) :=
  let p := String c p' in
  if isspace c then Ok (p', tokBuff)
  else if isdigit c then
    let n := p in
    let q := scan_number p' false in
    if TOKEN_LEXEME_LEN_LIMIT <? ptr_diff q n then Err TooLong
    else Ok (q, token_buffer_add tokBuff TOK_NUM n (ptr_diff q n))
  else if isascii c && lookupTable c then
    let n := p in
    let q := scan_ident p' in
    if TOKEN_LEXEME_LEN_LIMIT <? ptr_diff q n then Err TooLong
    else if (ptr_diff q n =? 4) && String.eqb (take_str 4 n) "sqrt"
    then Ok (q, token_buffer_add tokBuff TOK_SQUARE "sqrt" 4)
    else Ok (q, token_buffer_add tokBuff TOK_VAR n (ptr_diff q n))
  else
    let single ty text := Ok (p', token_buffer_add tokBuff ty text 1) in
    match byte_of c with
    | 61 => single TOK_ASSING "="
    | 43 => single TOK_ADD "+"
    | 45 =>
        if unary_position tokBuff then
          let n := skip_blanks p' in
          let q := scan_digits n in
          Ok (q, set_last_negative
                   (token_buffer_add tokBuff TOK_NUM n (ptr_diff q n)))
        else single TOK_SUB "-"
    | 47 => single TOK_DIVIDE "/"
    | 42 => single TOK_MULT "*"
    | 40 => single TOK_LPAR "("
    | 41 => single TOK_RPAR ")"
    | 91 => single TOK_LCOR "["
    | 93 => single TOK_RCOR "]"
    | 37 => single TOK_MODULE "%"
    | 94 => single TOK_POWER "^"
    | 44 => single TOK_COMM ","
    | _ => Err UnrecognizedChar
    end.

(** The scanning loop.  The buffer is returned in every case: after a
    lexical error it holds the tokens scanned so far. *)
Fixpoint tokenize_loop (fuel : nat) (p : string) (tokBuff : TokenBuffer)
  : TokenBuffer * outcome unit :=
  match p with
  | EmptyString => (tokBuff, Ok tt)
  | String c p' =>
      match fuel with
      | O => (tokBuff, Timeout)
      | S fuel' =>
          match tokenize_step c p' tokBuff with
          | Ok (q, tokBuff') => tokenize_loop fuel' q tokBuff'
          | Err e => (tokBuff, Err e)
          | Undef => (tokBuff, Undef)
          | Timeout => (tokBuff, Timeout)
          end
      end
  end.

(** [tokenize] resets [count] and keeps the allocated [size]; [Ok tt] is
    [true]. *)
Definition tokenize (tokBuff : TokenBuffer) (buff : string)
  : TokenBuffer * outcome unit :=
  tokenize_loop (String.length buff) buff
    {| token_buff := []; tb_size := tb_size tokBuff |}.

(** ** Parser *)

#[local] Set Warnings "-register-all".

(** A node of the arena; a child is [None] for a null pointer. *)
Inductive ASTNode : Type :=
| mkNode (token : Token) (left right : option ASTNode).

Definition node_token (n : ASTNode) : Token :=
  match n with mkNode t _ _ => t end.
Definition node_left (n : ASTNode) : option ASTNode :=
  match n with mkNode _ l _ => l end.
Definition node_right (n : ASTNode) : option ASTNode :=
  match n with mkNode _ _ r => r end.

(** [struct Parser]: the node arena is represented by the trees built in it
    and the scratch pool by the values returned; [p_size] is the field
    [size], the capacity of the arena. *)
Record Parser : Type := mkParser {
  tokens : TokenBuffer;
  symTable : SymbolTable;
  curr_tok : nat;
  curr_node : nat;
  p_size : nat
}.

Definition set_curr_tok (p : Parser) (i : nat) : Parser :=
  {| tokens := tokens p; symTable := symTable p; curr_tok := i;
     curr_node := curr_node p; p_size := p_size p |}.

Definition set_curr_node (p : Parser) (i : nat) : Parser :=
  {| tokens := tokens p; symTable := symTable p; curr_tok := curr_tok p;
     curr_node := i; p_size := p_size p |}.

Definition set_symTable (p : Parser) (t : SymbolTable) : Parser :=
  {| tokens := tokens p; symTable := t; curr_tok := curr_tok p;
     curr_node := curr_node p; p_size := p_size p |}.

Definition set_tokens (p : Parser) (tb : TokenBuffer) : Parser :=
  {| tokens := tb; symTable := symTable p; curr_tok := curr_tok p;
     curr_node := curr_node p; p_size := p_size p |}.

Definition peek (parser : Parser) : option Token :=
  token_buff (tokens parser) !! curr_tok parser.

Definition peek_next (parser : Parser) : option Token :=
  token_buff (tokens parser) !! (curr_tok parser + 1)%nat.

(** [consume] at a position where [peek] is not null. *)
Definition consume (parser : Parser) : Parser :=
  match peek parser with
  | None => parser
  | Some _ => set_curr_tok parser (curr_tok parser + 1)%nat
  end.

Definition match_tok (parser : Parser) (ty : TokenType) : bool :=
  match peek parser with
  | Some token => type_eqb (type token) ty
  | None => false
  end.

Definition expect (parser : Parser) (ty : TokenType) : bool :=
  match_tok parser ty.

(** [None] is the null pointer returned when the arena is full. *)
Definition create_leaf_node (p : Parser) (token : Token)
  : option ASTNode * Parser :=
  if (p_size p <=? curr_node p)%nat then (None, p)
  else (Some (mkNode token None None), set_curr_node p (curr_node p + 1)%nat).

Definition create_binary_node (p : Parser) (op : Token)
    (left right : option ASTNode) : option ASTNode * Parser :=
  if (p_size p <=? curr_node p)%nat then (None, p)
  else (Some (mkNode op left right), set_curr_node p (curr_node p + 1)%nat).

(** A null result of a [create_*_node] returned to the caller. *)
Definition returned (r : option ASTNode * Parser) : outcome (ASTNode * Parser) :=
  match r with
  | (Some node, p) => Ok (node, p)
  | (None, _) => Err NodeBufferOverflow
  end.

(** The five grammar levels.  The two [while] loops are [parse_term_loop]
    and [parse_expression_loop]; their [left] is null once a node could not
    be created, and the loop goes on as in the source. *)
Fixpoint parse_primary (fuel : nat) (p : Parser) {struct fuel}
  : outcome (ASTNode * Parser) :=
  match fuel with
  | O => Timeout
  | S fuel' =>
      match peek p with
      | None => Err UnexpectedEOF
      | Some curr =>
          match type curr with
          | TOK_NUM | TOK_VAR => returned (create_leaf_node (consume p) curr)
          | TOK_LPAR =>
              let* (expr, p1) := parse_expression fuel' (consume p) in
              if expect p1 TOK_RPAR then Ok (expr, consume p1)
              else Err MissingCloseParen
          | TOK_SQUARE =>
              let (sqrt, p1) := create_leaf_node (consume p) curr in
              if expect p1 TOK_LPAR then
                let arg := parse_expression fuel' (consume p1) in
                match sqrt with
                | None =>
                    (* [sqrt->left = ...] through a null [sqrt] *)
                    match arg with Timeout => Timeout | _ => Undef end
                | Some node =>
                    let* (a, p2) := arg in
                    if expect p2 TOK_RPAR
                    then Ok (mkNode (node_token node) (Some a) (node_right node),
                             consume p2)
                    else Err MissingCloseParen
                end
              else Err MissingOpenParen
          | _ => Err UnexpectedToken
          end
      end
  end

with parse_power (fuel : nat) (p : Parser) {struct fuel}
  : outcome (ASTNode * Parser) :=
  match fuel with
  | O => Timeout
  | S fuel' =>
      let* (lhs, p1) := parse_primary fuel' p in
      if match_tok p1 TOK_POWER then
        match peek p1 with
        | None => Undef
        | Some op =>
            let* (rhs, p2) := parse_power fuel' (consume p1) in
            returned (create_binary_node p2 op (Some lhs) (Some rhs))
        end
      else Ok (lhs, p1)
  end

with parse_term_loop (fuel : nat) (p : Parser) (left : option ASTNode)
    {struct fuel} : outcome (ASTNode * Parser) :=
  match fuel with
  | O => Timeout
  | S fuel' =>
      if match_tok p TOK_MULT || match_tok p TOK_DIVIDE || match_tok p TOK_MODULE
      then
        match peek p with
        | None => Undef
        | Some op =>
            let* (rhs, p1) := parse_power fuel' (consume p) in
            let (node, p2) := create_binary_node p1 op left (Some rhs) in
            parse_term_loop fuel' p2 node
        end
      else returned (left, p)
  end

with parse_term (fuel : nat) (p : Parser) {struct fuel}
  : outcome (ASTNode * Parser) :=
  match fuel with
  | O => Timeout
  | S fuel' =>
      let* (lhs, p1) := parse_power fuel' p in
      parse_term_loop fuel' p1 (Some lhs)
  end

with parse_expression_loop (fuel : nat) (p : Parser) (left : option ASTNode)
    {struct fuel} : outcome (ASTNode * Parser) :=
  match fuel with
  | O => Timeout
  | S fuel' =>
      if match_tok p TOK_ADD || match_tok p TOK_SUB
      then
        match peek p with
        | None => Undef
        | Some op =>
            let* (rhs, p1) := parse_term fuel' (consume p) in
            let (node, p2) := create_binary_node p1 op left (Some rhs) in
            parse_expression_loop fuel' p2 node
        end
      else returned (left, p)
  end

with parse_expression (fuel : nat) (p : Parser) {struct fuel}
  : outcome (ASTNode * Parser) :=
  match fuel with
  | O => Timeout
  | S fuel' =>
      let* (lhs, p1) := parse_term fuel' p in
      parse_expression_loop fuel' p1 (Some lhs)
  end.

Definition is_assignment_statement (p : Parser) : bool :=
  match peek p, peek_next p with
  | Some t0, Some t1 => type_eqb (type t0) TOK_VAR && type_eqb (type t1) TOK_ASSING
  | _, _ => false
  end.

Definition parse_statement (fuel : nat) (p : Parser) : outcome (ASTNode * Parser) :=
  if is_assignment_statement p then
    match peek p, peek_next p with
    | Some v, Some op =>
        let* (var, p1) := returned (create_leaf_node (consume p) v) in
        let* (rhs, p2) := parse_expression fuel (consume p1) in
        returned (create_binary_node p2 op (Some var) (Some rhs))
    | _, _ => Undef
    end
  else parse_expression fuel p.

(** Fuel for a statement of [n] tokens: every level of recursion is entered
    with at least four units per remaining token. *)
Definition parse_fuel (n : nat) : nat := (4 * n + 6)%nat.

(** [parse] starts from this state: the cursors are reset and the arena is
    grown to the token buffer's allocated size when it has fewer than
    [count + 1] nodes. *)
Definition parse_start (parser : Parser) : Parser :=
  {| tokens := tokens parser;
     symTable := symTable parser;
     curr_tok := 0;
     curr_node := 0;
     p_size := if (p_size parser <? tb_count (tokens parser) + 1)%nat
               then tb_size (tokens parser) else p_size parser |}.

Definition parse (parser : Parser) : outcome (ASTNode * Parser) :=
  parse_statement (parse_fuel (tb_count (tokens parser))) (parse_start parser).

Definition parser_create (tokens : TokenBuffer) : Parser :=
  {| tokens := tokens;
     symTable := symbol_table_create;
     curr_tok := 0;
     curr_node := 0;
     p_size := tb_size tokens |}.

(** ** Evaluator *)

(** The result of a node: [Ok v] is the scratch slot holding [v], [Err] the
    null pointer.  The symbol table is returned in every case, since both
    operands of a binary node are evaluated before either is checked. *)
Definition checked2 (l r : outcome mpfr_t) (f : mpfr_t -> mpfr_t -> mpfr_t)
  : outcome mpfr_t :=
  match l, r with
  | Timeout, _ | _, Timeout => Timeout
  | Undef, _ | _, Undef => Undef
  | Err e, _ => Err e
  | _, Err e => Err e
  | Ok a, Ok b => Ok (f a b)
  end.

Definition eval_number (tok : Token) : mpfr_t :=
  match mpfr_set_str (token_adjust_lexeme tok) with
  | Some v => v
  | None => mpfr_set_nan
  end.

Definition eval_divide (l r : mpfr_t) : mpfr_t :=
  if mpfr_zero_p r then mpfr_set_nan else mpfr_div l r.

(** [mpfr_modf( *result, *left_val, *right_val, MPFR_RNDN)]: the node's slot
    receives the integral part of the right operand; the fractional part is
    written into the left operand's slot, which is not read again. *)
Definition eval_modulo (l r : mpfr_t) : mpfr_t :=
  if mpfr_zero_p r then mpfr_set_nan else fst (mpfr_modf r).

Definition eval_sqrt (arg : mpfr_t) : mpfr_t :=
  if mpfr_cmp_d_0_neg arg then mpfr_set_nan else mpfr_sqrt arg.

Fixpoint evaluate_node (t : SymbolTable) (node : ASTNode) {struct node}
  : SymbolTable * outcome mpfr_t :=
  match node with
  | mkNode tok lhs rhs =>
      let child t o :=
        match o with
        | Some n => evaluate_node t n
        | None => (t, Undef)
        end in
      let binary f :=
        let (t1, l) := child t lhs in
        match l with
        | Undef => (t1, Undef)
        | Timeout => (t1, Timeout)
        | _ => let (t2, r) := child t1 rhs in (t2, checked2 l r f)
        end in
      match type tok with
      | TOK_NUM => (t, Ok (eval_number tok))
      | TOK_VAR =>
          match symbol_table_get t (token_adjust_lexeme tok) (len tok) with
          | Ok (Some var_value) => (t, Ok (mpfr_set var_value))
          | Ok None => (t, Ok mpfr_set_nan)
          | Err e => (t, Err e)
          | Undef => (t, Undef)
          | Timeout => (t, Timeout)
          end
      | TOK_ADD => binary mpfr_add
      | TOK_SUB => binary mpfr_sub
      | TOK_DIVIDE => binary eval_divide
      | TOK_MODULE => binary eval_modulo
      | TOK_MULT => binary mpfr_mul
      | TOK_POWER => binary mpfr_pow
      | TOK_SQUARE =>
          let (t1, arg) := child t lhs in
          (t1, match arg with
               | Ok a => Ok (eval_sqrt a)
               | other => other
               end)
      | TOK_ASSING =>
          let (t1, right_val) := child t rhs in
          match right_val with
          | Ok v =>
              match lhs with
              | None => (t1, Undef)
              | Some target =>
                  match symbol_table_insert t1
                          (token_adjust_lexeme (node_token target)) v
                          (len (node_token target)) with
                  | Ok t2 => (t2, Ok (mpfr_set v))
                  | Err e => (t1, Err e)
                  | Undef => (t1, Undef)
                  | Timeout => (t1, Timeout)
                  end
              end
          | other => (t1, other)
          end
      | _ => (t, Err UnsupportedNode)
      end
  end.

(** [evaluate_expression]: [Ok v] is [true] with [v] copied to [*ans]. *)
Definition evaluate_expression (parser : Parser) (head : ASTNode)
  : Parser * outcome mpfr_t :=
  let (t, result) := evaluate_node (symTable parser) head in
  (set_symTable parser t,
   match result with
   | Ok v => Ok (mpfr_set v)
   | other => other
   end).

(** ** One line through the core: tokenize, parse, evaluate

    The sequence of calls in the body of the loop of [main] for a line that
    is not a command, without the final store under the name [last].  After
    a parse error the parser keeps the arena size [parse] gave it; its
    cursors, which the next [parse] resets, are shown at zero. *)
Definition run_line (parser : Parser) (line : string) : Parser * outcome mpfr_t :=
  let (tb, scanned) := tokenize (tokens parser) line in
  let parser1 := set_tokens parser tb in
  match scanned with
  | Ok _ =>
      match parse parser1 with
      | Ok (head, parser2) => evaluate_expression parser2 head
      | Err e => (parse_start parser1, Err e)
      | Undef => (parse_start parser1, Undef)
      | Timeout => (parse_start parser1, Timeout)
      end
  | Err e => (parser1, Err e)
  | Undef => (parser1, Undef)
  | Timeout => (parser1, Timeout)
  end.

Fixpoint run_lines (parser : Parser) (lines : list string)
  : Parser * list (outcome mpfr_t) :=
  match lines with
  | [] => (parser, [])
  | line :: rest =>
      let (parser1, r) := run_line parser line in
      let (parser2, rs) := run_lines parser1 rest in
      (parser2, r :: rs)
  end.

Definition fresh_parser : Parser := parser_create token_buffer_create.

(** The tokens and the tree of a line, from a fresh parser. *)
Definition tokens_of (line : string) : outcome (list Token) :=
  let (tb, scanned) := tokenize token_buffer_create line in
  let* _ := scanned in Ok (token_buff tb).

Definition parser_on (tb : TokenBuffer) : Parser :=
  {| tokens := tb; symTable := symbol_table_create; curr_tok := 0;
     curr_node := 0; p_size := TOKEN_BUFFER_SIZE |}.

Definition parse_line (line : string) : outcome ASTNode :=
  let (tb, scanned) := tokenize token_buffer_create line in
  let* _ := scanned in
  let* (head, _) := parse (parser_on tb) in
  Ok head.

Definition eval_line (line : string) : outcome mpfr_t :=
  snd (run_line fresh_parser line).

(** ** The remainder in the words of the specification

    "The remainder of l divided by r": [l - n * r] with [n] the quotient
    [l / r] rounded toward zero, as C's [fmod] and MPFR's [mpfr_fmod] define
    it.  The result is exact.  It is compared with what the Modulo case of
    [evaluate_node] computes. *)
Definition remainder_spec (l r : mpfr_t) : mpfr_t :=
  match l, r with
  | MNaN, _ | _, MNaN => MNaN
  | MInf _, _ | _, MZero _ => MNaN
  | _, MInf _ | MZero _, _ => l
  | MNum nl ml el, MNum _ mr er =>
      let e := Z.min el er in
      let rem := Z.rem (Zpos ml * 2 ^ (el - e)) (Zpos mr * 2 ^ (er - e)) in
      round_nearest nl rem e false
  end.

(** ** Filling the table

    [strlen(name)] passed as the [uint8_t] parameter [nameLen]. *)
Definition name_len (nm : string) : Z := Z.of_nat (String.length nm) mod 256.

(** Inserts the pairs in order; the second component counts the calls of
    [symbol_table_insert] that found the load above the threshold and
    resized. *)
Fixpoint insert_all (table : SymbolTable) (resizes : nat)
    (kvs : list (string * mpfr_t)) : outcome (SymbolTable * nat) :=
  match kvs with
  | [] => Ok (table, resizes)
  | (nm, v) :: rest =>
      let resizes' := if over_threshold table then S resizes else resizes in
      let* table' := symbol_table_insert table nm v (name_len nm) in
      insert_all table' resizes' rest
  end.

(** ** Notation for trees and scanning positions in statements *)

Definition leaf (text : string) (ty : TokenType) (n : Z) : ASTNode :=
  mkNode {| lexeme := text; type := ty; len := n; negative := false |} None None.

Definition binop (text : string) (ty : TokenType) (l r : ASTNode) : ASTNode :=
  mkNode {| lexeme := text; type := ty; len := 1; negative := false |}
    (Some l) (Some r).

(** The character at a scanning position is a digit. *)
Definition starts_with_digit (p : string) : bool :=
  match p with
  | String c _ => isdigit c
  | EmptyString => false
  end.


(** ** Shapes of trees and token sequences used in statements *)

(** Some node of the tree is an Assign node. *)
Fixpoint has_assign (n : ASTNode) : bool :=
  match n with
  | mkNode tok l r =>
      type_eqb (type tok) TOK_ASSING
      || match l with Some a => has_assign a | None => false end
      || match r with Some a => has_assign a | None => false end
  end.

Definition opt_has_assign (o : option ASTNode) : bool :=
  match o with Some a => has_assign a | None => false end.

(** The operators the loops of [parse_expression], [parse_term] and
    [parse_power] look for after an operand. *)
Definition continues_statement (ty : TokenType) : bool :=
  match ty with
  | TOK_ADD | TOK_SUB | TOK_MULT | TOK_DIVIDE | TOK_MODULE | TOK_POWER => true
  | _ => false
  end.

(** The token sequence starts with a variable followed by ['=']. *)
Definition starts_with_assignment (toks : list Token) : bool :=
  match toks with
  | v :: op :: _ => type_eqb (type v) TOK_VAR && type_eqb (type op) TOK_ASSING
  | _ => false
  end.

(** [rest], put after the complete statement [prefix], does not change how
    [prefix] is parsed: it does not start with an operator, nor with the
    ['='] that would turn a lone variable into an assignment. *)
Definition stops_statement (prefix rest : list Token) : bool :=
  match rest with
  | [] => true
  | t :: _ =>
      negb (continues_statement (type t))
      && negb (match prefix with
               | [v] => type_eqb (type v) TOK_VAR && type_eqb (type t) TOK_ASSING
               | _ => false
               end)
  end.

(** ** The contents of a table

    The symbols of a chain and of a bucket array, as lists, and the
    invariant the operations of the table keep. *)

Fixpoint chain_list (c : chain) : list Symbol :=
  match c with
  | Node s next => s :: chain_list next
  | _ => []
  end.

(** No link of the chain points to freed memory. *)
Fixpoint live (c : chain) : bool :=
  match c with
  | Null => true
  | Node _ next => live next
  | Freed => false
  end.

Fixpoint all_syms (bs : list chain) : list Symbol :=
  match bs with
  | [] => []
  | c :: rest => chain_list c ++ all_syms rest
  end.

(** The value of the first symbol named [nm]. *)
Fixpoint assoc (nm : string) (l : list Symbol) : option mpfr_t :=
  match l with
  | [] => None
  | s :: rest => if String.eqb (name s) nm then Some (num s) else assoc nm rest
  end.

Definition bucket_of (cap : Z) (s : Symbol) : nat :=
  Z.to_nat (hash_string (name s) (sym_len s) mod cap).

Definition len_ok (s : Symbol) : Prop := sym_len s = name_len (name s).

Definition placed (cap : Z) (bs : list chain) : Prop :=
  forall i c s, bs !! i = Some c -> s ∈ chain_list c -> bucket_of cap s = i.

(** Every bucket is a live chain of symbols that hash to it, the stored
    lengths are those of the names, and no name occurs twice. *)
Definition wf (t : SymbolTable) : Prop :=
  0 < capacity t
  /\ length (buckets t) = Z.to_nat (capacity t)
  /\ Forall (fun c => live c = true) (buckets t)
  /\ placed (capacity t) (buckets t)
  /\ Forall len_ok (all_syms (buckets t))
  /\ NoDup (name <$> all_syms (buckets t)).

(** The symbol that [symbol_table_insert] creates for a pair. *)
Definition symbol_of (kv : string * mpfr_t) : Symbol :=
  {| num := mpfr_set (snd kv); name := fst kv; sym_len := name_len (fst kv) |}.

(** What [insert_all] does to a fresh table, as a function of the number of
    distinct names inserted (at most 77): the call that finds 39 symbols,
    the 40th, is the first one above the threshold of a 64-bucket table. *)
Definition capacity_after (n : nat) : Z := if (n <=? 39)%nat then 64 else 128.
Definition resizes_after (n : nat) : nat := if (n <=? 39)%nat then 0%nat else 1%nat.

(** Sample names [aa], [ba], ..., [za], [ab], ... and sample pairs. *)
Definition var_name (i : nat) : string :=
  String (ascii_of_nat (97 + i mod 26))
    (String (ascii_of_nat (97 + i / 26)) EmptyString).

Definition sample_pairs (n : nat) : list (string * mpfr_t) :=
  (fun i => (var_name i, mpfr_of_Z (Z.of_nat i))) <$> seq 0 n.

(** ** Decimal notation in the words of the specification

    The integer a run of digits denotes, by position, and the number
    nearest to a ratio of integers, which is what "the numeric value denoted
    by s" means at precision 256. *)

Fixpoint all_digits (s : string) : bool :=
  match s with
  | EmptyString => true
  | String c s' => isdigit c && all_digits s'
  end.

Fixpoint digits_value (s : string) : Z :=
  match s with
  | EmptyString => 0
  | String c s' => digit_value c * 10 ^ Z.of_nat (String.length s') + digits_value s'
  end.

Definition mpfr_of_ratio (num den : Z) : mpfr_t :=
  if num =? 0 then MZero false else round_ratio false num den 0.

(** A literal: the integer part [ip], then nothing or a period and the
    fractional digits. *)
Definition literal (ip : string) (frac : option string) : string :=
  ip +:+ match frac with Some fp => "." +:+ fp | None => "" end.

Definition frac_digits (frac : option string) : string :=
  match frac with Some fp => fp | None => "" end.

(** ** Predicates used by the statements and proofs about the parser *)

(** What a successful call of a grammar function changes: the token cursor
    advances within the buffer, and no more nodes are created than tokens
    are consumed. *)
Definition advances (strict : bool) (p p' : Parser) : Prop :=
  tokens p' = tokens p /\ symTable p' = symTable p /\ p_size p' = p_size p
  /\ (curr_tok p <= curr_tok p')%nat
  /\ (curr_tok p' <= Nat.max (curr_tok p) (tb_count (tokens p)))%nat
  /\ (strict = true -> (curr_tok p < curr_tok p')%nat)
  /\ (curr_node p <= curr_node p')%nat
  /\ (curr_node p' + curr_tok p <= curr_node p + curr_tok p')%nat.

Definition frame_main (F : nat -> Parser -> outcome (ASTNode * Parser))
    (fuel : nat) : Prop :=
  forall p a p', F fuel p = Ok (a, p') ->
    advances true p p' /\ has_assign a = false.

Definition frame_loop
    (F : nat -> Parser -> option ASTNode -> outcome (ASTNode * Parser))
    (fuel : nat) : Prop :=
  forall p left a p', F fuel p left = Ok (a, p') ->
    opt_has_assign left = false ->
    advances false p p' /\ has_assign a = false.

(** The state [p] of a parser transported to the parser [Q], which holds a
    longer token sequence (and its own arena). *)
Definition lift (Q p : Parser) : Parser :=
  {| tokens := tokens Q; symTable := symTable Q; curr_tok := curr_tok p;
     curr_node := curr_node p; p_size := p_size Q |}.

(** The arena of capacity [size] has room for one node per token that is
    still to be consumed out of [n]. *)
Definition room (size n : nat) (p : Parser) : Prop :=
  (curr_node p + n <= size + curr_tok p)%nat.

Definition head_stops (rest : list Token) : Prop :=
  match rest with
  | [] => True
  | t :: _ => continues_statement (type t) = false
  end.

Definition sim_pre (rest : list Token) (Q p : Parser) : Prop :=
  token_buff (tokens Q) = token_buff (tokens p) ++ rest
  /\ (curr_tok p <= tb_count (tokens p))%nat
  /\ room (p_size p) (tb_count (tokens p)) p
  /\ room (p_size Q) (tb_count (tokens Q)) p.

Definition sim_main (rest : list Token) (Q : Parser)
    (F : nat -> Parser -> outcome (ASTNode * Parser)) (fuel : nat) : Prop :=
  forall fuel' p a p', (fuel <= fuel')%nat ->
    F fuel p = Ok (a, p') -> sim_pre rest Q p ->
    F fuel' (lift Q p) = Ok (a, lift Q p').

Definition sim_loop (rest : list Token) (Q : Parser)
    (F : nat -> Parser -> option ASTNode -> outcome (ASTNode * Parser))
    (fuel : nat) : Prop :=
  forall fuel' p left a p', (fuel <= fuel')%nat ->
    F fuel p left = Ok (a, p') -> sim_pre rest Q p ->
    F fuel' (lift Q p) left = Ok (a, lift Q p').

Definition remaining (p : Parser) : nat :=
  (tb_count (tokens p) - curr_tok p)%nat.

(** ** Symbol table: listing and release ([symbol_table_show], [symbol_table_destroy]) *)

(** The [while (sym)] of [symbol_table_show] on one chain: the symbols
    printed, in order. *)
Fixpoint show_chain (sym : chain) : outcome (list (string * mpfr_t)) :=
  match sym with
  | Null => Ok []
  | Freed => Undef
  | Node s next =>
      let* rest := show_chain next in
      Ok ((name s, num s) :: rest)
  end.

Fixpoint show_buckets (bs : list chain) : outcome (list (string * mpfr_t)) :=
  match bs with
  | [] => Ok []
  | c :: rest =>
      let* here := show_chain c in
      let* there := show_buckets rest in
      Ok (here ++ there)
  end.

(** [symbol_table_show]: the names and values printed between the two
    banner lines, in the order of the buckets and of each chain. *)
Definition symbol_table_show (symTable : SymbolTable)
  : outcome (list (string * mpfr_t)) :=
  if Z.of_nat (length (buckets symTable)) <? capacity symTable then Undef
  else show_buckets (take (Z.to_nat (capacity symTable)) (buckets symTable)).

(** [symbol_table_destroy]: [symbol_table_empty], then the bucket array and
    the table are freed. *)
Definition symbol_table_destroy (symTable : SymbolTable) : outcome unit :=
  let* _ := symbol_table_empty symTable in Ok tt.

(** The name is bound in the table. *)
Definition bound (t : SymbolTable) (nm : string) : bool :=
  match assoc nm (all_syms (buckets t)) with Some _ => true | None => false end.

(** ** Lines and tokens in statements about the tokenizer *)

(** Every character of the line is white space. *)
Fixpoint all_space (s : string) : bool :=
  match s with
  | EmptyString => true
  | String c s' => isspace c && all_space s'
  end.

(** The characters with a [case] in the [switch] of [tokenize]. *)
Definition operator_char (c : ascii) : bool :=
  match byte_of c with
  | 61 | 43 | 45 | 47 | 42 | 40 | 41 | 91 | 93 | 37 | 94 | 44 => true
  | _ => false
  end.

(** The characters some branch of the scanning loop accepts; the period is
    accepted inside a digit run only. *)
Definition in_alphabet (c : ascii) : bool :=
  isspace c || isdigit c || (isascii c && lookupTable c) || operator_char c
  || (byte_of c =? 46).

Fixpoint all_in_alphabet (s : string) : bool :=
  match s with
  | EmptyString => true
  | String c s' => in_alphabet c && all_in_alphabet s'
  end.

(** [s] is the text from some position of [line] on. *)
Definition suffix_of (s line : string) : Prop := exists pre, line = pre +:+ s.

(** The token's [len] characters are characters of its lexeme, and the
    lexeme of a Number or Variable token points into the line. *)
Definition token_in_line (line : string) (tok : Token) : Prop :=
  0 <= len tok <= 255
  /\ (Z.to_nat (len tok) <= String.length (lexeme tok))%nat
  /\ (negative tok = true -> type tok = TOK_NUM)
  /\ (type tok = TOK_NUM \/ type tok = TOK_VAR -> suffix_of (lexeme tok) line).

(** What one token added by [token_buffer_add] changes. *)
Definition grows_by (tb tb' : TokenBuffer) (tok : Token) : Prop :=
  token_buff tb' = token_buff tb ++ [tok]
  /\ tb_size tb' = (if (tb_size tb <=? tb_count tb)%nat
                    then (tb_size tb + TOKEN_BUFFER_SIZE)%nat else tb_size tb).

(** [bufferNames], the static buffer [token_adjust_lexeme] formats into. *)
Definition bufferNames_size : Z := TOKEN_LEXEME_LEN_LIMIT.

(** The bytes the [snprintf] of [token_adjust_lexeme] writes: the characters
    of the adjusted lexeme and the terminating NUL.  Tokens other than
    numbers and variables are returned without formatting. *)
Definition bufferNames_written (tok : Token) : Z :=
  if 1 <? tok_index (type tok) then 0
  else Z.of_nat (String.length (token_adjust_lexeme tok)) + 1.

(** Every character of the string is a letter or the underscore. *)
Fixpoint all_letters (s : string) : bool :=
  match s with
  | EmptyString => true
  | String c s' => isascii c && lookupTable c && all_letters s'
  end.

Fixpoint string_of (n : nat) (c : ascii) : string :=
  match n with
  | O => EmptyString
  | S n' => String c (string_of n' c)
  end.

(** ** Trees the evaluator accepts *)

(** The four diagnostics of [parse_primary]. *)
Definition syntax_error (e : error) : bool :=
  match e with
  | UnexpectedEOF | UnexpectedToken | MissingCloseParen | MissingOpenParen => true
  | _ => false
  end.

(** An expression tree: every token is one of [toks], a Number or Variable
    node is a leaf position, an operator has both operands and [sqrt] its
    argument; no node is an Assign node. *)
Fixpoint expression_tree (toks : list Token) (n : ASTNode) : Prop :=
  match n with
  | mkNode tok l r =>
      tok ∈ toks
      /\ match type tok with
         | TOK_NUM | TOK_VAR => True
         | TOK_ADD | TOK_SUB | TOK_DIVIDE | TOK_MODULE | TOK_MULT | TOK_POWER =>
             match l, r with
             | Some a, Some b => expression_tree toks a /\ expression_tree toks b
             | _, _ => False
             end
         | TOK_SQUARE =>
             match l with
             | Some a => expression_tree toks a
             | None => False
             end
         | _ => False
         end
  end.

(** A statement tree: an expression tree, or an Assign node over a Variable
    leaf and an expression tree. *)
Definition statement_tree (toks : list Token) (n : ASTNode) : Prop :=
  expression_tree toks n
  \/ exists op v rhs,
       n = mkNode op (Some (mkNode v None None)) (Some rhs)
       /\ type op = TOK_ASSING /\ type v = TOK_VAR /\ v ∈ toks
       /\ expression_tree toks rhs.

(** The cursor is inside the token sequence [toks], and the arena has room
    for one node per token still to be consumed, and for [k] more. *)
Definition parse_pre (k : nat) (toks : list Token) (p : Parser) : Prop :=
  token_buff (tokens p) = toks
  /\ (curr_tok p <= length toks)%nat
  /\ (curr_node p + length toks + k <= p_size p + curr_tok p)%nat.

Definition parse_post (toks : list Token) (r : outcome (ASTNode * Parser)) : Prop :=
  match r with
  | Ok (a, _) => expression_tree toks a
  | Err e => syntax_error e = true
  | Undef => False
  | Timeout => True
  end.

Definition safe_main (toks : list Token)
    (F : nat -> Parser -> outcome (ASTNode * Parser)) (fuel : nat) : Prop :=
  forall p, parse_pre 0 toks p -> parse_post toks (F fuel p).

Definition safe_loop (toks : list Token)
    (F : nat -> Parser -> option ASTNode -> outcome (ASTNode * Parser))
    (fuel : nat) : Prop :=
  forall p l, parse_pre 0 toks p -> expression_tree toks l ->
    parse_post toks (F fuel p (Some l)).

(** ** Token sequences in statements about precedence *)

Definition operand (tok : Token) : Prop :=
  type tok = TOK_NUM \/ type tok = TOK_VAR.

Definition additive (tok : Token) : Prop :=
  type tok = TOK_ADD \/ type tok = TOK_SUB.

Definition multiplicative (tok : Token) : Prop :=
  type tok = TOK_MULT \/ type tok = TOK_DIVIDE \/ type tok = TOK_MODULE.

(** The tree [parse] builds for a token sequence held in a fresh buffer. *)
Definition tree_of (toks : list Token) : outcome ASTNode :=
  let* (head, _) :=
    parse (parser_on {| token_buff := toks; tb_size := TOKEN_BUFFER_SIZE |}) in
  Ok head.

Definition operand_leaf (tok : Token) : ASTNode := mkNode tok None None.

Definition operator_node (op : Token) (l r : ASTNode) : ASTNode :=
  mkNode op (Some l) (Some r).

(** The two diagnostics of [tokenize]. *)
Definition lexical_error (e : error) : bool :=
  match e with
  | TooLong | UnrecognizedChar => true
  | _ => false
  end.

(** ** The scratch pool of the evaluator ([MpfrBuffer])

    [evaluate_node] takes one slot of the pool per call, before it looks at
    the node, and keeps the pointer [result] to it while the operands are
    evaluated.  The pool is doubled with [realloc] when it is full. *)

Definition MPRF_BUFFER_SIZE : nat := 128.

Record MpfrBuffer : Type := mkMpfrBuffer {
  mb_size : nat;
  mb_count : nat
}.

(** [if (count >= size) { size = size * 2; realloc }  result = &buffer[count++]] *)
Definition take_slot (b : MpfrBuffer) : MpfrBuffer :=
  {| mb_size := if (mb_size b <=? mb_count b)%nat then (mb_size b * 2)%nat
                else mb_size b;
     mb_count := S (mb_count b) |}.

(** The pool after [evaluate_node] has evaluated the tree, and whether some
    call wrote through its [result] pointer after a call below it had
    reallocated the pool.  The operands are evaluated as in
    [evaluate_node]: both children of an operator, the left child of
    [sqrt], the right child of an Assign node.  The walk stops at a null
    child, where [evaluate_node] dereferences a null pointer; [size] and
    [count], 16 bits wide in the source, are taken not to wrap. *)
Fixpoint pool_walk (node : ASTNode) (b : MpfrBuffer) : MpfrBuffer * bool :=
  match node with
  | mkNode tok lhs rhs =>
      let b1 := take_slot b in
      let child o b :=
        match o with
        | Some n => pool_walk n b
        | None => (b, false)
        end in
      let moved b' := negb (mb_size b' =? mb_size b1)%nat in
      match type tok with
      | TOK_NUM | TOK_VAR => (b1, false)
      | TOK_ADD | TOK_SUB | TOK_DIVIDE | TOK_MODULE | TOK_MULT | TOK_POWER =>
          let (b2, s1) := child lhs b1 in
          let (b3, s2) := child rhs b2 in
          (b3, s1 || s2 || moved b3)
      | TOK_SQUARE =>
          let (b2, s1) := child lhs b1 in (b2, s1 || moved b2)
      | TOK_ASSING =>
          let (b2, s1) := child rhs b1 in (b2, s1 || moved b2)
      | _ => (b1, false)
      end
  end.

(** The calls of [evaluate_node] for a tree. *)
Fixpoint evaluated_nodes (node : ASTNode) : nat :=
  match node with
  | mkNode tok lhs rhs =>
      let child o :=
        match o with
        | Some n => evaluated_nodes n
        | None => 0%nat
        end in
      match type tok with
      | TOK_ADD | TOK_SUB | TOK_DIVIDE | TOK_MODULE | TOK_MULT | TOK_POWER =>
          S (child lhs + child rhs)
      | TOK_SQUARE => S (child lhs)
      | TOK_ASSING => S (child rhs)
      | _ => 1%nat
      end
  end.

(** [evaluate_expression] resets [count] and evaluates the tree. *)
Definition evaluate_expression_pool (size : nat) (head : ASTNode)
  : MpfrBuffer * bool :=
  pool_walk head {| mb_size := size; mb_count := 0 |}.

(** The tree [parse] builds for [1 + 1 + ... + 1] with [k] operators. *)
Fixpoint sum_tree (k : nat) : ASTNode :=
  match k with
  | O => leaf "1" TOK_NUM 1
  | S k' => binop "+" TOK_ADD (sum_tree k') (leaf "1" TOK_NUM 1)
  end.

(** What a walk that takes [k] slots does to the pool. *)
Definition pool_post (k : nat) (b b' : MpfrBuffer) (s : bool) : Prop :=
  mb_count b' = (mb_count b + k)%nat
  /\ (mb_size b <= mb_size b')%nat
  /\ (mb_count b' <= mb_size b')%nat
  /\ ((mb_count b + k <= mb_size b)%nat -> mb_size b' = mb_size b /\ s = false)
  /\ ((mb_size b < mb_count b + k)%nat -> (mb_size b < mb_size b')%nat).

(** ** Commands and the read-evaluate-print loop ([src/instruction.c]) *)

Definition INSTRUCTION_COUNT : Z := 24.
Definition INSTRUCTION_COUNT_SIZE : Z := 256.
Definition INPUT_BUFFER : nat := 512.

(** The six functions stored in the instruction map. *)
Inductive command : Type :=
| exit_command
| clear_command
| help_command
| clear_vars_command
| info_command
| show_command.

(** The [str] field of an instruction: null after [calloc], not written
    after [malloc], or a string stored in the chunk. *)
Inductive str_field : Type :=
| StrNull
| StrUninit
| StrAt (s : string).

(** [struct Instruction]; [func] is null after [calloc]. *)
Inductive Instruction : Type :=
| mkInstruction (func : option command) (next : option Instruction)
    (str : str_field) (hash : Z).

(** [inst_map] is the array of [INSTRUCTION_COUNT] chain heads; the chunk
    is represented by the strings stored in it and by [chunk_offset]. *)
Record InstructionMap : Type := mkInstructionMap {
  inst_map : list Instruction;
  chunk_offset : Z
}.

Definition strlen (s : string) : Z := Z.of_nat (String.length s).

(** The hash of [instruction.c], the same loop as [hash_string]. *)
Definition string_hash (str : string) (len : Z) : Z :=
  hash_loop str (Z.to_nat len) 2166136261.

(** [while (curr->next != NULL) curr = curr->next; curr->next = newInst] *)
Fixpoint append_instruction (curr newInst : Instruction) : Instruction :=
  match curr with
  | mkInstruction f (Some nx) s h =>
      mkInstruction f (Some (append_instruction nx newInst)) s h
  | mkInstruction f None s h => mkInstruction f (Some newInst) s h
  end.

(** When the chunk is full the function returns before [str] is written:
    the head keeps its null [str], a node from [malloc] an unwritten one. *)
Definition instruction_map_add (map : InstructionMap) (inst : string)
    (func_name : command) : outcome InstructionMap :=
  let len := strlen inst in
  let hash := string_hash inst len mod INSTRUCTION_COUNT in
  let fits := chunk_offset map + len + 1 <=? INSTRUCTION_COUNT_SIZE in
  match inst_map map !! Z.to_nat hash with
  | None => Undef
  | Some curr =>
      let* curr' :=
        match curr with
        | mkInstruction _ _ StrNull _ =>
            Ok (mkInstruction (Some func_name) None
                  (if fits then StrAt inst else StrNull) hash)
        | mkInstruction _ _ StrUninit _ => Undef
        | mkInstruction _ _ (StrAt _) _ =>
            Ok (append_instruction curr
                  (mkInstruction (Some func_name) None
                     (if fits then StrAt inst else StrUninit) hash))
        end in
      Ok {| inst_map := <[Z.to_nat hash := curr']> (inst_map map);
            chunk_offset := if fits then chunk_offset map + len + 1
                            else chunk_offset map |}
  end.

Definition instruction_map_creation : outcome InstructionMap :=
  let insMap :=
    {| inst_map := replicate (Z.to_nat INSTRUCTION_COUNT)
                     (mkInstruction None None StrNull 0);
       chunk_offset := 0 |} in
  let* insMap := instruction_map_add insMap "-clear-vars" clear_vars_command in
  let* insMap := instruction_map_add insMap "-help" help_command in
  let* insMap := instruction_map_add insMap "-info" info_command in
  let* insMap := instruction_map_add insMap "-exit" exit_command in
  let* insMap := instruction_map_add insMap "-clear" clear_command in
  let* insMap := instruction_map_add insMap "-show" show_command in
  Ok insMap.

(** The [while (curr)] of [instruction_map_execute]: the function of the
    first instruction of the chain whose [str] is the token. *)
Fixpoint find_instruction (curr : Instruction) (token : string)
  : outcome (option command) :=
  match curr with
  | mkInstruction f nx s _ =>
      let rest :=
        match nx with
        | Some n => find_instruction n token
        | None => Ok None
        end in
      match s with
      | StrUninit => Undef
      | StrNull => rest
      | StrAt s' =>
          if String.eqb s' token then
            match f with
            | Some c => Ok (Some c)
            | None => Undef
            end
          else rest
      end
  end.

(** The lookup shared by [instruction_map_execute] and
    [instruction_map_exist]: hash, bucket, chain. *)
Definition instruction_lookup (map : InstructionMap) (token : string)
  : outcome (option command) :=
  let hash := string_hash token (strlen token) mod INSTRUCTION_COUNT in
  match inst_map map !! Z.to_nat hash with
  | None => Undef
  | Some curr => find_instruction curr token
  end.

Definition instruction_map_exist (map : InstructionMap) (inst : string)
  : outcome bool :=
  let* found := instruction_lookup map inst in
  Ok (match found with Some _ => true | None => false end).

(** [strtok(inst, " ")] on a new string: the token, the characters from
    the first one that is not a space up to the next space. *)
Fixpoint token_of (s : string) : string :=
  match s with
  | String c s' => if byte_of c =? 32 then EmptyString else String c (token_of s')
  | EmptyString => EmptyString
  end.

Definition strtok (inst : string) : option string :=
  match skip_blanks inst with
  | EmptyString => None
  | t => Some (token_of t)
  end.

(** The string left at [inst] by [strtok], which writes a NUL over the
    space that ends the token. *)
Fixpoint strtok_cut (inst : string) : string :=
  match inst with
  | String c s' =>
      if byte_of c =? 32 then String c (strtok_cut s') else token_of inst
  | EmptyString => EmptyString
  end.

(** What the program reports: results, failures, and the output of the
    commands.  The prompt and the banners are left out, and a value stands
    for its printed form. *)
Inductive output : Type :=
| Result (v : mpfr_t)
| Failure (e : error)
| Variables (vars : list (string * mpfr_t))
| HelpText
| InfoText
| ScreenCleared.

(** [struct App] without its input buffer, which the loop passes on. *)
Record App : Type := mkApp {
  result : mpfr_t;
  parser : Parser;
  run : bool
}.

(** The command functions, called with the application as argument. *)
Definition run_command (c : command) (app : App) : outcome (App * list output) :=
  match c with
  | exit_command =>
      Ok ({| result := result app; parser := parser app; run := false |}, [])
  | clear_command => Ok (app, [ScreenCleared])
  | help_command => Ok (app, [HelpText])
  | info_command => Ok (app, [InfoText])
  | clear_vars_command =>
      let* t := symbol_table_empty (symTable (parser app)) in
      Ok ({| result := result app; parser := set_symTable (parser app) t;
             run := run app |}, [])
  | show_command =>
      let* vars := symbol_table_show (symTable (parser app)) in
      Ok (app, [Variables vars])
  end.

(** [instruction_map_execute]: the string left in the buffer, and [None]
    for [false], or the application after the command has run. *)
Definition instruction_map_execute (map : InstructionMap) (inst : string)
    (args : App) : string * outcome (option (App * list output)) :=
  (strtok_cut inst,
   match strtok inst with
   | None => Ok None
   | Some token =>
       let* found := instruction_lookup map token in
       match found with
       | Some c => let* r := run_command c args in Ok (Some r)
       | None => Ok None
       end
   end).

(** The body of the loop of [main] from the tokenizer on: a result is
    printed and stored under the name [last]. *)
Definition evaluate_line (app : App) (buffer : string)
  : outcome (App * list output) :=
  let (parser', r) := run_line (parser app) buffer in
  match r with
  | Ok v =>
      let* t := symbol_table_insert (symTable parser') "last" v 4 in
      Ok ({| result := v; parser := set_symTable parser' t; run := run app |},
          [Result v])
  | Err e =>
      Ok ({| result := result app; parser := parser'; run := run app |},
          [Failure e])
  | Undef => Undef
  | Timeout => Timeout
  end.

(** One iteration of the loop of [main], for the line in the buffer after
    the newline has been cut off. *)
Definition main_step (instructions : InstructionMap) (app : App) (buffer : string)
  : outcome (App * list output) :=
  match buffer with
  | EmptyString => Ok (app, [])
  | String c _ =>
      if byte_of c =? 45 then
        let (buffer', r) := instruction_map_execute instructions buffer app in
        let* done := r in
        match done with
        | Some after => Ok after
        | None => evaluate_line app buffer'
        end
      else evaluate_line app buffer
  end.

(** [fgets(buffer, n + 1, stdin)]: at most [n] characters, up to and
    including the first newline; the rest of the input stays unread. *)
Fixpoint fgets (n : nat) (stdin : string) : string * string :=
  match n, stdin with
  | S n', String c rest =>
      if byte_of c =? 10 then (String c EmptyString, rest)
      else let (b, r) := fgets n' rest in (String c b, r)
  | _, _ => (EmptyString, stdin)
  end.

(** [buffer[strcspn(buffer, "\n")] = '\0'] *)
Fixpoint cut_newline (buffer : string) : string :=
  match buffer with
  | String c s' =>
      if byte_of c =? 10 then EmptyString else String c (cut_newline s')
  | EmptyString => EmptyString
  end.

(** The loop of [main]; [fgets] returns null at the end of the input. *)
Fixpoint main_loop (fuel : nat) (instructions : InstructionMap) (app : App)
    (stdin : string) : outcome (App * list output) :=
  if run app then
    match stdin with
    | EmptyString => Ok (app, [])
    | _ =>
        match fuel with
        | O => Timeout
        | S fuel' =>
            let (buffer, stdin') := fgets (INPUT_BUFFER - 1) stdin in
            let* (app1, out1) := main_step instructions app (cut_newline buffer) in
            let* (app2, out2) := main_loop fuel' instructions app1 stdin' in
            Ok (app2, out1 ++ out2)
        end
    end
  else Ok (app, []).

(** [parser_destroy] reaches the symbol table through
    [symbol_table_destroy]; the other buffers are freed once. *)
Definition parser_destroy (p : Parser) : outcome unit :=
  symbol_table_destroy (symTable p).

(** [main]: the reports of a whole session on the given input. *)
Definition main (stdin : string) : outcome (list output) :=
  let* instructions := instruction_map_creation in
  let app := {| result := MNaN;
                parser := parser_create token_buffer_create;
                run := true |} in
  let* (app', out) := main_loop (String.length stdin) instructions app stdin in
  let* _ := parser_destroy (parser app') in
  Ok out.

(** The commands by name, as the help text lists them. *)
Definition command_named (token : string) : option command :=
  if String.eqb token "-clear-vars" then Some clear_vars_command
  else if String.eqb token "-help" then Some help_command
  else if String.eqb token "-info" then Some info_command
  else if String.eqb token "-exit" then Some exit_command
  else if String.eqb token "-clear" then Some clear_command
  else if String.eqb token "-show" then Some show_command
  else None.

(** The map [instruction_map_creation] builds. *)
Definition instructions : InstructionMap :=
  match instruction_map_creation with
  | Ok m => m
  | _ => {| inst_map := []; chunk_offset := 0 |}
  end.

Fixpoint no_space (s : string) : bool :=
  match s with
  | String c s' => negb (byte_of c =? 32) && no_space s'
  | EmptyString => true
  end.

Fixpoint no_newline (s : string) : bool :=
  match s with
  | String c s' => negb (byte_of c =? 10) && no_newline s'
  | EmptyString => true
  end.

(** ** Fixed-size buffers and 16-bit counters

    The update path of [symbol_table_insert] formats the value a name has
    and the new one with [mpfr_sprintf(buf, "%.15Rf", x)] into two
    [char[100]]; the token buffer and the scratch pool keep [size] and
    [count] in [uint16_t]; the scratch pool is reallocated when a tree has
    more nodes than it has slots.  The predicates of this section say when
    none of this is reached. *)

(** [|x| * 10^15] rounded to the nearest integer, ties to even, for
    [|x| = m * 2^e]. *)
Definition scaled_15 (m : positive) (e : Z) : Z :=
  let n := Zpos m * 10 ^ 15 in
  if 0 <=? e then n * 2 ^ e
  else
    let d := 2 ^ (- e) in
    let q := n / d in
    let r := n mod d in
    if (d <? 2 * r) || ((2 * r =? d) && Z.odd q) then q + 1 else q.

Fixpoint decimal_digits_from (fuel : nat) (n : Z) : Z :=
  match fuel with
  | O => 1
  | S fuel' => if n <? 10 then 1 else 1 + decimal_digits_from fuel' (n / 10)
  end.

(** The number of decimal digits of [n >= 0]; one digit for zero. *)
Definition decimal_digits (n : Z) : Z :=
  decimal_digits_from (Z.to_nat (Z.log2 n + 1)) n.

(** The characters [mpfr_sprintf(buf, "%.15Rf", x)] writes before the NUL:
    the sign, the integer digits, the period and fifteen decimals; [nan],
    [inf] and [-inf] for the special values. *)
Definition sprintf_15Rf_length (x : mpfr_t) : Z :=
  match x with
  | MNaN => 3
  | MInf neg => if neg then 4 else 3
  | MZero neg => (if neg then 1 else 0) + 17
  | MNum neg m e =>
      (if neg then 1 else 0) + decimal_digits (scaled_15 m e / 10 ^ 15) + 16
  end.

(** [char old_value[100], new_value[100]] in [symbol_table_insert]. *)
Definition VALUE_TEXT_SIZE : Z := 100.

(** The text of [x] and its NUL fit the buffer. *)
Definition sprintf_fits (x : mpfr_t) : bool :=
  sprintf_15Rf_length x + 1 <=? VALUE_TEXT_SIZE.

(** Every value stored in the table can be formatted by a later update. *)
Definition values_fit (t : SymbolTable) : Prop :=
  Forall (fun s => sprintf_fits (num s) = true) (all_syms (buckets t)).

(** The two [mpfr_sprintf] of the update path stay inside their buffers:
    when the name is bound, the value it has and the new one fit. *)
Definition update_prints (t : SymbolTable) (nm : string) (v : mpfr_t) : Prop :=
  forall old, symbol_table_get t nm (name_len nm) = Ok (Some old) ->
    sprintf_fits old = true /\ sprintf_fits v = true.

(** [size] and [count] of the token buffer are [uint16_t]: the size the
    buffer has is a value of that type, and the line is short enough for
    [size + TOKEN_BUFFER_SIZE] to stay one whenever the buffer grows. *)
Definition token_counters_in_range (tokBuff : TokenBuffer) (buff : string) : Prop :=
  Z.of_nat (tb_size tokBuff) < 2 ^ 16
  /\ Z.of_nat (String.length buff + TOKEN_BUFFER_SIZE) <= 2 ^ 16.





(** The table that holds the first [n] sample pairs. *)
Definition sample_table (n : nat) : SymbolTable :=
  match insert_all symbol_table_create 0 (sample_pairs n) with
  | Ok (t, _) => t
  | _ => symbol_table_create
  end.

(** [values_fit] as a check that can be evaluated. *)
Definition values_fit_check (t : SymbolTable) : bool :=
  forallb (fun s => sprintf_fits (num s)) (all_syms (buckets t)).


(** * Properties *)

(** ** Evaluation of binary nodes *)

Section BinaryNodes.

Variables (t t1 t2 : SymbolTable) (tok : Token) (l r : ASTNode) (vl vr : mpfr_t).
Hypothesis Hl : evaluate_node t l = (t1, Ok vl).
Hypothesis Hr : evaluate_node t1 r = (t2, Ok vr).

Lemma evaluate_node_add :
  type tok = TOK_ADD ->
  evaluate_node t (mkNode tok (Some l) (Some r)) = (t2, Ok (mpfr_add vl vr)).
Proof using Hl Hr. intros Hty. simpl. rewrite Hty, Hl, Hr. reflexivity. Qed.

Lemma evaluate_node_sub :
  type tok = TOK_SUB ->
  evaluate_node t (mkNode tok (Some l) (Some r)) = (t2, Ok (mpfr_sub vl vr)).
Proof using Hl Hr. intros Hty. simpl. rewrite Hty, Hl, Hr. reflexivity. Qed.

Lemma evaluate_node_mult :
  type tok = TOK_MULT ->
  evaluate_node t (mkNode tok (Some l) (Some r)) = (t2, Ok (mpfr_mul vl vr)).
Proof using Hl Hr. intros Hty. simpl. rewrite Hty, Hl, Hr. reflexivity. Qed.

Lemma evaluate_node_divide :
  type tok = TOK_DIVIDE ->
  evaluate_node t (mkNode tok (Some l) (Some r)) = (t2, Ok (eval_divide vl vr)).
Proof using Hl Hr. intros Hty. simpl. rewrite Hty, Hl, Hr. reflexivity. Qed.

Lemma evaluate_node_modulo :
  type tok = TOK_MODULE ->
  evaluate_node t (mkNode tok (Some l) (Some r)) = (t2, Ok (eval_modulo vl vr)).
Proof using Hl Hr. intros Hty. simpl. rewrite Hty, Hl, Hr. reflexivity. Qed.

Lemma evaluate_node_power :
  type tok = TOK_POWER ->
  evaluate_node t (mkNode tok (Some l) (Some r)) = (t2, Ok (mpfr_pow vl vr)).
Proof using Hl Hr. intros Hty. simpl. rewrite Hty, Hl, Hr. reflexivity. Qed.

End BinaryNodes.

(** The Modulo case never looks at its left operand: for a non-zero right
    operand the node's value is the right operand's integral part. *)
Lemma eval_modulo_is_trunc_of_right (vl vr : mpfr_t) :
  mpfr_zero_p vr = false -> eval_modulo vl vr = mpfr_trunc vr.
Proof. intros Hz. unfold eval_modulo. rewrite Hz. reflexivity. Qed.

Lemma eval_modulo_zero (vl vr : mpfr_t) :
  mpfr_zero_p vr = true -> eval_modulo vl vr = MNaN.
Proof. intros Hz. unfold eval_modulo. rewrite Hz. reflexivity. Qed.

(** C1. Evaluating [7 % 2] yields 2, the integral part of the right operand,
    where the remainder of 7 divided by 2 is 1; with a right operand that is
    exactly zero the result is NaN. *)
Theorem modulo_yields_integral_part_of_divisor :
  eval_line "7 % 2" = Ok (mpfr_of_Z 2)
  /\ remainder_spec (mpfr_of_Z 7) (mpfr_of_Z 2) = mpfr_of_Z 1
  /\ mpfr_of_Z 2 <> mpfr_of_Z 1
  /\ eval_line "7 % 0" = Ok MNaN.
Proof. vm_compute. repeat split; discriminate. Qed.

(** ** Clearing the table *)

Lemma symbol_table_empty_keeps_count (t t' : SymbolTable) :
  symbol_table_empty t = Ok t' -> count t' = count t /\ capacity t' = capacity t.
Proof.
  unfold symbol_table_empty. intros H.
  destruct (Z.of_nat (length (buckets t)) <? capacity t); [discriminate|].
  destruct (empty_buckets _); simpl in H; try discriminate.
  injection H as <-. split; reflexivity.
Qed.

Lemma empty_buckets_lookup (bs bs' : list chain) (i : nat) (s : Symbol) (c : chain) :
  empty_buckets bs = Ok bs' -> bs !! i = Some (Node s c) -> bs' !! i = Some Freed.
Proof.
  revert bs' i. induction bs as [|b bs IH]; intros bs' i Hem Hi.
  - destruct i; discriminate.
  - simpl in Hem.
    destruct (free_chain b); simpl in Hem; try discriminate.
    destruct (empty_buckets bs) as [rest| | |] eqn:Hrest; simpl in Hem; try discriminate.
    injection Hem as <-.
    destruct i as [|i]; simpl in *.
    + injection Hi as ->. reflexivity.
    + eapply IH; [reflexivity | exact Hi].
Qed.

(** C2. After one insertion into a fresh table, [symbol_table_empty] leaves
    [count] at 1 and [capacity] at 64, and the bucket of the freed name still
    points to the freed symbol: looking the name up reads freed memory
    instead of returning "absent". *)
Theorem clear_keeps_count_and_dangling_bucket :
  exists t1 t2,
    symbol_table_insert symbol_table_create "a" (mpfr_of_Z 5) 1 = Ok t1
    /\ symbol_table_get t1 "a" 1 = Ok (Some (mpfr_of_Z 5))
    /\ symbol_table_empty t1 = Ok t2
    /\ count t2 = 1
    /\ capacity t2 = 64
    /\ symbol_table_get t2 "a" 1 = Undef.
Proof.
  eexists. eexists.
  split; [vm_compute; reflexivity|].
  split; [vm_compute; reflexivity|].
  split; [vm_compute; reflexivity|].
  vm_compute. repeat split; reflexivity.
Qed.

(** ** Assignment and power *)

(** C6. [a = 5] then [a] yields 5; [a = 5], [a = a + 1], [a] yields 6, and
    the table holds one symbol after the first assignment and still one
    after the second. *)
Theorem assignment_updates_in_place :
  snd (run_lines fresh_parser ["a = 5"; "a"]) = [Ok (mpfr_of_Z 5); Ok (mpfr_of_Z 5)]
  /\ snd (run_lines fresh_parser ["a = 5"; "a = a + 1"; "a"]) =
       [Ok (mpfr_of_Z 5); Ok (mpfr_of_Z 6); Ok (mpfr_of_Z 6)]
  /\ count (symTable (fst (run_lines fresh_parser ["a = 5"]))) = 1
  /\ count (symTable (fst (run_lines fresh_parser ["a = 5"; "a = a + 1"]))) = 1
  /\ buckets (symTable (fst (run_lines fresh_parser ["a = 5"; "a = a + 1"]))) =
       <[Z.to_nat (hash_string "a" 1 mod 64) :=
           Node {| num := mpfr_of_Z 6; name := "a"; sym_len := 1 |} Null]>
         (buckets symbol_table_create).
Proof. vm_compute. repeat split; reflexivity. Qed.

(** C7. [2^3^2] parses as [2^(3^2)] and evaluates to 512, not to the 64 of
    [(2^3)^2]. *)
Theorem power_is_right_associative :
  parse_line "2^3^2" =
    Ok (binop "^" TOK_POWER (leaf "2^3^2" TOK_NUM 1)
          (binop "^" TOK_POWER (leaf "3^2" TOK_NUM 1) (leaf "2" TOK_NUM 1)))
  /\ eval_line "2^3^2" = Ok (mpfr_of_Z 512)
  /\ eval_line "(2^3)^2" = Ok (mpfr_of_Z 64)
  /\ mpfr_of_Z 512 <> mpfr_of_Z 64.
Proof. vm_compute. repeat split; try reflexivity. discriminate. Qed.

(** ** NaN operands *)












(** ** A sign that no digit follows *)



Lemma set_last_negative_add (tokBuff : TokenBuffer) (ty : TokenType)
    (start : string) (n : Z) :
  token_buff (set_last_negative (token_buffer_add tokBuff ty start n)) =
  token_buff tokBuff ++
    [{| lexeme := start; type := ty; len := n mod 256; negative := true |}].
Proof.
  unfold set_last_negative, token_buffer_add. simpl.
  rewrite last_snoc. simpl. f_equal.
  rewrite length_app. simpl.
  replace (length (token_buff tokBuff) + 1 - 1)%nat
    with (length (token_buff tokBuff)) by lia.
  apply take_app_length.
Qed.

Lemma eval_number_sign_only (text : string) :
  eval_number {| lexeme := text; type := TOK_NUM; len := 0; negative := true |}
  = MNaN.
Proof. reflexivity. Qed.



(** ** The parser: cursors and assignment nodes *)

Lemma type_eqb_eq (a b : TokenType) : type_eqb a b = true <-> a = b.
Proof.
  unfold type_eqb. rewrite Z.eqb_eq. split; [|intros ->; reflexivity].
  destruct a, b; simpl; intros H; solve [reflexivity | discriminate H].
Qed.

Lemma type_eqb_refl (a : TokenType) : type_eqb a a = true.
Proof. apply type_eqb_eq. reflexivity. Qed.

Lemma match_tok_peek (p : Parser) (ty : TokenType) :
  match_tok p ty = true -> exists t, peek p = Some t /\ type t = ty.
Proof.
  unfold match_tok. destruct (peek p) as [t|]; [|discriminate].
  intros H. exists t. split; [reflexivity | apply type_eqb_eq, H].
Qed.

Lemma peek_lt (p : Parser) (t : Token) :
  peek p = Some t -> (curr_tok p < tb_count (tokens p))%nat.
Proof. unfold peek, tb_count. apply lookup_lt_Some. Qed.

Lemma consume_peek (p : Parser) (t : Token) :
  peek p = Some t -> consume p = set_curr_tok p (curr_tok p + 1).
Proof. unfold consume. intros ->. reflexivity. Qed.

Ltac parser_facts :=
  unfold advances in *;
  repeat match goal with
         | H : _ /\ _ |- _ => destruct H
         | H : true = true -> _ |- _ => specialize (H eq_refl)
         | H : false = true -> _ |- _ => clear H
         end;
  simpl in *;
  repeat match goal with
         | H : tokens _ = _ |- _ => rewrite H in *
         | H : p_size _ = _ |- _ => rewrite H in *
         | H : symTable _ = _ |- _ => rewrite H in *
         | H : curr_tok (consume _) = _ |- _ => rewrite H in *
         | H : curr_node (consume _) = _ |- _ => rewrite H in *
         end.

Ltac parser_solve :=
  parser_facts; repeat split; solve [congruence | lia | intros; lia | intros; discriminate].

Lemma advances_consume (p : Parser) (t : Token) :
  peek p = Some t ->
  tokens (consume p) = tokens p /\ symTable (consume p) = symTable p
  /\ p_size (consume p) = p_size p /\ curr_node (consume p) = curr_node p
  /\ curr_tok (consume p) = S (curr_tok p)
  /\ (curr_tok p < tb_count (tokens p))%nat.
Proof.
  intros H. rewrite (consume_peek _ _ H). simpl.
  repeat split; try lia. apply (peek_lt _ _ H).
Qed.

Lemma create_leaf_node_Some (p p' : Parser) (tok : Token) (n : ASTNode) :
  create_leaf_node p tok = (Some n, p') ->
  n = mkNode tok None None /\ p' = set_curr_node p (curr_node p + 1)
  /\ (curr_node p < p_size p)%nat.
Proof.
  unfold create_leaf_node. destruct (p_size p <=? curr_node p)%nat eqn:E.
  - discriminate.
  - intros [= <- <-]. apply Nat.leb_gt in E. auto.
Qed.

Lemma create_binary_node_Some (p p' : Parser) (op : Token)
    (l r : option ASTNode) (n : ASTNode) :
  create_binary_node p op l r = (Some n, p') ->
  n = mkNode op l r /\ p' = set_curr_node p (curr_node p + 1)
  /\ (curr_node p < p_size p)%nat.
Proof.
  unfold create_binary_node. destruct (p_size p <=? curr_node p)%nat eqn:E.
  - discriminate.
  - intros [= <- <-]. apply Nat.leb_gt in E. auto.
Qed.

Lemma create_binary_node_None (p p' : Parser) (op : Token) (l r : option ASTNode) :
  create_binary_node p op l r = (None, p') -> p' = p.
Proof.
  unfold create_binary_node. destruct (p_size p <=? curr_node p)%nat.
  - intros [= <-]. reflexivity.
  - discriminate.
Qed.

Lemma returned_Ok (r : option ASTNode * Parser) (a : ASTNode) (p : Parser) :
  returned r = Ok (a, p) -> r = (Some a, p).
Proof. destruct r as [[n|] q]; simpl; [intros [= <- <-]; reflexivity | discriminate]. Qed.

Lemma parse_primary_S (f : nat) (p : Parser) :
  parse_primary (S f) p =
  match peek p with
  | None => Err UnexpectedEOF
  | Some curr =>
      match type curr with
      | TOK_NUM | TOK_VAR => returned (create_leaf_node (consume p) curr)
      | TOK_LPAR =>
          let* (expr, p1) := parse_expression f (consume p) in
          if expect p1 TOK_RPAR then Ok (expr, consume p1)
          else Err MissingCloseParen
      | TOK_SQUARE =>
          let (sqrt, p1) := create_leaf_node (consume p) curr in
          if expect p1 TOK_LPAR then
            let arg := parse_expression f (consume p1) in
            match sqrt with
            | None => match arg with Timeout => Timeout | _ => Undef end
            | Some node =>
                let* (a, p2) := arg in
                if expect p2 TOK_RPAR
                then Ok (mkNode (node_token node) (Some a) (node_right node),
                         consume p2)
                else Err MissingCloseParen
            end
          else Err MissingOpenParen
      | _ => Err UnexpectedToken
      end
  end.
Proof. reflexivity. Qed.

Lemma parse_power_S (f : nat) (p : Parser) :
  parse_power (S f) p =
  let* (lhs, p1) := parse_primary f p in
  if match_tok p1 TOK_POWER then
    match peek p1 with
    | None => Undef
    | Some op =>
        let* (rhs, p2) := parse_power f (consume p1) in
        returned (create_binary_node p2 op (Some lhs) (Some rhs))
    end
  else Ok (lhs, p1).
Proof. reflexivity. Qed.

Lemma parse_term_loop_S (f : nat) (p : Parser) (left : option ASTNode) :
  parse_term_loop (S f) p left =
  if match_tok p TOK_MULT || match_tok p TOK_DIVIDE || match_tok p TOK_MODULE
  then
    match peek p with
    | None => Undef
    | Some op =>
        let* (rhs, p1) := parse_power f (consume p) in
        let (node, p2) := create_binary_node p1 op left (Some rhs) in
        parse_term_loop f p2 node
    end
  else returned (left, p).
Proof. reflexivity. Qed.

Lemma parse_term_S (f : nat) (p : Parser) :
  parse_term (S f) p =
  let* (lhs, p1) := parse_power f p in parse_term_loop f p1 (Some lhs).
Proof. reflexivity. Qed.

Lemma parse_expression_loop_S (f : nat) (p : Parser) (left : option ASTNode) :
  parse_expression_loop (S f) p left =
  if match_tok p TOK_ADD || match_tok p TOK_SUB
  then
    match peek p with
    | None => Undef
    | Some op =>
        let* (rhs, p1) := parse_term f (consume p) in
        let (node, p2) := create_binary_node p1 op left (Some rhs) in
        parse_expression_loop f p2 node
    end
  else returned (left, p).
Proof. reflexivity. Qed.

Lemma parse_expression_S (f : nat) (p : Parser) :
  parse_expression (S f) p =
  let* (lhs, p1) := parse_term f p in parse_expression_loop f p1 (Some lhs).
Proof. reflexivity. Qed.

Lemma bind_Ok {A B : Type} (x : outcome A) (k : A -> outcome B) (b : B) :
  bind x k = Ok b -> exists a, x = Ok a /\ k a = Ok b.
Proof. destruct x; simpl; try discriminate. intros H. eauto. Qed.

Lemma parse_frame (fuel : nat) :
  frame_main parse_primary fuel /\ frame_main parse_power fuel
  /\ frame_loop parse_term_loop fuel /\ frame_main parse_term fuel
  /\ frame_loop parse_expression_loop fuel /\ frame_main parse_expression fuel.
Proof.
  induction fuel as [|f (IHprim & IHpow & IHtl & IHt & IHel & IHe)].
  { unfold frame_main, frame_loop. repeat split; intros; discriminate. }
  unfold frame_main, frame_loop in *.
  refine (conj _ (conj _ (conj _ (conj _ (conj _ _))))).
  - (* primary *)
    intros p a p' H. rewrite parse_primary_S in H.
    destruct (peek p) as [curr|] eqn:Epk; [|discriminate].
    pose proof (advances_consume _ _ Epk) as Hc.
    destruct (type curr) eqn:Ety; try discriminate.
    + apply returned_Ok, create_leaf_node_Some in H as (-> & -> & Hlt).
      split; [parser_solve | simpl; rewrite Ety; reflexivity].
    + apply returned_Ok, create_leaf_node_Some in H as (-> & -> & Hlt).
      split; [parser_solve | simpl; rewrite Ety; reflexivity].
    + destruct (create_leaf_node (consume p) curr) as [sqrt p1] eqn:Ecr.
      destruct (expect p1 TOK_LPAR) eqn:Eex; [|discriminate].
      destruct sqrt as [node|].
      2:{ destruct (parse_expression f (consume p1)); discriminate. }
      apply create_leaf_node_Some in Ecr as (-> & -> & Hlt).
      apply bind_Ok in H as ([a1 p2] & Harg & H).
      destruct (expect p2 TOK_RPAR) eqn:Eex2; [|discriminate].
      injection H as <- <-.
      apply match_tok_peek in Eex as (t1 & Epk1 & _).
      apply match_tok_peek in Eex2 as (t2 & Epk2 & _).
      pose proof (advances_consume _ _ Epk1) as Hc1.
      pose proof (advances_consume _ _ Epk2) as Hc2.
      apply IHe in Harg as (Hadv & Hna).
      split; [parser_solve | simpl; rewrite Ety, Hna; reflexivity].
    + apply bind_Ok in H as ([a1 p1] & Harg & H).
      destruct (expect p1 TOK_RPAR) eqn:Eex; [|discriminate].
      injection H as <- <-.
      apply match_tok_peek in Eex as (t1 & Epk1 & _).
      pose proof (advances_consume _ _ Epk1) as Hc1.
      apply IHe in Harg as (Hadv & Hna).
      split; [parser_solve | exact Hna].
  - (* power *)
    intros p a p' H. rewrite parse_power_S in H.
    apply bind_Ok in H as ([lhs p1] & Hprim & H).
    apply IHprim in Hprim as (Hadv1 & Hna1).
    destruct (match_tok p1 TOK_POWER) eqn:Em.
    + apply match_tok_peek in Em as (op & Epk & Hop).
      rewrite Epk in H.
      pose proof (advances_consume _ _ Epk) as Hc.
      apply bind_Ok in H as ([rhs p2] & Hpow & H).
      apply IHpow in Hpow as (Hadv2 & Hna2).
      apply returned_Ok, create_binary_node_Some in H as (-> & -> & Hlt).
      split; [parser_solve | simpl; rewrite Hop, Hna1, Hna2; reflexivity].
    + injection H as <- <-. split; [exact Hadv1 | exact Hna1].
  - (* term loop *)
    intros p left a p' H Hleft. rewrite parse_term_loop_S in H.
    destruct (match_tok p TOK_MULT || match_tok p TOK_DIVIDE
              || match_tok p TOK_MODULE) eqn:Em.
    + destruct (peek p) as [op|] eqn:Epk; [|discriminate].
      assert (Hop : type_eqb (type op) TOK_ASSING = false).
      { unfold match_tok in Em. rewrite Epk in Em.
        destruct (type op); try discriminate; reflexivity. }
      pose proof (advances_consume _ _ Epk) as Hc.
      apply bind_Ok in H as ([rhs p1] & Hpow & H).
      apply IHpow in Hpow as (Hadv1 & Hna1).
      destruct (create_binary_node p1 op left (Some rhs)) as [[node|] p2] eqn:Ecr.
      * apply create_binary_node_Some in Ecr as (-> & -> & Hlt).
        apply IHtl in H as (Hadv2 & Hna2).
        -- split; [parser_solve | exact Hna2].
        -- simpl. rewrite Hop, Hna1. unfold opt_has_assign in Hleft.
           rewrite Hleft. reflexivity.
      * apply create_binary_node_None in Ecr as ->.
        apply IHtl in H as (Hadv2 & Hna2); [|reflexivity].
        split; [parser_solve | exact Hna2].
    + apply returned_Ok in H. injection H as -> <-.
      split; [parser_solve | exact Hleft].
  - (* term *)
    intros p a p' H. rewrite parse_term_S in H.
    apply bind_Ok in H as ([lhs p1] & Hpow & H).
    apply IHpow in Hpow as (Hadv1 & Hna1).
    apply IHtl in H as (Hadv2 & Hna2); [|exact Hna1].
    split; [parser_solve | exact Hna2].
  - (* expression loop *)
    intros p left a p' H Hleft. rewrite parse_expression_loop_S in H.
    destruct (match_tok p TOK_ADD || match_tok p TOK_SUB) eqn:Em.
    + destruct (peek p) as [op|] eqn:Epk; [|discriminate].
      assert (Hop : type_eqb (type op) TOK_ASSING = false).
      { unfold match_tok in Em. rewrite Epk in Em.
        destruct (type op); try discriminate; reflexivity. }
      pose proof (advances_consume _ _ Epk) as Hc.
      apply bind_Ok in H as ([rhs p1] & Hterm & H).
      apply IHt in Hterm as (Hadv1 & Hna1).
      destruct (create_binary_node p1 op left (Some rhs)) as [[node|] p2] eqn:Ecr.
      * apply create_binary_node_Some in Ecr as (-> & -> & Hlt).
        apply IHel in H as (Hadv2 & Hna2).
        -- split; [parser_solve | exact Hna2].
        -- simpl. rewrite Hop, Hna1. unfold opt_has_assign in Hleft.
           rewrite Hleft. reflexivity.
      * apply create_binary_node_None in Ecr as ->.
        apply IHel in H as (Hadv2 & Hna2); [|reflexivity].
        split; [parser_solve | exact Hna2].
    + apply returned_Ok in H. injection H as -> <-.
      split; [parser_solve | exact Hleft].
  - (* expression *)
    intros p a p' H. rewrite parse_expression_S in H.
    apply bind_Ok in H as ([lhs p1] & Hterm & H).
    apply IHt in Hterm as (Hadv1 & Hna1).
    apply IHel in H as (Hadv2 & Hna2); [|exact Hna1].
    split; [parser_solve | exact Hna2].
Qed.

(** ** Parsing a statement followed by more tokens *)

Lemma tb_count_lift (rest : list Token) (Q p : Parser) :
  token_buff (tokens Q) = token_buff (tokens p) ++ rest ->
  tb_count (tokens Q) = (tb_count (tokens p) + length rest)%nat.
Proof. unfold tb_count. intros ->. rewrite length_app. lia. Qed.

Lemma peek_lift_Some (rest : list Token) (Q p : Parser) (t : Token) :
  token_buff (tokens Q) = token_buff (tokens p) ++ rest ->
  peek p = Some t -> peek (lift Q p) = Some t.
Proof.
  unfold peek. simpl. intros -> H.
  rewrite lookup_app_l; [exact H | apply (lookup_lt_Some _ _ _ H)].
Qed.

Lemma match_tok_lift_true (rest : list Token) (Q p : Parser) (ty : TokenType) :
  token_buff (tokens Q) = token_buff (tokens p) ++ rest ->
  match_tok p ty = true -> match_tok (lift Q p) ty = true.
Proof.
  intros HQ H. unfold match_tok in *.
  destruct (peek p) as [t|] eqn:E; [|discriminate].
  rewrite (peek_lift_Some _ _ _ _ HQ E). exact H.
Qed.

Lemma match_tok_lift_false (rest : list Token) (Q p : Parser) (ty : TokenType) :
  head_stops rest ->
  token_buff (tokens Q) = token_buff (tokens p) ++ rest ->
  (curr_tok p <= tb_count (tokens p))%nat ->
  continues_statement ty = true ->
  match_tok p ty = false -> match_tok (lift Q p) ty = false.
Proof.
  intros Hstop HQ Hle Hty H. unfold match_tok in *.
  destruct (peek p) as [t|] eqn:E.
  - rewrite (peek_lift_Some _ _ _ _ HQ E). exact H.
  - unfold peek in *. simpl. rewrite HQ.
    apply lookup_ge_None_1 in E. unfold tb_count in Hle.
    rewrite lookup_app_r by lia.
    replace (curr_tok p - length (token_buff (tokens p)))%nat with 0%nat by lia.
    destruct rest as [|t rest']; [reflexivity|]. simpl in *.
    destruct (type_eqb (type t) ty) eqn:Et; [|reflexivity].
    apply type_eqb_eq in Et. congruence.
Qed.

Lemma consume_lift (rest : list Token) (Q p : Parser) (t : Token) :
  token_buff (tokens Q) = token_buff (tokens p) ++ rest ->
  peek p = Some t -> consume (lift Q p) = lift Q (consume p).
Proof.
  intros HQ H. rewrite (consume_peek _ _ (peek_lift_Some _ _ _ _ HQ H)).
  rewrite (consume_peek _ _ H). reflexivity.
Qed.

Lemma create_leaf_node_lift (Q p : Parser) (tok : Token) :
  (curr_node p < p_size Q)%nat ->
  create_leaf_node (lift Q p) tok =
  (Some (mkNode tok None None), lift Q (set_curr_node p (curr_node p + 1))).
Proof.
  intros H. unfold create_leaf_node. simpl.
  apply Nat.leb_gt in H. rewrite H. reflexivity.
Qed.

Lemma create_binary_node_lift (Q p : Parser) (op : Token) (l r : option ASTNode) :
  (curr_node p < p_size Q)%nat ->
  create_binary_node (lift Q p) op l r =
  (Some (mkNode op l r), lift Q (set_curr_node p (curr_node p + 1))).
Proof.
  intros H. unfold create_binary_node. simpl.
  apply Nat.leb_gt in H. rewrite H. reflexivity.
Qed.

Lemma create_binary_node_room (p : Parser) (op : Token) (l r : option ASTNode) :
  (curr_node p < p_size p)%nat ->
  create_binary_node p op l r =
  (Some (mkNode op l r), set_curr_node p (curr_node p + 1)).
Proof.
  intros H. unfold create_binary_node.
  apply Nat.leb_gt in H. rewrite H. reflexivity.
Qed.

Ltac sim_arith :=
  unfold sim_pre, room, advances in *;
  repeat match goal with
         | H : _ /\ _ |- _ => destruct H
         | H : true = true -> _ |- _ => specialize (H eq_refl)
         | H : false = true -> _ |- _ => clear H
         end;
  simpl in *;
  repeat match goal with
         | H : tokens _ = tokens _ |- _ => rewrite H in *
         | H : p_size _ = p_size _ |- _ => rewrite H in *
         | H : curr_tok (consume _) = _ |- _ => rewrite H in *
         | H : curr_node (consume _) = _ |- _ => rewrite H in *
         end;
  repeat match goal with
         | H : token_buff (tokens ?Q) = token_buff (tokens ?p) ++ ?rest |- _ =>
             lazymatch goal with
             | _ : tb_count (tokens Q) = (tb_count (tokens p) + length rest)%nat |- _ => fail
             | _ => pose proof (tb_count_lift _ _ _ H)
             end
         end;
  repeat split; solve [assumption | congruence | lia].

Lemma parse_sim (rest : list Token) (Q : Parser) (fuel : nat) :
  head_stops rest ->
  sim_main rest Q parse_primary fuel /\ sim_main rest Q parse_power fuel
  /\ sim_loop rest Q parse_term_loop fuel /\ sim_main rest Q parse_term fuel
  /\ sim_loop rest Q parse_expression_loop fuel
  /\ sim_main rest Q parse_expression fuel.
Proof.
  intros Hstop.
  induction fuel as [|f (IHprim & IHpow & IHtl & IHt & IHel & IHe)].
  { unfold sim_main, sim_loop. repeat split; intros; discriminate. }
  destruct (parse_frame f) as (Fprim & Fpow & Ftl & Ft & Fel & Fe).
  unfold sim_main, sim_loop, frame_main, frame_loop in *.
  refine (conj _ (conj _ (conj _ (conj _ (conj _ _))))).
  - (* primary *)
    intros [|f'] p a p' Hf H Hpre; [lia|]. assert (Hf' : (f <= f')%nat) by lia.
    rewrite parse_primary_S in *.
    pose proof Hpre as (HQ & _).
    destruct (peek p) as [curr|] eqn:Epk; [|discriminate].
    rewrite (peek_lift_Some _ _ _ _ HQ Epk), (consume_lift _ _ _ _ HQ Epk).
    pose proof (advances_consume _ _ Epk) as Hc.
    destruct (type curr) eqn:Ety; try discriminate.
    + apply returned_Ok, create_leaf_node_Some in H as (-> & -> & Hlt).
      rewrite create_leaf_node_lift by sim_arith. reflexivity.
    + apply returned_Ok, create_leaf_node_Some in H as (-> & -> & Hlt).
      rewrite create_leaf_node_lift by sim_arith. reflexivity.
    + destruct (create_leaf_node (consume p) curr) as [sqrt p1] eqn:Ecr.
      destruct (expect p1 TOK_LPAR) eqn:Eex; [|discriminate].
      destruct sqrt as [node|].
      2:{ destruct (parse_expression f (consume p1)); discriminate. }
      apply create_leaf_node_Some in Ecr as (-> & -> & Hlt).
      rewrite create_leaf_node_lift by sim_arith.
      apply bind_Ok in H as ([a1 p2] & Harg & H).
      destruct (expect p2 TOK_RPAR) eqn:Eex2; [|discriminate].
      injection H as <- <-.
      unfold expect in *.
      assert (HQ1 : token_buff (tokens Q) =
                    token_buff (tokens (set_curr_node (consume p) (curr_node (consume p) + 1))) ++ rest)
        by sim_arith.
      rewrite (match_tok_lift_true _ _ _ _ HQ1 Eex).
      apply match_tok_peek in Eex as (t1 & Epk1 & _).
      rewrite (consume_lift _ _ _ _ HQ1 Epk1).
      pose proof (advances_consume _ _ Epk1) as Hc1.
      pose proof (Fe _ _ _ Harg) as (Hadv & _).
      rewrite (IHe f' _ _ _ Hf' Harg) by sim_arith. simpl.
      assert (HQ2 : token_buff (tokens Q) = token_buff (tokens p2) ++ rest)
        by sim_arith.
      rewrite (match_tok_lift_true _ _ _ _ HQ2 Eex2).
      apply match_tok_peek in Eex2 as (t2 & Epk2 & _).
      rewrite (consume_lift _ _ _ _ HQ2 Epk2). reflexivity.
    + apply bind_Ok in H as ([a1 p1] & Harg & H).
      destruct (expect p1 TOK_RPAR) eqn:Eex; [|discriminate].
      injection H as <- <-.
      pose proof (Fe _ _ _ Harg) as (Hadv & _).
      rewrite (IHe f' _ _ _ Hf' Harg) by sim_arith. simpl.
      assert (HQ1 : token_buff (tokens Q) = token_buff (tokens p1) ++ rest)
        by sim_arith.
      unfold expect in *.
      rewrite (match_tok_lift_true _ _ _ _ HQ1 Eex).
      apply match_tok_peek in Eex as (t1 & Epk1 & _).
      rewrite (consume_lift _ _ _ _ HQ1 Epk1). reflexivity.
  - (* power *)
    intros [|f'] p a p' Hf H Hpre; [lia|]. assert (Hf' : (f <= f')%nat) by lia.
    rewrite parse_power_S in *.
    apply bind_Ok in H as ([lhs p1] & Hprim & H).
    pose proof (Fprim _ _ _ Hprim) as (Hadv1 & _).
    rewrite (IHprim f' _ _ _ Hf' Hprim Hpre). simpl.
    assert (HQ1 : token_buff (tokens Q) = token_buff (tokens p1) ++ rest)
      by sim_arith.
    destruct (match_tok p1 TOK_POWER) eqn:Em.
    + rewrite (match_tok_lift_true _ _ _ _ HQ1 Em).
      apply match_tok_peek in Em as (op & Epk & Hop).
      rewrite Epk in H.
      rewrite (peek_lift_Some _ _ _ _ HQ1 Epk), (consume_lift _ _ _ _ HQ1 Epk).
      pose proof (advances_consume _ _ Epk) as Hc.
      apply bind_Ok in H as ([rhs p2] & Hpow & H).
      pose proof (Fpow _ _ _ Hpow) as (Hadv2 & _).
      rewrite (IHpow f' _ _ _ Hf' Hpow) by sim_arith. simpl.
      apply returned_Ok, create_binary_node_Some in H as (-> & -> & Hlt).
      rewrite create_binary_node_lift by sim_arith. reflexivity.
    + rewrite (match_tok_lift_false _ _ _ _ Hstop HQ1) by
        (solve [reflexivity | assumption | sim_arith]).
      injection H as <- <-. reflexivity.
  - (* term loop *)
    intros [|f'] p left a p' Hf H Hpre; [lia|]. assert (Hf' : (f <= f')%nat) by lia.
    rewrite parse_term_loop_S in *.
    pose proof Hpre as (HQ & Hle & _).
    destruct (match_tok p TOK_MULT) eqn:Em1;
      [|destruct (match_tok p TOK_DIVIDE) eqn:Em2;
        [|destruct (match_tok p TOK_MODULE) eqn:Em3]];
      cbn [orb] in H;
      rewrite ?(match_tok_lift_true _ _ _ _ HQ Em1),
              ?(match_tok_lift_true _ _ _ _ HQ Em2),
              ?(match_tok_lift_true _ _ _ _ HQ Em3),
              ?(match_tok_lift_false _ _ _ TOK_MULT Hstop HQ Hle eq_refl Em1),
              ?(match_tok_lift_false _ _ _ TOK_DIVIDE Hstop HQ Hle eq_refl Em2),
              ?(match_tok_lift_false _ _ _ TOK_MODULE Hstop HQ Hle eq_refl Em3);
      cbn [orb].
    4:{ apply returned_Ok in H. injection H as -> <-. reflexivity. }
    all: destruct (peek p) as [op|] eqn:Epk; [|discriminate];
      rewrite (peek_lift_Some _ _ _ _ HQ Epk), (consume_lift _ _ _ _ HQ Epk);
      pose proof (advances_consume _ _ Epk) as Hc;
      apply bind_Ok in H as ([rhs p1] & Hpow & H);
      pose proof (Fpow _ _ _ Hpow) as (Hadv1 & _);
      rewrite (IHpow f' _ _ _ Hf' Hpow) by sim_arith; simpl;
      rewrite create_binary_node_room in H by sim_arith;
      rewrite create_binary_node_lift by sim_arith;
      apply (IHtl f' _ _ _ _ Hf' H); sim_arith.
  - (* term *)
    intros [|f'] p a p' Hf H Hpre; [lia|]. assert (Hf' : (f <= f')%nat) by lia.
    rewrite parse_term_S in *.
    apply bind_Ok in H as ([lhs p1] & Hpow & H).
    pose proof (Fpow _ _ _ Hpow) as (Hadv1 & _).
    rewrite (IHpow f' _ _ _ Hf' Hpow Hpre). simpl.
    apply (IHtl f' _ _ _ _ Hf' H). sim_arith.
  - (* expression loop *)
    intros [|f'] p left a p' Hf H Hpre; [lia|]. assert (Hf' : (f <= f')%nat) by lia.
    rewrite parse_expression_loop_S in *.
    pose proof Hpre as (HQ & Hle & _).
    destruct (match_tok p TOK_ADD) eqn:Em1;
      [|destruct (match_tok p TOK_SUB) eqn:Em2];
      cbn [orb] in H;
      rewrite ?(match_tok_lift_true _ _ _ _ HQ Em1),
              ?(match_tok_lift_true _ _ _ _ HQ Em2),
              ?(match_tok_lift_false _ _ _ TOK_ADD Hstop HQ Hle eq_refl Em1),
              ?(match_tok_lift_false _ _ _ TOK_SUB Hstop HQ Hle eq_refl Em2);
      cbn [orb].
    3:{ apply returned_Ok in H. injection H as -> <-. reflexivity. }
    all: destruct (peek p) as [op|] eqn:Epk; [|discriminate];
      rewrite (peek_lift_Some _ _ _ _ HQ Epk), (consume_lift _ _ _ _ HQ Epk);
      pose proof (advances_consume _ _ Epk) as Hc;
      apply bind_Ok in H as ([rhs p1] & Hterm & H);
      pose proof (Ft _ _ _ Hterm) as (Hadv1 & _);
      rewrite (IHt f' _ _ _ Hf' Hterm) by sim_arith; simpl;
      rewrite create_binary_node_room in H by sim_arith;
      rewrite create_binary_node_lift by sim_arith;
      apply (IHel f' _ _ _ _ Hf' H); sim_arith.
  - (* expression *)
    intros [|f'] p a p' Hf H Hpre; [lia|]. assert (Hf' : (f <= f')%nat) by lia.
    rewrite parse_expression_S in *.
    apply bind_Ok in H as ([lhs p1] & Hterm & H).
    pose proof (Ft _ _ _ Hterm) as (Hadv1 & _).
    rewrite (IHt f' _ _ _ Hf' Hterm Hpre). simpl.
    apply (IHel f' _ _ _ _ Hf' H). sim_arith.
Qed.

Lemma is_assignment_statement_start (p : Parser) :
  curr_tok p = 0%nat ->
  is_assignment_statement p = starts_with_assignment (token_buff (tokens p)).
Proof.
  unfold is_assignment_statement, peek, peek_next. intros ->.
  destruct (token_buff (tokens p)) as [|v [|op l]]; reflexivity.
Qed.

Lemma has_assign_false (tok : Token) (l r : option ASTNode) :
  has_assign (mkNode tok l r) = false ->
  type_eqb (type tok) TOK_ASSING = false
  /\ opt_has_assign l = false /\ opt_has_assign r = false.
Proof.
  simpl. intros H.
  apply orb_false_iff in H as (H & Hr). apply orb_false_iff in H as (Ht & Hl).
  auto.
Qed.

Lemma parse_statement_assign (fuel : nat) (p : Parser) (ast : ASTNode) (p' : Parser) :
  parse_statement fuel p = Ok (ast, p') ->
  opt_has_assign (node_left ast) = false
  /\ opt_has_assign (node_right ast) = false
  /\ type_eqb (type (node_token ast)) TOK_ASSING = is_assignment_statement p.
Proof.
  unfold parse_statement. intros H.
  destruct (is_assignment_statement p) eqn:Eas.
  - unfold is_assignment_statement in Eas.
    destruct (peek p) as [v|] eqn:Epk; [|discriminate].
    destruct (peek_next p) as [op|] eqn:Epn; [|discriminate].
    apply andb_true_iff in Eas as (Hv & Hop).
    apply bind_Ok in H as ([var p1] & Hvar & H).
    apply returned_Ok, create_leaf_node_Some in Hvar as (-> & -> & _).
    apply bind_Ok in H as ([rhs p2] & Hrhs & H).
    apply returned_Ok, create_binary_node_Some in H as (-> & -> & _).
    destruct (parse_frame fuel) as (_ & _ & _ & _ & _ & Fe).
    apply Fe in Hrhs as (_ & Hna).
    simpl. apply type_eqb_eq in Hv. rewrite Hv, Hna, Hop. auto.
  - destruct (parse_frame fuel) as (_ & _ & _ & _ & _ & Fe).
    apply Fe in H as (_ & Hna). destruct ast as [tok l r].
    apply has_assign_false in Hna as (Ht & Hl & Hr). simpl. auto.
Qed.

(** C8 (as the source has it). An Assign node is built only by the two-token
    lookahead of [parse_statement]: in every tree that [parse] returns, no
    node below the root is an Assign node, and the root is one exactly when
    the tokens start with a variable followed by ['='].  [a = (b = 3)] is
    rejected where the closing parenthesis is expected, ['='] in operand
    position is rejected by [parse_primary], and an ['='] after a complete
    statement is left unread. *)
Theorem assignment_only_at_statement_level :
  (forall (parser : Parser) (ast : ASTNode) (parser' : Parser),
      parse parser = Ok (ast, parser') ->
      opt_has_assign (node_left ast) = false
      /\ opt_has_assign (node_right ast) = false
      /\ type_eqb (type (node_token ast)) TOK_ASSING =
         starts_with_assignment (token_buff (tokens parser)))
  /\ parse_line "a = (b = 3)" = Err MissingCloseParen
  /\ parse_line "2 + = 3" = Err UnexpectedToken
  /\ parse_line "a = b = 3" =
       Ok (binop "=" TOK_ASSING (leaf "a = b = 3" TOK_VAR 1) (leaf "b = 3" TOK_VAR 1)).
Proof.
  split; [|vm_compute; repeat split; reflexivity].
  intros parser ast parser' H. unfold parse in H.
  apply parse_statement_assign in H as (Hl & Hr & Ht).
  rewrite is_assignment_statement_start in Ht by reflexivity. auto.
Qed.

Lemma assignment_only_at_statement_level_witness :
  opt_has_assign (node_left (binop "=" TOK_ASSING (leaf "a = 5" TOK_VAR 1) (leaf "5" TOK_NUM 1))) = false
  /\ opt_has_assign (node_right (binop "=" TOK_ASSING (leaf "a = 5" TOK_VAR 1) (leaf "5" TOK_NUM 1))) = false
  /\ type_eqb (type (node_token (binop "=" TOK_ASSING (leaf "a = 5" TOK_VAR 1) (leaf "5" TOK_NUM 1)))) TOK_ASSING =
     starts_with_assignment
       [{| lexeme := "a = 5"; type := TOK_VAR; len := 1; negative := false |};
        {| lexeme := "="; type := TOK_ASSING; len := 1; negative := false |};
        {| lexeme := "5"; type := TOK_NUM; len := 1; negative := false |}].
Proof.
  refine (proj1 assignment_only_at_statement_level
            (parser_on {| token_buff :=
                 [{| lexeme := "a = 5"; type := TOK_VAR; len := 1; negative := false |};
                  {| lexeme := "="; type := TOK_ASSING; len := 1; negative := false |};
                  {| lexeme := "5"; type := TOK_NUM; len := 1; negative := false |}];
               tb_size := 128 |})
            (binop "=" TOK_ASSING (leaf "a = 5" TOK_VAR 1) (leaf "5" TOK_NUM 1))
            _ _).
  vm_compute. reflexivity.
Defined.

(** The second ['='] of [a = b = 3] stands inside the assigned expression,
    and parsing succeeds with the tree of [a = b]; [a = (b = 3)] is rejected
    for its missing closing parenthesis, not as an unexpected token. *)
Lemma chained_assignment_parses :
  tokens_of "a = b = 3" =
    Ok [{| lexeme := "a = b = 3"; type := TOK_VAR; len := 1; negative := false |};
        {| lexeme := "="; type := TOK_ASSING; len := 1; negative := false |};
        {| lexeme := "b = 3"; type := TOK_VAR; len := 1; negative := false |};
        {| lexeme := "="; type := TOK_ASSING; len := 1; negative := false |};
        {| lexeme := "3"; type := TOK_NUM; len := 1; negative := false |}]
  /\ parse_line "a = b = 3" =
       Ok (binop "=" TOK_ASSING (leaf "a = b = 3" TOK_VAR 1) (leaf "b = 3" TOK_VAR 1))
  /\ parse_line "a = (b = 3)" = Err MissingCloseParen
  /\ parse_line "a = (b = 3)" <> Err UnexpectedToken.
Proof. vm_compute. repeat split; try reflexivity. discriminate. Qed.

(** ** Trailing tokens *)

Lemma stops_statement_head (prefix rest : list Token) :
  stops_statement prefix rest = true -> head_stops rest.
Proof.
  unfold stops_statement, head_stops. destruct rest as [|t rest']; [auto|].
  intros H. apply andb_true_iff in H as (H & _).
  apply negb_true_iff in H. exact H.
Qed.

Lemma starts_with_assignment_app (prefix rest : list Token) :
  prefix <> [] ->
  stops_statement prefix rest = true ->
  starts_with_assignment (prefix ++ rest) = starts_with_assignment prefix.
Proof.
  intros Hne Hstop. destruct prefix as [|v [|op l]]; [congruence| |reflexivity].
  simpl. destruct rest as [|t rest']; [reflexivity|].
  simpl in Hstop. apply andb_true_iff in Hstop as (_ & H).
  apply negb_true_iff in H. exact H.
Qed.

Lemma parse_empty (parser : Parser) :
  token_buff (tokens parser) = [] ->
  forall a p, parse parser <> Ok (a, p).
Proof.
  intros Hnil a p H. unfold parse, parse_statement in H.
  rewrite is_assignment_statement_start in H by reflexivity.
  cbn [tokens parse_start] in H. rewrite Hnil in H.
  cbn [starts_with_assignment] in H.
  unfold tb_count in H. rewrite Hnil in H.
  change (parse_fuel (length (@nil Token))) with 6%nat in H.
  rewrite parse_expression_S, parse_term_S, parse_power_S, parse_primary_S in H.
  unfold peek in H. cbn [tokens curr_tok parse_start] in H. rewrite Hnil in H.
  discriminate H.
Qed.

Lemma parse_unfold (parser : Parser) :
  parse parser =
  parse_statement (parse_fuel (tb_count (tokens parser))) (parse_start parser).
Proof. reflexivity. Qed.

Lemma parse_start_room (parser : Parser) :
  (tb_count (tokens parser) <= tb_size (tokens parser))%nat ->
  (tb_count (tokens parser) <= p_size (parse_start parser))%nat.
Proof.
  intros H. simpl.
  destruct (p_size parser <? tb_count (tokens parser) + 1)%nat eqn:E; [exact H|].
  apply Nat.ltb_ge in E. lia.
Qed.

(** C9 (as the source has it). When [parse] accepts a token sequence and
    consumes all of it, it accepts the sequence followed by any tokens that
    do not start with an operator (nor with the ['='] that would make a lone
    variable an assignment): the tree is the same and the trailing tokens
    are left unread.  The line [2 3] parses as [2]. *)
Theorem trailing_tokens_are_ignored (parser : Parser) (tb tb' : TokenBuffer)
    (rest : list Token) (ast : ASTNode) (parser' : Parser) :
  token_buff tb' = token_buff tb ++ rest ->
  (tb_count tb <= tb_size tb)%nat ->
  (tb_count tb' <= tb_size tb')%nat ->
  stops_statement (token_buff tb) rest = true ->
  parse (set_tokens parser tb) = Ok (ast, parser') ->
  curr_tok parser' = tb_count tb ->
  (exists parser'',
      parse (set_tokens parser tb') = Ok (ast, parser'')
      /\ curr_tok parser'' = tb_count tb)
  /\ parse_line "2 3" = Ok (leaf "2 3" TOK_NUM 1).
Proof.
  intros Htb Hwf Hwf' Hstop H Hall.
  split; [|vm_compute; reflexivity].
  pose proof (stops_statement_head _ _ Hstop) as Hhead.
  rewrite parse_unfold in H. rewrite parse_unfold.
  set (p0 := parse_start (set_tokens parser tb)) in *.
  set (q0 := parse_start (set_tokens parser tb')) in *.
  assert (Hne : token_buff tb <> []).
  { intros Hnil. apply (parse_empty (set_tokens parser tb) Hnil ast parser').
    rewrite parse_unfold. exact H. }
  assert (HQ0 : token_buff (tokens q0) = token_buff (tokens p0) ++ rest)
    by exact Htb.
  assert (Hpre : sim_pre rest q0 p0).
  { pose proof (parse_start_room (set_tokens parser tb) Hwf) as Hp.
    pose proof (parse_start_room (set_tokens parser tb') Hwf') as Hq.
    unfold sim_pre, room. simpl in *. repeat split; try lia. exact Htb. }
  assert (Hfuel : (parse_fuel (tb_count tb) <= parse_fuel (tb_count tb'))%nat).
  { unfold parse_fuel, tb_count. rewrite Htb, length_app. lia. }
  exists (lift q0 parser'). split; [|exact Hall].
  change (tb_count (tokens (set_tokens parser tb))) with (tb_count tb) in H.
  change (tb_count (tokens (set_tokens parser tb'))) with (tb_count tb').
  unfold parse_statement in *.
  rewrite (is_assignment_statement_start q0) by reflexivity.
  rewrite (is_assignment_statement_start p0) in H by reflexivity.
  change (token_buff (tokens q0)) with (token_buff tb').
  change (token_buff (tokens p0)) with (token_buff tb) in H.
  rewrite Htb, (starts_with_assignment_app _ _ Hne Hstop).
  destruct (parse_sim rest q0 (parse_fuel (tb_count tb)) Hhead)
    as (_ & _ & _ & _ & _ & Se).
  assert (Hlift : lift q0 p0 = q0) by reflexivity.
  assert (Hnext : peek_next p0 = token_buff (tokens p0) !! 1%nat) by reflexivity.
  assert (Hnextq : peek_next q0 = token_buff (tokens q0) !! 1%nat) by reflexivity.
  assert (Htok0 : curr_tok p0 = 0%nat) by reflexivity.
  clearbody p0 q0.
  destruct (starts_with_assignment (token_buff tb)) eqn:Eas.
  - destruct (peek p0) as [v|] eqn:Epk; [|discriminate].
    destruct (peek_next p0) as [op|] eqn:Epn; [|discriminate].
    assert (Epkq : peek q0 = Some v).
    { rewrite <- Hlift. apply (peek_lift_Some rest q0 p0 v HQ0 Epk). }
    assert (Epnq : peek_next q0 = Some op).
    { symmetry in Hnext. rewrite Hnextq, HQ0.
      rewrite lookup_app_l; [exact Hnext | apply (lookup_lt_Some _ _ _ Hnext)]. }
    rewrite Epkq, Epnq.
    apply bind_Ok in H as ([var p1] & Hvar & H).
    apply returned_Ok, create_leaf_node_Some in Hvar as (-> & -> & Hlt).
    apply bind_Ok in H as ([rhs p2] & Hrhs & H).
    apply returned_Ok, create_binary_node_Some in H as (-> & -> & Hlt2).
    pose proof (advances_consume _ _ Epk) as Hc.
    rewrite <- Hlift at 1.
    rewrite (consume_lift _ _ _ _ HQ0 Epk).
    rewrite create_leaf_node_lift by sim_arith.
    cbn [returned bind].
    assert (Epk1 : peek (set_curr_node (consume p0) (curr_node (consume p0) + 1))
                   = Some op).
    { unfold peek. simpl.
      destruct Hc as (Ht & _ & _ & _ & Hct & _). rewrite Ht, Hct, Htok0.
      symmetry. exact Hnext. }
    pose proof (advances_consume _ _ Epk1) as Hc1.
    rewrite (consume_lift rest q0 _ op) by (solve [exact Epk1 | sim_arith]).
    destruct (parse_frame (parse_fuel (tb_count tb))) as (_ & _ & _ & _ & _ & Fe).
    pose proof (Fe _ _ _ Hrhs) as (Hadv & _).
    rewrite (Se _ _ _ _ Hfuel Hrhs) by sim_arith.
    cbn [bind].
    rewrite create_binary_node_lift by sim_arith. reflexivity.
  - rewrite <- Hlift.
    apply (Se _ _ _ _ Hfuel H Hpre).
Qed.

Lemma trailing_tokens_are_ignored_witness :
  (exists parser'',
      parse (set_tokens fresh_parser
               {| token_buff :=
                    [{| lexeme := "2 3"; type := TOK_NUM; len := 1; negative := false |};
                     {| lexeme := "3"; type := TOK_NUM; len := 1; negative := false |}];
                  tb_size := 128 |})
      = Ok (leaf "2 3" TOK_NUM 1, parser'')
      /\ curr_tok parser'' = 1%nat)
  /\ parse_line "2 3" = Ok (leaf "2 3" TOK_NUM 1).
Proof.
  eapply (trailing_tokens_are_ignored fresh_parser
            {| token_buff :=
                 [{| lexeme := "2 3"; type := TOK_NUM; len := 1; negative := false |}];
               tb_size := 128 |}
            _
            [{| lexeme := "3"; type := TOK_NUM; len := 1; negative := false |}]).
  - reflexivity.
  - unfold tb_count. simpl. lia.
  - unfold tb_count. simpl. lia.
  - reflexivity.
  - vm_compute. reflexivity.
  - reflexivity.
Defined.

(** The token sequence of [2 +] starts with the complete statement [2], and
    [parse] rejects it: the trailing operator is not ignored. *)
Lemma trailing_operator_is_an_error :
  tokens_of "2 +" =
    Ok [{| lexeme := "2 +"; type := TOK_NUM; len := 1; negative := false |};
        {| lexeme := "+"; type := TOK_ADD; len := 1; negative := false |}]
  /\ (exists p',
        parse (parser_on
                 {| token_buff :=
                      [{| lexeme := "2 +"; type := TOK_NUM; len := 1; negative := false |}];
                    tb_size := 128 |})
        = Ok (leaf "2 +" TOK_NUM 1, p')
        /\ curr_tok p' = 1%nat)
  /\ parse_line "2 +" = Err UnexpectedEOF.
Proof.
  split; [vm_compute; reflexivity|].
  split; [eexists; split; vm_compute; reflexivity|].
  vm_compute. reflexivity.
Qed.

(** ** The symbol table: lookup after insertion and resize *)

Lemma all_syms_app (l1 l2 : list chain) :
  all_syms (l1 ++ l2) = all_syms l1 ++ all_syms l2.
Proof.
  induction l1 as [|c l1 IH]; simpl; [reflexivity|].
  rewrite IH, app_assoc. reflexivity.
Qed.

Lemma all_syms_replicate (n : nat) : all_syms (replicate n Null) = [].
Proof. induction n as [|n IH]; simpl; [reflexivity | exact IH]. Qed.

Lemma all_syms_insert_node (bs : list chain) (i : nat) (c : chain) (s : Symbol) :
  bs !! i = Some c -> all_syms (<[i := Node s c]> bs) ≡ₚ s :: all_syms bs.
Proof.
  revert i. induction bs as [|c0 bs IH]; intros i Hi; [destruct i; discriminate|].
  destruct i as [|i]; simpl in *.
  - injection Hi as ->. reflexivity.
  - rewrite (IH _ Hi). symmetry. apply Permutation_middle.
Qed.

Lemma elem_of_all_syms (bs : list chain) (s : Symbol) :
  s ∈ all_syms bs <-> exists i c, bs !! i = Some c /\ s ∈ chain_list c.
Proof.
  induction bs as [|c0 bs IH]; simpl.
  - split; [intros H; inversion H | intros (i & c & H & _); destruct i; discriminate].
  - rewrite elem_of_app, IH. split.
    + intros [H | (i & c & Hi & Hs)].
      * exists 0%nat, c0. auto.
      * exists (S i), c. auto.
    + intros (i & c & Hi & Hs). destruct i as [|i]; simpl in Hi.
      * injection Hi as ->. left. exact Hs.
      * right. eauto.
Qed.

Lemma assoc_Some (nm : string) (l : list Symbol) (v : mpfr_t) :
  assoc nm l = Some v -> exists s, s ∈ l /\ name s = nm /\ num s = v.
Proof.
  induction l as [|s l IH]; simpl; [discriminate|].
  destruct (String.eqb (name s) nm) eqn:E.
  - intros [= <-]. apply String.eqb_eq in E. exists s. split; [left|auto].
  - intros H. destruct (IH H) as (s' & Hin & Hn & Hv).
    exists s'. split; [right; exact Hin | auto].
Qed.

Lemma assoc_None (nm : string) (l : list Symbol) :
  assoc nm l = None <-> nm ∉ name <$> l.
Proof.
  induction l as [|s l IH]; simpl.
  - split; [intros _ H; inversion H | reflexivity].
  - rewrite not_elem_of_cons. destruct (String.eqb (name s) nm) eqn:E.
    + apply String.eqb_eq in E. split; [discriminate | intros (Hne & _); congruence].
    + apply String.eqb_neq in E. rewrite IH. split; [auto | intros (_ & H); exact H].
Qed.

Lemma assoc_NoDup (l : list Symbol) (s : Symbol) :
  NoDup (name <$> l) -> s ∈ l -> assoc (name s) l = Some (num s).
Proof.
  induction l as [|s0 l IH]; simpl; intros Hnd Hin; [inversion Hin|].
  apply NoDup_cons in Hnd as (Hnotin & Hnd).
  apply elem_of_cons in Hin as [-> | Hin].
  - rewrite String.eqb_refl. reflexivity.
  - destruct (String.eqb (name s0) (name s)) eqn:E; [|apply IH; assumption].
    apply String.eqb_eq in E. exfalso. apply Hnotin. rewrite E.
    apply list_elem_of_fmap_2. exact Hin.
Qed.

Lemma symbol_matches_name (s : Symbol) (nm : string) :
  len_ok s -> symbol_matches s nm (name_len nm) = String.eqb (name s) nm.
Proof.
  unfold symbol_matches, len_ok. intros Hlen.
  destruct (String.eqb (name s) nm) eqn:E; [|apply andb_false_r].
  apply String.eqb_eq in E. rewrite Hlen, E, Z.eqb_refl. reflexivity.
Qed.

Lemma chain_find_assoc (c : chain) (nm : string) :
  live c = true -> Forall len_ok (chain_list c) ->
  chain_find c nm (name_len nm) = Ok (assoc nm (chain_list c)).
Proof.
  induction c as [|s next IH|]; simpl; intros Hlive Hlen;
    [reflexivity | | discriminate].
  apply Forall_cons in Hlen as (Hs & Hlen).
  rewrite (symbol_matches_name _ _ Hs).
  destruct (String.eqb (name s) nm); [reflexivity | apply IH; assumption].
Qed.

Lemma chain_update_fresh (c : chain) (nm : string) (v : mpfr_t) :
  live c = true -> Forall len_ok (chain_list c) ->
  assoc nm (chain_list c) = None ->
  chain_update c nm v (name_len nm) = Ok None.
Proof.
  induction c as [|s next IH|]; simpl; intros Hlive Hlen Hfresh;
    [reflexivity | | discriminate].
  apply Forall_cons in Hlen as (Hs & Hlen).
  rewrite (symbol_matches_name _ _ Hs).
  destruct (String.eqb (name s) nm); [discriminate|].
  rewrite (IH Hlive Hlen Hfresh). reflexivity.
Qed.

Lemma bucket_index_lt (cap h : Z) : 0 < cap -> (Z.to_nat (h mod cap) < Z.to_nat cap)%nat.
Proof. intros Hcap. pose proof (Z.mod_pos_bound h cap Hcap). lia. Qed.

Lemma chain_len_ok (bs : list chain) (i : nat) (c : chain) :
  Forall len_ok (all_syms bs) -> bs !! i = Some c -> Forall len_ok (chain_list c).
Proof.
  intros Hall Hi. apply Forall_forall. intros s Hs.
  rewrite Forall_forall in Hall. apply Hall, elem_of_all_syms. eauto.
Qed.

Lemma wf_bucket (t : SymbolTable) (nm : string) :
  wf t ->
  exists c,
    buckets t !! Z.to_nat (hash_string nm (name_len nm) mod capacity t) = Some c
    /\ live c = true /\ Forall len_ok (chain_list c)
    /\ assoc nm (chain_list c) = assoc nm (all_syms (buckets t)).
Proof.
  intros (Hcap & Hlen & Hlive & Hplaced & Hlok & Hnd).
  set (i := Z.to_nat (hash_string nm (name_len nm) mod capacity t)).
  destruct (lookup_lt_is_Some_2 (buckets t) i) as [c Hc].
  { rewrite Hlen. apply bucket_index_lt, Hcap. }
  exists c. split; [exact Hc|].
  split; [apply (Forall_lookup_1 _ _ _ _ Hlive Hc)|].
  split; [apply (chain_len_ok _ _ _ Hlok Hc)|].
  destruct (assoc nm (chain_list c)) as [v|] eqn:E.
  - apply assoc_Some in E as (s & Hin & <- & <-).
    symmetry. apply assoc_NoDup; [exact Hnd|].
    apply elem_of_all_syms. eauto.
  - symmetry. apply assoc_None. intros Hin.
    apply list_elem_of_fmap in Hin as (s & -> & Hs).
    pose proof Hs as Hs'. apply elem_of_all_syms in Hs' as (j & c' & Hj & Hsc).
    rewrite Forall_forall in Hlok. pose proof (Hlok _ Hs) as Hls.
    pose proof (Hplaced _ _ _ Hj Hsc) as Hb. unfold bucket_of in Hb.
    rewrite Hls in Hb. fold i in Hb. subst j.
    rewrite Hc in Hj. injection Hj as <-.
    apply assoc_None in E. apply E. apply list_elem_of_fmap_2. exact Hsc.
Qed.

Lemma symbol_table_get_assoc (t : SymbolTable) (nm : string) :
  wf t ->
  symbol_table_get t nm (name_len nm) = Ok (assoc nm (all_syms (buckets t))).
Proof.
  intros Hwf. pose proof Hwf as (Hcap & _).
  destruct (wf_bucket t nm Hwf) as (c & Hc & Hlive & Hlok & Has).
  unfold symbol_table_get.
  destruct (capacity t =? 0) eqn:E; [apply Z.eqb_eq in E; lia|].
  rewrite Hc, <- Has. apply chain_find_assoc; assumption.
Qed.

Lemma placed_insert_node (cap : Z) (bs : list chain) (i : nat) (c : chain)
    (s : Symbol) :
  placed cap bs -> bs !! i = Some c -> bucket_of cap s = i ->
  placed cap (<[i := Node s c]> bs).
Proof.
  intros Hpl Hi Hs j c' s' Hj Hin.
  destruct (decide (i = j)) as [<- | Hne].
  - rewrite list_lookup_insert_eq in Hj by (apply (lookup_lt_Some _ _ _ Hi)).
    injection Hj as <-. simpl in Hin.
    apply elem_of_cons in Hin as [-> | Hin]; [exact Hs | eapply Hpl; eauto].
  - rewrite list_lookup_insert_ne in Hj by exact Hne. eapply Hpl; eauto.
Qed.

(** Pushing a symbol with a new name at the head of its bucket. *)
Lemma push_wf (cap : Z) (bs : list chain) (cnt : Z) (c : chain) (s : Symbol) :
  wf {| buckets := bs; capacity := cap; count := cnt |} ->
  bs !! bucket_of cap s = Some c -> len_ok s ->
  name s ∉ name <$> all_syms bs ->
  forall cnt',
    wf {| buckets := <[bucket_of cap s := Node s c]> bs; capacity := cap;
          count := cnt' |}.
Proof.
  intros (Hcap & Hlen & Hlive & Hplaced & Hlok & Hnd) Hc Hs Hfresh cnt'.
  unfold wf in *. simpl in *.
  split; [exact Hcap|]. split; [rewrite length_insert; exact Hlen|].
  split.
  { apply Forall_insert; [exact Hlive|]. simpl.
    apply (Forall_lookup_1 _ _ _ _ Hlive Hc). }
  split; [apply placed_insert_node; auto|].
  split.
  { rewrite (all_syms_insert_node _ _ _ s Hc). apply Forall_cons. auto. }
  rewrite (all_syms_insert_node _ _ _ s Hc). rewrite fmap_cons.
  apply NoDup_cons. auto.
Qed.

Lemma rehash_chain_spec (c : chain) (cap : Z) (nb : list chain) (cnt : Z) :
  live c = true -> Forall len_ok (chain_list c) ->
  wf {| buckets := nb; capacity := cap; count := cnt |} ->
  NoDup (name <$> (chain_list c ++ all_syms nb)) ->
  exists nb',
    rehash_chain c cap nb = Ok nb'
    /\ wf {| buckets := nb'; capacity := cap; count := cnt |}
    /\ all_syms nb' ≡ₚ chain_list c ++ all_syms nb.
Proof.
  revert nb.
  induction c as [|s next IH|]; cbn [chain_list live rehash_chain app];
    intros nb Hlive Hlok Hwf Hnd.
  - exists nb. auto.
  - apply Forall_cons in Hlok as (Hs & Hlok).
    rewrite fmap_cons in Hnd. apply NoDup_cons in Hnd as (Hfresh & Hnd).
    pose proof Hwf as (Hcap & Hlen & _). simpl in Hcap, Hlen.
    destruct (lookup_lt_is_Some_2 nb (bucket_of cap s)) as [head Hhead].
    { rewrite Hlen. apply bucket_index_lt, Hcap. }
    unfold bucket_of in Hhead. rewrite Hhead. fold (bucket_of cap s) in *.
    assert (Hfresh' : name s ∉ name <$> all_syms nb).
    { intros Hin. apply Hfresh. rewrite fmap_app, elem_of_app. right. exact Hin. }
    pose proof (push_wf _ _ _ _ _ Hwf Hhead Hs Hfresh' cnt) as Hwf'.
    destruct (IH _ Hlive Hlok Hwf') as (nb' & Hre & Hwf'' & Hperm).
    { rewrite (all_syms_insert_node _ _ _ s Hhead).
      rewrite fmap_app, fmap_cons. rewrite <- Permutation_middle.
      apply NoDup_cons. rewrite <- fmap_app. auto. }
    exists nb'. split; [exact Hre|]. split; [exact Hwf''|].
    rewrite Hperm, (all_syms_insert_node _ _ _ s Hhead).
    symmetry. apply Permutation_middle.
  - discriminate.
Qed.

Lemma rehash_buckets_spec (old : list chain) (cap : Z) (nb : list chain) (cnt : Z) :
  Forall (fun c => live c = true) old -> Forall len_ok (all_syms old) ->
  wf {| buckets := nb; capacity := cap; count := cnt |} ->
  NoDup (name <$> (all_syms old ++ all_syms nb)) ->
  exists nb',
    rehash_buckets old cap nb = Ok nb'
    /\ wf {| buckets := nb'; capacity := cap; count := cnt |}
    /\ all_syms nb' ≡ₚ all_syms old ++ all_syms nb.
Proof.
  revert nb.
  induction old as [|c old IH]; cbn [all_syms rehash_buckets app];
    intros nb Hlive Hlok Hwf Hnd.
  - exists nb. auto.
  - apply Forall_cons in Hlive as (Hc & Hlive).
    apply Forall_app in Hlok as (Hlc & Hlok).
    assert (Hnd1 : NoDup (name <$> (chain_list c ++ all_syms nb))).
    { rewrite !fmap_app in *. rewrite <- app_assoc in Hnd.
      apply NoDup_app in Hnd as (H1 & H2 & H3).
      apply NoDup_app in H3 as (_ & _ & H3).
      apply NoDup_app. split; [exact H1|]. split; [|exact H3].
      intros x Hx Hin. apply (H2 x Hx). apply elem_of_app. right. exact Hin. }
    destruct (rehash_chain_spec c cap nb cnt Hc Hlc Hwf Hnd1)
      as (nb1 & Hre1 & Hwf1 & Hperm1).
    rewrite Hre1. simpl.
    destruct (IH nb1 Hlive Hlok Hwf1) as (nb' & Hre & Hwf' & Hperm).
    { rewrite fmap_app, Hperm1, <- fmap_app.
      rewrite (Permutation_app_swap_app (all_syms old)).
      rewrite <- app_assoc in Hnd. exact Hnd. }
    exists nb'. split; [exact Hre|]. split; [exact Hwf'|].
    rewrite Hperm, Hperm1. rewrite (Permutation_app_swap_app (all_syms old)).
    rewrite app_assoc. reflexivity.
Qed.

Lemma wf_replicate (cap cnt : Z) :
  0 < cap ->
  wf {| buckets := replicate (Z.to_nat cap) Null; capacity := cap; count := cnt |}.
Proof.
  intros Hcap. unfold wf. simpl. rewrite all_syms_replicate.
  split; [exact Hcap|]. split; [apply length_replicate|].
  split; [apply Forall_replicate; reflexivity|].
  split.
  { intros i c s Hi Hs. apply lookup_replicate in Hi as (-> & _). inversion Hs. }
  split; [constructor | constructor].
Qed.

Lemma symbol_table_resize_spec (t : SymbolTable) :
  wf t -> 2 * capacity t < 2 ^ 16 ->
  exists t',
    symbol_table_resize t (Z.shiftl (capacity t) 1) = Ok t'
    /\ wf t' /\ all_syms (buckets t') ≡ₚ all_syms (buckets t)
    /\ count t' = count t /\ capacity t' = 2 * capacity t.
Proof.
  intros Hwf Hsmall. pose proof Hwf as (Hcap & Hlen & Hlive & Hplaced & Hlok & Hnd).
  unfold symbol_table_resize.
  rewrite Z.shiftl_mul_pow2 by lia. change (2 ^ 1) with 2.
  replace (capacity t * 2) with (2 * capacity t) by lia.
  destruct (2 * capacity t =? 0) eqn:E0; [apply Z.eqb_eq in E0; lia|].
  destruct (Z.of_nat (length (buckets t)) <? capacity t) eqn:E1;
    [apply Z.ltb_lt in E1; lia|].
  rewrite take_ge by lia.
  assert (Hcap2 : 0 < 2 * capacity t) by lia.
  destruct (rehash_buckets_spec (buckets t) (2 * capacity t)
              (replicate (Z.to_nat (2 * capacity t)) Null) (count t)
              Hlive Hlok (wf_replicate (2 * capacity t) (count t) Hcap2))
    as (nb & Hre & Hwf' & Hperm).
  { rewrite all_syms_replicate, app_nil_r. exact Hnd. }
  rewrite Hre. simpl. eexists. split; [reflexivity|].
  rewrite all_syms_replicate, app_nil_r in Hperm.
  rewrite Z.mod_small by lia. simpl. auto.
Qed.

Lemma symbol_table_insert_fresh (t : SymbolTable) (nm : string) (v : mpfr_t) :
  wf t -> 2 * capacity t < 2 ^ 16 ->
  nm ∉ name <$> all_syms (buckets t) ->
  exists t',
    symbol_table_insert t nm v (name_len nm) = Ok t'
    /\ wf t'
    /\ all_syms (buckets t') ≡ₚ symbol_of (nm, v) :: all_syms (buckets t)
    /\ count t' = (count t + 1) mod 2 ^ 16
    /\ capacity t' = if over_threshold t then 2 * capacity t else capacity t.
Proof.
  intros Hwf Hsmall Hfresh. unfold symbol_table_insert.
  assert (Hstep : exists t1,
             (if over_threshold t
              then symbol_table_resize t (Z.shiftl (capacity t) 1)
              else Ok t) = Ok t1
             /\ wf t1 /\ all_syms (buckets t1) ≡ₚ all_syms (buckets t)
             /\ count t1 = count t
             /\ capacity t1 = if over_threshold t then 2 * capacity t
                              else capacity t).
  { destruct (over_threshold t).
    - apply symbol_table_resize_spec; assumption.
    - exists t. auto. }
  destruct Hstep as (t1 & -> & Hwf1 & Hperm1 & Hcnt1 & Hcap1). simpl.
  assert (Hfresh1 : nm ∉ name <$> all_syms (buckets t1)).
  { rewrite Hperm1. exact Hfresh. }
  pose proof Hwf1 as (Hcap & _).
  destruct (capacity t1 =? 0) eqn:E; [apply Z.eqb_eq in E; lia|].
  destruct (wf_bucket t1 nm Hwf1) as (c & Hc & Hlive & Hlok & Has).
  rewrite Hc.
  assert (Hnone : assoc nm (chain_list c) = None).
  { rewrite Has. apply assoc_None. exact Hfresh1. }
  rewrite (chain_update_fresh c nm v Hlive Hlok Hnone). simpl.
  eexists. split; [reflexivity|]. simpl.
  set (s := {| num := mpfr_set v; name := nm; sym_len := name_len nm |}).
  assert (Hidx : Z.to_nat (hash_string nm (name_len nm) mod capacity t1)
                 = bucket_of (capacity t1) s) by reflexivity.
  rewrite Hidx in *.
  destruct t1 as [bs1 cap1 cnt1]. simpl in *.
  split; [apply push_wf with (cnt := cnt1); auto; reflexivity|].
  split.
  { rewrite (all_syms_insert_node _ _ _ s Hc), Hperm1. reflexivity. }
  split; [rewrite Hcnt1; reflexivity | exact Hcap1].
Qed.

Lemma over_threshold_phase (t : SymbolTable) (k : nat) :
  count t = Z.of_nat k -> capacity t = capacity_after k -> (k <= 76)%nat ->
  over_threshold t = (k =? 39)%nat.
Proof.
  unfold over_threshold, capacity_after. intros -> -> Hk.
  destruct (Nat.leb_spec k 39); destruct (Nat.eqb_spec k 39);
    solve [apply Z.ltb_lt; lia | apply Z.ltb_ge; lia].
Qed.

Lemma insert_all_spec (kvs : list (string * mpfr_t)) :
  forall (t : SymbolTable) (k : nat),
    wf t -> NoDup (fst <$> kvs) ->
    (forall nm, nm ∈ fst <$> kvs -> nm ∉ name <$> all_syms (buckets t)) ->
    count t = Z.of_nat k -> capacity t = capacity_after k ->
    (k + length kvs <= 77)%nat ->
    exists t',
      insert_all t (resizes_after k) kvs = Ok (t', resizes_after (k + length kvs))
      /\ wf t'
      /\ all_syms (buckets t') ≡ₚ (symbol_of <$> kvs) ++ all_syms (buckets t)
      /\ count t' = Z.of_nat (k + length kvs)
      /\ capacity t' = capacity_after (k + length kvs).
Proof.
  induction kvs as [|[nm v] rest IH]; intros t k Hwf Hnd Hfresh Hcnt Hcap Hle.
  - exists t. simpl. rewrite Nat.add_0_r. auto.
  - cbn [length] in Hle. cbn [insert_all].
    rewrite fmap_cons in Hnd. apply NoDup_cons in Hnd as (Hnm & Hnd).
    assert (Hover : over_threshold t = (k =? 39)%nat)
      by (apply over_threshold_phase; [assumption | assumption | lia]).
    assert (Hsmall : 2 * capacity t < 2 ^ 16).
    { rewrite Hcap. unfold capacity_after. destruct (k <=? 39)%nat; lia. }
    destruct (symbol_table_insert_fresh t nm v Hwf Hsmall)
      as (t1 & Hins & Hwf1 & Hperm1 & Hcnt1 & Hcap1).
    { apply Hfresh. rewrite fmap_cons. left. }
    rewrite Hins. cbn [bind].
    assert (Hres : (if over_threshold t then S (resizes_after k)
                    else resizes_after k) = resizes_after (S k)).
    { rewrite Hover. unfold resizes_after.
      destruct (Nat.eqb_spec k 39) as [-> | Hne]; [reflexivity|].
      destruct (Nat.leb_spec k 39); destruct (Nat.leb_spec (S k) 39);
        solve [reflexivity | lia]. }
    rewrite Hres.
    destruct (IH t1 (S k) Hwf1 Hnd) as (t' & Hall & Hwf' & Hperm & Hcnt' & Hcap').
    + intros nm' Hin. rewrite Hperm1, fmap_cons. cbn [symbol_of name fst].
      apply not_elem_of_cons. split.
      * intros ->. apply Hnm, Hin.
      * apply Hfresh. rewrite fmap_cons. right. exact Hin.
    + rewrite Hcnt1, Hcnt. rewrite Z.mod_small by lia. lia.
    + rewrite Hcap1, Hover, Hcap. unfold capacity_after.
      destruct (Nat.eqb_spec k 39) as [-> | Hne]; [reflexivity|].
      destruct (Nat.leb_spec k 39); destruct (Nat.leb_spec (S k) 39);
        solve [reflexivity | lia].
    + lia.
    + exists t'. cbn [length].
      replace (k + S (length rest))%nat with (S k + length rest)%nat by lia.
      split; [exact Hall|]. split; [exact Hwf'|]. split; [|auto].
      rewrite Hperm, Hperm1, fmap_cons. symmetry. apply Permutation_middle.
Qed.

Lemma wf_symbol_table_create : wf symbol_table_create.
Proof. apply (wf_replicate 64 0). lia. Qed.

(** C5 (as the source has it). Inserting [N <= 77] distinct names into a
    fresh table succeeds; the table is resized exactly once, to capacity
    128, when [40 <= N], and not at all when [N <= 39]: the resize happens
    in the first call that finds [count > 0.6 * capacity] on entry, which is
    the 40th.  [count] is [N] and every name is found with its value. *)
Theorem one_resize_from_40_to_77_names (kvs : list (string * mpfr_t)) :
  NoDup (fst <$> kvs) ->
  (length kvs <= 77)%nat ->
  exists table,
    insert_all symbol_table_create 0 kvs = Ok (table, resizes_after (length kvs))
    /\ capacity table = capacity_after (length kvs)
    /\ count table = Z.of_nat (length kvs)
    /\ forall nm v, (nm, v) ∈ kvs ->
         symbol_table_get table nm (name_len nm) = Ok (Some v).
Proof.
  intros Hnd Hle.
  destruct (insert_all_spec kvs symbol_table_create 0 wf_symbol_table_create Hnd)
    as (t' & Hall & Hwf' & Hperm & Hcnt & Hcap); try reflexivity.
  { intros nm _ Hin. inversion Hin. }
  { simpl. exact Hle. }
  exists t'. simpl in *. split; [exact Hall|]. split; [exact Hcap|].
  split; [exact Hcnt|].
  intros nm v Hin. rewrite (symbol_table_get_assoc _ _ Hwf').
  change nm with (name (symbol_of (nm, v))).
  change (Some v) with (Some (num (symbol_of (nm, v)))).
  pose proof Hwf' as (_ & _ & _ & _ & _ & Hnd').
  f_equal. apply assoc_NoDup; [exact Hnd'|].
  rewrite Hperm. change (all_syms (buckets symbol_table_create)) with (@nil Symbol).
  rewrite app_nil_r. apply list_elem_of_fmap_2. exact Hin.
Qed.

Lemma one_resize_from_40_to_77_names_witness :
  exists table,
    insert_all symbol_table_create 0 (sample_pairs 40) = Ok (table, 1%nat)
    /\ capacity table = 128
    /\ count table = 40
    /\ forall nm v, (nm, v) ∈ sample_pairs 40 ->
         symbol_table_get table nm (name_len nm) = Ok (Some v).
Proof.
  apply (one_resize_from_40_to_77_names (sample_pairs 40)).
  - apply (bool_decide_unpack _). vm_compute. exact I.
  - vm_compute. lia.
Defined.

(** With 39 distinct names [count] is 39, above 0.6 * 64 = 38.4, and the
    table has not been resized; with 78 it has been resized twice. *)
Lemma no_resize_with_39_names :
  (exists table,
      insert_all symbol_table_create 0 (sample_pairs 39) = Ok (table, 0%nat)
      /\ count table = 39 /\ capacity table = 64
      /\ over_threshold table = true)
  /\ (exists table,
        insert_all symbol_table_create 0 (sample_pairs 78) = Ok (table, 2%nat)
        /\ count table = 78 /\ capacity table = 256).
Proof.
  split; eexists; (split; [vm_compute; reflexivity|]); vm_compute; auto.
Qed.

(** ** The entry points never run out of fuel *)

Lemma scan_number_length (p : string) (isFloat : bool) :
  (String.length (scan_number p isFloat) <= String.length p)%nat.
Proof.
  revert isFloat. induction p as [|c p IH]; intros isFloat; simpl; [lia|].
  destruct (isdigit c); [specialize (IH isFloat); lia|].
  destruct (negb isFloat && _); [specialize (IH true); lia | simpl; lia].
Qed.

Lemma scan_ident_length (p : string) :
  (String.length (scan_ident p) <= String.length p)%nat.
Proof.
  induction p as [|c p IH]; simpl; [lia|].
  destruct (isascii c && lookupTable c); simpl; lia.
Qed.

Lemma skip_blanks_length (p : string) :
  (String.length (skip_blanks p) <= String.length p)%nat.
Proof.
  induction p as [|c p IH]; simpl; [lia|].
  destruct (byte_of c =? 32); simpl; lia.
Qed.

Lemma scan_digits_length (p : string) :
  (String.length (scan_digits p) <= String.length p)%nat.
Proof.
  induction p as [|c p IH]; simpl; [lia|].
  destruct (isdigit c); simpl; lia.
Qed.

(** Every iteration of the scanning loop moves the pointer forward. *)
Lemma tokenize_step_progress (c : ascii) (p' q : string) (tb tb' : TokenBuffer) :
  tokenize_step c p' tb = Ok (q, tb') ->
  (String.length q <= String.length p')%nat.
Proof.
  unfold tokenize_step.
  destruct (isspace c); [intros [= <- _]; lia|].
  destruct (isdigit c).
  { destruct (_ <? _); [discriminate|]. intros [= <- _]. apply scan_number_length. }
  destruct (isascii c && lookupTable c).
  { destruct (_ <? _); [discriminate|].
    destruct (_ && _); intros [= <- _]; apply scan_ident_length. }
  pose proof (scan_digits_length (skip_blanks p')) as H1.
  pose proof (skip_blanks_length p') as H2.
  destruct (byte_of c) as [|b|b]; try discriminate.
  repeat (destruct b as [b|b|]; try discriminate);
    try (intros [= <- _]; lia);
    destruct (unary_position tb); intros [= <- _]; lia.
Qed.

Lemma tokenize_step_defined (c : ascii) (p' : string) (tb : TokenBuffer) :
  tokenize_step c p' tb <> Undef /\ tokenize_step c p' tb <> Timeout.
Proof.
  unfold tokenize_step.
  destruct (isspace c); [split; discriminate|].
  destruct (isdigit c); [destruct (_ <? _); split; discriminate|].
  destruct (isascii c && lookupTable c).
  { destruct (_ <? _); [split; discriminate|].
    destruct (_ && _); split; discriminate. }
  destruct (byte_of c) as [|b|b]; try (split; discriminate).
  repeat (destruct b as [b|b|]; try (split; discriminate));
    destruct (unary_position tb); split; discriminate.
Qed.

Lemma tokenize_loop_defined (fuel : nat) (p : string) (tb : TokenBuffer) :
  snd (tokenize_loop fuel p tb) <> Undef.
Proof.
  revert p tb. induction fuel as [|fuel IH]; intros p tb.
  - destruct p; discriminate.
  - destruct p as [|c p']; [discriminate|]. cbn [tokenize_loop].
    pose proof (tokenize_step_defined c p' tb) as (Hu & _).
    destruct (tokenize_step c p' tb) as [[q tb']| | |];
      solve [discriminate | congruence | apply IH].
Qed.

Lemma tokenize_loop_total (fuel : nat) (p : string) (tb : TokenBuffer) :
  (String.length p <= fuel)%nat -> snd (tokenize_loop fuel p tb) <> Timeout.
Proof.
  revert p tb. induction fuel as [|fuel IH]; intros p tb Hlen.
  - destruct p; [discriminate | simpl in Hlen; lia].
  - destruct p as [|c p']; [discriminate|]. cbn [tokenize_loop].
    pose proof (tokenize_step_defined c p' tb) as (_ & Ht).
    destruct (tokenize_step c p' tb) as [[q tb']| | |] eqn:E;
      try solve [discriminate | congruence].
    apply IH.
    pose proof (tokenize_step_progress _ _ _ _ _ E). simpl in Hlen. lia.
Qed.

(** [tokenize] returns for every line: it succeeds or reports a lexical
    error. *)
Lemma tokenize_total (tokBuff : TokenBuffer) (buff : string) :
  snd (tokenize tokBuff buff) = Ok tt
  \/ (exists e, snd (tokenize tokBuff buff) = Err e).
Proof.
  destruct (snd (tokenize tokBuff buff)) as [[]|e| |] eqn:E; eauto;
    exfalso; revert E.
  - apply tokenize_loop_defined.
  - apply tokenize_loop_total. lia.
Qed.

Lemma create_leaf_node_cursor (p p' : Parser) (tok : Token) (o : option ASTNode) :
  create_leaf_node p tok = (o, p') ->
  tokens p' = tokens p /\ curr_tok p' = curr_tok p.
Proof.
  unfold create_leaf_node. destruct (p_size p <=? curr_node p)%nat;
    intros [= <- <-]; auto.
Qed.

Lemma create_binary_node_cursor (p p' : Parser) (op : Token)
    (l r o : option ASTNode) :
  create_binary_node p op l r = (o, p') ->
  tokens p' = tokens p /\ curr_tok p' = curr_tok p.
Proof.
  unfold create_binary_node. destruct (p_size p <=? curr_node p)%nat;
    intros [= <- <-]; auto.
Qed.

Lemma returned_not_timeout (r : option ASTNode * Parser) : returned r <> Timeout.
Proof. destruct r as [[n|] p]; discriminate. Qed.

Ltac fuel_arith := unfold remaining in *; parser_facts; lia.

Lemma parse_fuel_enough (fuel : nat) :
  (forall p, (4 * remaining p + 1 <= fuel)%nat -> parse_primary fuel p <> Timeout)
  /\ (forall p, (4 * remaining p + 2 <= fuel)%nat -> parse_power fuel p <> Timeout)
  /\ (forall p left, (4 * remaining p + 1 <= fuel)%nat ->
        parse_term_loop fuel p left <> Timeout)
  /\ (forall p, (4 * remaining p + 3 <= fuel)%nat -> parse_term fuel p <> Timeout)
  /\ (forall p left, (4 * remaining p + 1 <= fuel)%nat ->
        parse_expression_loop fuel p left <> Timeout)
  /\ (forall p, (4 * remaining p + 4 <= fuel)%nat ->
        parse_expression fuel p <> Timeout).
Proof.
  induction fuel as [|f (IHprim & IHpow & IHtl & IHt & IHel & IHe)].
  { repeat split; intros; lia. }
  destruct (parse_frame f) as (Fprim & Fpow & Ftl & Ft & Fel & Fe).
  unfold frame_main, frame_loop in *.
  refine (conj _ (conj _ (conj _ (conj _ (conj _ _))))).
  - intros p Hf. rewrite parse_primary_S.
    destruct (peek p) as [curr|] eqn:Epk; [|discriminate].
    pose proof (advances_consume _ _ Epk) as Hc.
    destruct (type curr); try discriminate; try apply returned_not_timeout.
    + destruct (create_leaf_node (consume p) curr) as [sqrt p1] eqn:Ecr.
      apply create_leaf_node_cursor in Ecr as (Ht1 & Hc1).
      destruct (expect p1 TOK_LPAR) eqn:Eex; [|discriminate].
      apply match_tok_peek in Eex as (t1 & Epk1 & _).
      pose proof (advances_consume _ _ Epk1) as Hc2.
      assert (Harg : parse_expression f (consume p1) <> Timeout)
        by (apply IHe; fuel_arith).
      destruct sqrt as [node|];
        destruct (parse_expression f (consume p1)) as [[a p2]| | |];
        cbn [bind]; try congruence; try discriminate.
      destruct (expect p2 TOK_RPAR); discriminate.
    + assert (Harg : parse_expression f (consume p) <> Timeout)
        by (apply IHe; fuel_arith).
      destruct (parse_expression f (consume p)) as [[a p1]| | |];
        cbn [bind]; try congruence; try discriminate.
      destruct (expect p1 TOK_RPAR); discriminate.
  - intros p Hf. rewrite parse_power_S.
    assert (Hprim : parse_primary f p <> Timeout) by (apply IHprim; lia).
    destruct (parse_primary f p) as [[lhs p1]| | |] eqn:E;
      cbn [bind]; try congruence; try discriminate.
    apply Fprim in E as (Hadv & _).
    destruct (match_tok p1 TOK_POWER) eqn:Em; [|discriminate].
    apply match_tok_peek in Em as (op & Epk & _). rewrite Epk.
    pose proof (advances_consume _ _ Epk) as Hc.
    assert (Hpow : parse_power f (consume p1) <> Timeout)
      by (apply IHpow; fuel_arith).
    destruct (parse_power f (consume p1)) as [[rhs p2]| | |];
      cbn [bind]; try congruence; try discriminate.
    apply returned_not_timeout.
  - intros p left Hf. rewrite parse_term_loop_S.
    destruct (match_tok p TOK_MULT || match_tok p TOK_DIVIDE
              || match_tok p TOK_MODULE); [|apply returned_not_timeout].
    destruct (peek p) as [op|] eqn:Epk; [|discriminate].
    pose proof (advances_consume _ _ Epk) as Hc.
    assert (Hpow : parse_power f (consume p) <> Timeout)
      by (apply IHpow; fuel_arith).
    destruct (parse_power f (consume p)) as [[rhs p1]| | |] eqn:E;
      cbn [bind]; try congruence; try discriminate.
    apply Fpow in E as (Hadv & _).
    destruct (create_binary_node p1 op left (Some rhs)) as [node p2] eqn:Ecr.
    apply create_binary_node_cursor in Ecr as (Ht2 & Hc2).
    apply IHtl. fuel_arith.
  - intros p Hf. rewrite parse_term_S.
    assert (Hpow : parse_power f p <> Timeout) by (apply IHpow; lia).
    destruct (parse_power f p) as [[lhs p1]| | |] eqn:E;
      cbn [bind]; try congruence; try discriminate.
    apply Fpow in E as (Hadv & _).
    apply IHtl. fuel_arith.
  - intros p left Hf. rewrite parse_expression_loop_S.
    destruct (match_tok p TOK_ADD || match_tok p TOK_SUB);
      [|apply returned_not_timeout].
    destruct (peek p) as [op|] eqn:Epk; [|discriminate].
    pose proof (advances_consume _ _ Epk) as Hc.
    assert (Hterm : parse_term f (consume p) <> Timeout)
      by (apply IHt; fuel_arith).
    destruct (parse_term f (consume p)) as [[rhs p1]| | |] eqn:E;
      cbn [bind]; try congruence; try discriminate.
    apply Ft in E as (Hadv & _).
    destruct (create_binary_node p1 op left (Some rhs)) as [node p2] eqn:Ecr.
    apply create_binary_node_cursor in Ecr as (Ht2 & Hc2).
    apply IHel. fuel_arith.
  - intros p Hf. rewrite parse_expression_S.
    assert (Hterm : parse_term f p <> Timeout) by (apply IHt; lia).
    destruct (parse_term f p) as [[lhs p1]| | |] eqn:E;
      cbn [bind]; try congruence; try discriminate.
    apply Ft in E as (Hadv & _).
    apply IHel. fuel_arith.
Qed.

(** [parse] returns for every token sequence: the fuel it supplies is
    enough. *)
Lemma parse_total (parser : Parser) : parse parser <> Timeout.
Proof.
  unfold parse, parse_statement.
  set (p0 := parse_start parser).
  set (n := tb_count (tokens parser)).
  assert (Hrem : remaining p0 = n) by (unfold remaining; simpl; lia).
  destruct (parse_fuel_enough (parse_fuel n)) as (_ & _ & _ & _ & _ & He).
  destruct (is_assignment_statement p0) eqn:Eas.
  - unfold is_assignment_statement in Eas.
    destruct (peek p0) as [v|] eqn:Epk; [|discriminate].
    destruct (peek_next p0) as [op|] eqn:Epn; [|discriminate].
    destruct (create_leaf_node (consume p0) v) as [[var|] p1] eqn:Ecr;
      cbn [returned bind]; [|discriminate].
    apply create_leaf_node_cursor in Ecr as (Ht1 & Hc1).
    pose proof (advances_consume _ _ Epk) as Hc.
    assert (Hrhs : parse_expression (parse_fuel n) (consume p1) <> Timeout).
    { apply He. unfold parse_fuel, consume.
      destruct (peek p1); unfold remaining in *; parser_facts; lia. }
    destruct (parse_expression (parse_fuel n) (consume p1)) as [[rhs p2]| | |];
      cbn [bind]; try congruence; try discriminate.
    apply returned_not_timeout.
  - apply He. unfold parse_fuel. lia.
Qed.

(** ** Literals written with a period *)

Lemma string_app_cons (c : ascii) (a b : string) :
  String c a +:+ b = String c (a +:+ b).
Proof. reflexivity. Qed.

Lemma string_app_nil_l (b : string) : "" +:+ b = b.
Proof. reflexivity. Qed.

Lemma string_length_app (a b : string) :
  String.length (a +:+ b) = (String.length a + String.length b)%nat.
Proof.
  induction a as [|c a IH]; [reflexivity|].
  rewrite string_app_cons. simpl. rewrite IH. reflexivity.
Qed.

Lemma string_app_nil_r (a : string) : a +:+ "" = a.
Proof.
  induction a as [|c a IH]; [reflexivity|].
  rewrite string_app_cons, IH. reflexivity.
Qed.

Lemma take_str_all (s : string) : take_str (String.length s) s = s.
Proof. induction s as [|c s IH]; simpl; [reflexivity | rewrite IH; reflexivity]. Qed.

Lemma isdigit_not_space (c : ascii) : isdigit c = true -> isspace c = false.
Proof.
  unfold isdigit, isspace. intros H. apply andb_true_iff in H as (H1 & H2).
  apply Z.leb_le in H1. apply Z.leb_le in H2.
  apply orb_false_iff. split; [apply Z.eqb_neq; lia|].
  apply andb_false_iff. right. apply Z.leb_gt. lia.
Qed.

Lemma isdigit_not_sign (c : ascii) :
  isdigit c = true -> (byte_of c =? 45) = false /\ (byte_of c =? 43) = false.
Proof.
  unfold isdigit. intros H. apply andb_true_iff in H as (H1 & H2).
  apply Z.leb_le in H1. split; apply Z.eqb_neq; lia.
Qed.

Lemma scan_number_digits (s rest : string) (isFloat : bool) :
  all_digits s = true ->
  scan_number (s +:+ rest) isFloat = scan_number rest isFloat.
Proof.
  induction s as [|c s IH]; [reflexivity|].
  rewrite string_app_cons. simpl.
  intros H. apply andb_true_iff in H as (-> & Hs). apply IH, Hs.
Qed.

Lemma scan_number_literal (ip : string) (frac : option string) :
  all_digits ip = true -> all_digits (frac_digits frac) = true ->
  scan_number (literal ip frac) false = "".
Proof.
  intros Hip Hfp. unfold literal. rewrite (scan_number_digits _ _ _ Hip).
  destruct frac as [fp|]; [|reflexivity].
  rewrite ?string_app_cons, ?string_app_nil_l. simpl in *.
  rewrite <- (string_app_nil_r fp).
  rewrite (scan_number_digits fp "" true Hfp). reflexivity.
Qed.

Lemma parse_significand_digits (s rest : string) (acc ndig frac : Z) (point : bool) :
  all_digits s = true ->
  parse_significand (s +:+ rest) acc ndig frac point =
  parse_significand rest
    (acc * 10 ^ Z.of_nat (String.length s) + digits_value s)
    (ndig + Z.of_nat (String.length s))
    (if point then frac + Z.of_nat (String.length s) else frac) point.
Proof.
  revert acc ndig frac. induction s as [|c s IH]; intros acc ndig frac Hs.
  - simpl. f_equal; try lia. destruct point; lia.
  - cbn [all_digits] in Hs. apply andb_true_iff in Hs as (Hc & Hs).
    rewrite string_app_cons. cbn [parse_significand]. rewrite Hc, (IH _ _ _ Hs).
    cbn [String.length digits_value].
    rewrite Nat2Z.inj_succ, Z.pow_succ_r by lia.
    f_equal; try lia. destruct point; lia.
Qed.

Lemma parse_significand_literal (ip : string) (frac : option string) :
  all_digits ip = true -> ip <> "" -> all_digits (frac_digits frac) = true ->
  parse_significand (literal ip frac) 0 0 0 false =
  Some (digits_value ip * 10 ^ Z.of_nat (String.length (frac_digits frac))
        + digits_value (frac_digits frac),
        Z.of_nat (String.length (frac_digits frac))).
Proof.
  intros Hip Hne Hfp. unfold literal.
  rewrite (parse_significand_digits _ _ _ _ _ _ Hip).
  assert (Hlen : (0 < String.length ip)%nat)
    by (destruct ip; [congruence | simpl; lia]).
  destruct frac as [fp|]; simpl in Hfp |- *.
  - rewrite ?string_app_cons, ?string_app_nil_l. simpl.
    rewrite <- (string_app_nil_r fp) at 1.
    rewrite (parse_significand_digits _ _ _ _ _ _ Hfp). simpl.
    destruct (_ =? 0) eqn:E; [apply Z.eqb_eq in E; lia|].
    f_equal.
  - destruct (_ =? 0) eqn:E; [apply Z.eqb_eq in E; lia|].
    change (Z.of_nat 0) with 0. rewrite Z.pow_0_r.
    f_equal. f_equal. lia.
Qed.

Lemma mpfr_set_str_literal (ip : string) (frac : option string) :
  all_digits ip = true -> ip <> "" -> all_digits (frac_digits frac) = true ->
  mpfr_set_str (literal ip frac) =
  Some (mpfr_of_ratio
          (digits_value ip * 10 ^ Z.of_nat (String.length (frac_digits frac))
           + digits_value (frac_digits frac))
          (10 ^ Z.of_nat (String.length (frac_digits frac)))).
Proof.
  intros Hip Hne Hfp.
  pose proof (parse_significand_literal ip frac Hip Hne Hfp) as Hps.
  destruct ip as [|c ip']; [congruence|].
  cbn [all_digits] in Hip. apply andb_true_iff in Hip as (Hc & _).
  destruct (isdigit_not_sign c Hc) as (H45 & H43).
  change (literal (String c ip') frac)
    with (String c (ip' +:+ match frac with Some fp => "." +:+ fp | None => "" end)) in *.
  unfold mpfr_set_str. cbv beta iota. rewrite H45, H43.
  unfold set_str_unsigned, mpfr_of_ratio. rewrite Hps.
  destruct (_ =? 0); reflexivity.
Qed.

Lemma tokenize_literal (tb : TokenBuffer) (ip : string) (frac : option string) :
  all_digits ip = true -> ip <> "" -> all_digits (frac_digits frac) = true ->
  (String.length (literal ip frac) <= 255)%nat ->
  tokenize tb (literal ip frac) =
  (token_buffer_add {| token_buff := []; tb_size := tb_size tb |} TOK_NUM
     (literal ip frac) (Z.of_nat (String.length (literal ip frac))),
   Ok tt).
Proof.
  intros Hip Hne Hfp Hlen. unfold tokenize.
  pose proof (scan_number_literal ip frac Hip Hfp) as Hscan.
  destruct ip as [|c ip']; [congruence|].
  cbn [all_digits] in Hip. apply andb_true_iff in Hip as (Hc & Hip').
  change (literal (String c ip') frac)
    with (String c (ip' +:+ match frac with Some fp => "." +:+ fp | None => "" end)) in *.
  set (p' := ip' +:+ match frac with Some fp => "." +:+ fp | None => "" end) in *.
  cbn [String.length tokenize_loop].
  assert (Hq : scan_number p' false = "").
  { cbn [scan_number] in Hscan. rewrite Hc in Hscan. exact Hscan. }
  unfold tokenize_step. rewrite (isdigit_not_space c Hc), Hc, Hq.
  unfold ptr_diff. cbn [String.length].
  destruct (TOKEN_LEXEME_LEN_LIMIT <? _) eqn:E.
  { apply Z.ltb_lt in E. unfold TOKEN_LEXEME_LEN_LIMIT in E.
    cbn [String.length] in Hlen. lia. }
  destruct (String.length p'); simpl; repeat f_equal; lia.
Qed.

Lemma parse_single_number (tok : Token) :
  type tok = TOK_NUM ->
  parse (set_tokens fresh_parser {| token_buff := [tok]; tb_size := 128 |}) =
  Ok (mkNode tok None None,
      {| tokens := {| token_buff := [tok]; tb_size := 128 |};
         symTable := symbol_table_create;
         curr_tok := 1; curr_node := 1; p_size := 128 |}).
Proof.
  intros Hty. unfold parse, parse_statement.
  set (p0 := parse_start _).
  assert (Hpk : peek p0 = Some tok) by reflexivity.
  assert (Has : is_assignment_statement p0 = false) by reflexivity.
  rewrite Has.
  change (parse_fuel _) with 10%nat.
  rewrite parse_expression_S, parse_term_S, parse_power_S, parse_primary_S.
  rewrite Hpk, Hty. reflexivity.
Qed.

(** A literal of at most 255 characters, digits with an optional period
    after the first digits, is one Number token, and its evaluation is the
    number nearest to the value it denotes. *)
Lemma period_literal_roundtrip (ip : string) (frac : option string) :
  all_digits ip = true -> ip <> "" -> all_digits (frac_digits frac) = true ->
  (String.length (literal ip frac) <= 255)%nat ->
  tokens_of (literal ip frac) =
    Ok [{| lexeme := literal ip frac; type := TOK_NUM;
           len := Z.of_nat (String.length (literal ip frac));
           negative := false |}]
  /\ eval_line (literal ip frac) =
       Ok (mpfr_of_ratio
             (digits_value ip * 10 ^ Z.of_nat (String.length (frac_digits frac))
              + digits_value (frac_digits frac))
             (10 ^ Z.of_nat (String.length (frac_digits frac)))).
Proof.
  intros Hip Hne Hfp Hlen.
  pose proof (tokenize_literal token_buffer_create ip frac Hip Hne Hfp Hlen) as Htk.
  set (s := literal ip frac) in *.
  assert (Hmod : Z.of_nat (String.length s) mod 256 = Z.of_nat (String.length s))
    by (apply Z.mod_small; lia).
  split.
  - unfold tokens_of. rewrite Htk. cbn [bind token_buffer_add token_buff app].
    rewrite Hmod. reflexivity.
  - unfold eval_line, run_line.
    change (tokens fresh_parser) with token_buffer_create. rewrite Htk.
    unfold token_buffer_add.
    cbn [token_buff tb_size app token_buffer_create tb_count length].
    rewrite Hmod.
    change (if (TOKEN_BUFFER_SIZE <=? 0)%nat
            then (TOKEN_BUFFER_SIZE + TOKEN_BUFFER_SIZE)%nat
            else TOKEN_BUFFER_SIZE) with 128%nat.
    rewrite parse_single_number by reflexivity.
    unfold evaluate_expression. cbn [symTable evaluate_node type snd].
    unfold eval_number, token_adjust_lexeme.
    cbn [type tok_index negative len lexeme].
    change (1 <? 0) with false. cbv iota.
    rewrite Z.add_0_r, Nat2Z.id, string_app_nil_l, take_str_all.
    unfold s. rewrite (mpfr_set_str_literal ip frac Hip Hne Hfp). reflexivity.
Qed.

(** C4. The line [3,5] is one Number token of length 3, and its evaluation is
    NaN: the comma that the tokenizer takes as a decimal point is rejected by
    the conversion.  The same number written with a period is 7/2, as
    [period_literal_roundtrip] shows for every literal with a period. *)
Theorem comma_literal_evaluates_to_nan :
  tokens_of "3,5" =
    Ok [{| lexeme := "3,5"; type := TOK_NUM; len := 3; negative := false |}]
  /\ eval_line "3,5" = Ok MNaN
  /\ eval_line "3.5" = Ok (MNum false 7 (-1)).
Proof. vm_compute. repeat split; reflexivity. Qed.

(** ** The symbol table as a map from names to values *)

Lemma assoc_perm (nm : string) (l l' : list Symbol) :
  NoDup (name <$> l) -> l ≡ₚ l' -> assoc nm l = assoc nm l'.
Proof.
  intros Hnd Hperm.
  destruct (assoc nm l) as [v|] eqn:E.
  - apply assoc_Some in E as (s & Hin & <- & <-).
    symmetry. apply assoc_NoDup; [rewrite <- Hperm; exact Hnd|].
    rewrite <- Hperm. exact Hin.
  - symmetry. apply assoc_None. rewrite <- Hperm. apply assoc_None. exact E.
Qed.

Lemma string_eqb_false (a b : string) : a <> b -> String.eqb a b = false.
Proof. intros H. apply String.eqb_neq. exact H. Qed.

(** The search loop on a chain that holds the name. *)
Lemma chain_update_present (c : chain) (nm : string) (v : mpfr_t) :
  live c = true -> Forall len_ok (chain_list c) ->
  nm ∈ name <$> chain_list c ->
  exists c',
    chain_update c nm v (name_len nm) = Ok (Some c')
    /\ live c' = true
    /\ name <$> chain_list c' = name <$> chain_list c
    /\ sym_len <$> chain_list c' = sym_len <$> chain_list c
    /\ forall nm', assoc nm' (chain_list c') =
                   if String.eqb nm' nm then Some v else assoc nm' (chain_list c).
Proof.
  induction c as [|s next IH|]; cbn [chain_list live chain_update];
    intros Hlive Hlen Hin; [inversion Hin | | discriminate].
  apply Forall_cons in Hlen as (Hs & Hlen).
  rewrite (symbol_matches_name _ _ Hs).
  destruct (String.eqb (name s) nm) eqn:E.
  - apply String.eqb_eq in E.
    eexists. split; [reflexivity|]. cbn [chain_list live fmap list_fmap name sym_len].
    repeat split; try assumption.
    intros nm'. cbn [assoc name num]. rewrite E.
    destruct (String.eqb nm nm') eqn:E'.
    + apply String.eqb_eq in E' as <-. rewrite String.eqb_refl. reflexivity.
    + rewrite String.eqb_sym, E'. reflexivity.
  - rewrite fmap_cons in Hin. apply elem_of_cons in Hin as [Heq | Hin].
    { apply String.eqb_neq in E. congruence. }
    destruct (IH Hlive Hlen Hin) as (c' & -> & Hl' & Hn' & Hs' & Has').
    cbn [bind option_map]. eexists. split; [reflexivity|].
    cbn [chain_list live]. rewrite !fmap_cons, Hn', Hs'.
    repeat split; try assumption.
    intros nm'. cbn [assoc]. rewrite Has'.
    destruct (String.eqb (name s) nm') eqn:E'; [|reflexivity].
    apply String.eqb_eq in E' as <-. rewrite E. reflexivity.
Qed.

Lemma all_syms_insert_keys {A : Type} (f : Symbol -> A) (bs : list chain) (i : nat)
    (c c' : chain) :
  bs !! i = Some c -> f <$> chain_list c' = f <$> chain_list c ->
  f <$> all_syms (<[i := c']> bs) = f <$> all_syms bs.
Proof.
  revert i. induction bs as [|c0 bs IH]; intros i Hi Hk; [destruct i; discriminate|].
  destruct i as [|i]; simpl in *.
  - injection Hi as ->. rewrite !fmap_app, Hk. reflexivity.
  - rewrite !fmap_app, (IH _ Hi Hk). reflexivity.
Qed.

Lemma fmap_keys_elem (c c' : chain) (s' : Symbol) :
  name <$> chain_list c' = name <$> chain_list c ->
  sym_len <$> chain_list c' = sym_len <$> chain_list c ->
  s' ∈ chain_list c' ->
  exists s, s ∈ chain_list c /\ name s = name s' /\ sym_len s = sym_len s'.
Proof.
  generalize (chain_list c') (chain_list c). clear c c'.
  intros l'. induction l' as [|a l' IH]; intros l Hn Hs Hin; [inversion Hin|].
  destruct l as [|b l]; [discriminate|].
  rewrite !fmap_cons in Hn. rewrite !fmap_cons in Hs.
  injection Hn as Hn0 Hn. injection Hs as Hs0 Hs.
  apply elem_of_cons in Hin as [-> | Hin].
  - exists b. split; [left | auto].
  - destruct (IH l Hn Hs Hin) as (s & Hsin & H1 & H2).
    exists s. split; [right; exact Hsin | auto].
Qed.

(** Replacing a bucket by a chain with the same names and lengths. *)
Lemma replace_wf (t : SymbolTable) (i : nat) (c c' : chain) (cnt' : Z) :
  wf t -> buckets t !! i = Some c -> live c' = true ->
  name <$> chain_list c' = name <$> chain_list c ->
  sym_len <$> chain_list c' = sym_len <$> chain_list c ->
  wf {| buckets := <[i := c']> (buckets t); capacity := capacity t; count := cnt' |}.
Proof.
  intros (Hcap & Hlen & Hlive & Hplaced & Hlok & Hnd) Hc Hl' Hn' Hs'.
  unfold wf. simpl.
  split; [exact Hcap|]. split; [rewrite length_insert; exact Hlen|].
  split; [apply Forall_insert; assumption|].
  split.
  { intros j cj s' Hj Hin.
    destruct (decide (i = j)) as [<- | Hne].
    - rewrite list_lookup_insert_eq in Hj by (apply (lookup_lt_Some _ _ _ Hc)).
      injection Hj as <-.
      destruct (fmap_keys_elem _ _ _ Hn' Hs' Hin) as (s & Hsin & H1 & H2).
      rewrite <- (Hplaced _ _ _ Hc Hsin). unfold bucket_of. rewrite H1, H2.
      reflexivity.
    - rewrite list_lookup_insert_ne in Hj by exact Hne. eapply Hplaced; eauto. }
  split.
  { apply Forall_forall. intros s' Hin.
    apply elem_of_all_syms in Hin as (j & cj & Hj & Hin).
    rewrite Forall_forall in Hlok.
    destruct (decide (i = j)) as [<- | Hne].
    - rewrite list_lookup_insert_eq in Hj by (apply (lookup_lt_Some _ _ _ Hc)).
      injection Hj as <-.
      destruct (fmap_keys_elem _ _ _ Hn' Hs' Hin) as (s & Hsin & H1 & H2).
      assert (Hs : len_ok s) by (apply Hlok, elem_of_all_syms; eauto).
      unfold len_ok in *. rewrite <- H1, <- H2. exact Hs.
    - rewrite list_lookup_insert_ne in Hj by exact Hne.
      apply Hlok, elem_of_all_syms. eauto. }
  rewrite (all_syms_insert_keys name _ _ _ _ Hc Hn'). exact Hnd.
Qed.

(** What [symbol_table_insert] does to a well-formed table, in terms of the
    binding of every name. *)
Lemma symbol_table_insert_spec (t : SymbolTable) (nm : string) (v : mpfr_t) :
  wf t -> 2 * capacity t < 2 ^ 16 ->
  exists t',
    symbol_table_insert t nm v (name_len nm) = Ok t'
    /\ wf t'
    /\ (forall nm', assoc nm' (all_syms (buckets t')) =
                    if String.eqb nm' nm then Some v
                    else assoc nm' (all_syms (buckets t)))
    /\ count t' = (if bound t nm then count t else (count t + 1) mod 2 ^ 16)
    /\ length (all_syms (buckets t')) =
       (if bound t nm then length (all_syms (buckets t))
        else S (length (all_syms (buckets t))))
    /\ capacity t' = if over_threshold t then 2 * capacity t else capacity t.
Proof.
  intros Hwf Hsmall. unfold bound.
  destruct (assoc nm (all_syms (buckets t))) as [old|] eqn:Eold.
  2:{ apply assoc_None in Eold.
      destruct (symbol_table_insert_fresh t nm v Hwf Hsmall Eold)
        as (t' & Hins & Hwf' & Hperm & Hcnt & Hcap).
      exists t'. split; [exact Hins|]. split; [exact Hwf'|].
      split; [|split; [exact Hcnt | split; [|exact Hcap]]].
      - intros nm'. pose proof Hwf' as (_ & _ & _ & _ & _ & Hnd').
        rewrite (assoc_perm nm' _ _ Hnd' Hperm). cbn [assoc symbol_of name num fst snd].
        rewrite String.eqb_sym. reflexivity.
      - rewrite Hperm. reflexivity. }
  unfold symbol_table_insert.
  assert (Hstep : exists t1,
             (if over_threshold t
              then symbol_table_resize t (Z.shiftl (capacity t) 1)
              else Ok t) = Ok t1
             /\ wf t1 /\ all_syms (buckets t1) ≡ₚ all_syms (buckets t)
             /\ count t1 = count t
             /\ capacity t1 = if over_threshold t then 2 * capacity t
                              else capacity t).
  { destruct (over_threshold t).
    - apply symbol_table_resize_spec; assumption.
    - exists t. auto. }
  destruct Hstep as (t1 & -> & Hwf1 & Hperm1 & Hcnt1 & Hcap1). cbn [bind].
  pose proof Hwf1 as (Hcap & _ & _ & _ & _ & Hnd1).
  destruct (capacity t1 =? 0) eqn:E; [apply Z.eqb_eq in E; lia|].
  destruct (wf_bucket t1 nm Hwf1) as (c & Hc & Hlive & Hlok & Has).
  rewrite Hc.
  assert (Hold1 : assoc nm (all_syms (buckets t1)) = Some old).
  { rewrite (assoc_perm nm _ _ Hnd1 Hperm1). exact Eold. }
  assert (Hin : nm ∈ name <$> chain_list c).
  { rewrite <- Has in Hold1. apply assoc_Some in Hold1 as (s & Hs & <- & _).
    apply list_elem_of_fmap_2. exact Hs. }
  destruct (chain_update_present c nm v Hlive Hlok Hin)
    as (c' & -> & Hl' & Hn' & Hs' & Has').
  cbn [bind]. eexists. split; [reflexivity|].
  set (i := Z.to_nat (hash_string nm (name_len nm) mod capacity t1)) in *.
  pose proof (replace_wf t1 i c c' (count t1) Hwf1 Hc Hl' Hn' Hs') as Hwf'.
  split; [exact Hwf'|]. cbn [buckets count capacity].
  split; [|split; [exact Hcnt1 | split; [|exact Hcap1]]].
  - intros nm'.
    destruct (wf_bucket _ nm' Hwf') as (d' & Hd' & _ & _ & Hasd').
    destruct (wf_bucket t1 nm' Hwf1) as (d & Hd & _ & _ & Hasd).
    cbn [buckets capacity] in Hd', Hasd'.
    rewrite <- Hasd', <- (assoc_perm nm' _ _ Hnd1 Hperm1), <- Hasd.
    set (j := Z.to_nat (hash_string nm' (name_len nm') mod capacity t1)) in *.
    destruct (decide (i = j)) as [Heq | Hne].
    + rewrite <- Heq in Hd', Hd.
      rewrite list_lookup_insert_eq in Hd' by (apply (lookup_lt_Some _ _ _ Hc)).
      injection Hd' as <-. rewrite Hc in Hd. injection Hd as <-. apply Has'.
    + rewrite list_lookup_insert_ne in Hd' by exact Hne.
      rewrite Hd in Hd'. injection Hd' as <-.
      destruct (String.eqb nm' nm) eqn:E'; [|reflexivity].
      apply String.eqb_eq in E'. exfalso. apply Hne. subst i j.
      rewrite E'. reflexivity.
  - rewrite <- (length_fmap name), (all_syms_insert_keys name _ _ _ _ Hc Hn'),
      length_fmap, Hperm1. reflexivity.
Qed.

Lemma bound_get (t : SymbolTable) (nm : string) :
  wf t ->
  bound t nm = match symbol_table_get t nm (name_len nm) with
               | Ok (Some _) => true
               | _ => false
               end.
Proof. intros Hwf. rewrite (symbol_table_get_assoc _ _ Hwf). reflexivity. Qed.

Lemma sample_table_spec (n : nat) :
  NoDup (fst <$> sample_pairs n) -> (n <= 77)%nat ->
  insert_all symbol_table_create 0 (sample_pairs n)
  = Ok (sample_table n, resizes_after n)
  /\ wf (sample_table n)
  /\ count (sample_table n) = Z.of_nat n
  /\ capacity (sample_table n) = capacity_after n.
Proof.
  intros Hnd Hle.
  assert (Hlen : length (sample_pairs n) = n).
  { unfold sample_pairs. rewrite length_fmap. apply length_seq. }
  destruct (insert_all_spec (sample_pairs n) symbol_table_create 0
              wf_symbol_table_create Hnd)
    as (t' & Hall & Hwf' & _ & Hcnt & Hcap); try reflexivity.
  { intros nm _ Hin. inversion Hin. }
  { rewrite Hlen. simpl. exact Hle. }
  rewrite Hlen in *. cbn [Nat.add] in *.
  change (resizes_after 0) with 0%nat in Hall.
  unfold sample_table. rewrite Hall. auto.
Qed.

Lemma values_fit_checked (t : SymbolTable) :
  values_fit_check t = true -> values_fit t.
Proof.
  unfold values_fit_check, values_fit. intros H.
  apply Forall_forall. intros s Hs.
  rewrite forallb_forall in H. apply H, list_elem_of_In, Hs.
Qed.

(** *** Values that fit the text buffers of the update path *)

Lemma insert_values_fit (t t' : SymbolTable) (nm : string) (v : mpfr_t) :
  wf t -> 2 * capacity t < 2 ^ 16 ->
  values_fit t -> sprintf_fits v = true ->
  symbol_table_insert t nm v (name_len nm) = Ok t' ->
  values_fit t'.
Proof.
  intros Hwf Hsmall Hfit Hv Hins.
  destruct (symbol_table_insert_spec t nm v Hwf Hsmall)
    as (t1 & Hins1 & Hwf1 & Has & _).
  rewrite Hins in Hins1. injection Hins1 as <-.
  unfold values_fit in *. rewrite Forall_forall in *.
  intros s Hs. pose proof Hwf1 as (_ & _ & _ & _ & _ & Hnd).
  pose proof (assoc_NoDup _ _ Hnd Hs) as Ha. rewrite Has in Ha.
  destruct (String.eqb (name s) nm).
  - injection Ha as <-. exact Hv.
  - apply assoc_Some in Ha as (s0 & Hin0 & _ & <-). apply Hfit, Hin0.
Qed.

Lemma values_fit_update_prints (t : SymbolTable) (nm : string) (v : mpfr_t) :
  wf t -> values_fit t -> sprintf_fits v = true -> update_prints t nm v.
Proof.
  intros Hwf Hfit Hv old Hget.
  rewrite (symbol_table_get_assoc _ _ Hwf) in Hget. injection Hget as Hget.
  apply assoc_Some in Hget as (s & Hin & _ & <-).
  unfold values_fit in Hfit. rewrite Forall_forall in Hfit. auto.
Qed.

Lemma values_fit_symbol_table_create : values_fit symbol_table_create.
Proof.
  unfold values_fit.
  change (all_syms (buckets symbol_table_create)) with (@nil Symbol).
  constructor.
Qed.

(** X1. [symbol_table_insert] followed by [symbol_table_get] of the same
    name returns the inserted value, whether the name was new or already
    bound, in every well-formed table whose capacity can still double;
    where the name is bound, the value it has and the new one are to fit
    the 100-byte buffers they are formatted into. *)
Theorem get_after_insert (t : SymbolTable) (nm : string) (v : mpfr_t) :
  wf t -> 2 * capacity t < 2 ^ 16 -> update_prints t nm v ->
  exists t',
    symbol_table_insert t nm v (name_len nm) = Ok t'
    /\ symbol_table_get t' nm (name_len nm) = Ok (Some v).
Proof.
  intros Hwf Hsmall _.
  destruct (symbol_table_insert_spec t nm v Hwf Hsmall)
    as (t' & Hins & Hwf' & Has & _).
  exists t'. split; [exact Hins|].
  rewrite (symbol_table_get_assoc _ _ Hwf'), Has, String.eqb_refl. reflexivity.
Qed.

Lemma get_after_insert_witness :
  exists t',
    symbol_table_get (sample_table 3) "ba" (name_len "ba") = Ok (Some (mpfr_of_Z 1))
    /\ symbol_table_insert (sample_table 3) "ba" (mpfr_of_Z 5) (name_len "ba") = Ok t'
    /\ symbol_table_get t' "ba" (name_len "ba") = Ok (Some (mpfr_of_Z 5)).
Proof.
  destruct (sample_table_spec 3) as (_ & Hwf & _ & _).
  { apply (bool_decide_unpack _). vm_compute. exact I. }
  { lia. }
  destruct (get_after_insert (sample_table 3) "ba" (mpfr_of_Z 5) Hwf) as (t' & H).
  { vm_compute. reflexivity. }
  { intros old Hold. vm_compute in Hold. injection Hold as <-.
    split; vm_compute; reflexivity. }
  exists t'. split; [vm_compute; reflexivity | exact H].
Defined.

(** X2. [symbol_table_insert] of one name leaves the result of
    [symbol_table_get] for every other name as it was, also when the insert
    resizes the table. *)
Theorem insert_keeps_other_names (t t' : SymbolTable) (nm nm' : string) (v : mpfr_t) :
  wf t -> 2 * capacity t < 2 ^ 16 -> nm' <> nm ->
  symbol_table_insert t nm v (name_len nm) = Ok t' ->
  symbol_table_get t' nm' (name_len nm') = symbol_table_get t nm' (name_len nm').
Proof.
  intros Hwf Hsmall Hne Hins.
  destruct (symbol_table_insert_spec t nm v Hwf Hsmall)
    as (t1 & Hins1 & Hwf' & Has & _).
  rewrite Hins in Hins1. injection Hins1 as <-.
  rewrite (symbol_table_get_assoc _ _ Hwf'), (symbol_table_get_assoc _ _ Hwf), Has.
  rewrite (string_eqb_false _ _ Hne). reflexivity.
Qed.

Lemma insert_keeps_other_names_witness :
  exists t',
    symbol_table_insert (sample_table 39) "x" (mpfr_of_Z 5) (name_len "x") = Ok t'
    /\ capacity (sample_table 39) = 64 /\ capacity t' = 128
    /\ symbol_table_get (sample_table 39) "ha" (name_len "ha")
       = Ok (Some (mpfr_of_Z 7))
    /\ symbol_table_get t' "ha" (name_len "ha") = Ok (Some (mpfr_of_Z 7)).
Proof.
  destruct (sample_table_spec 39) as (_ & Hwf & _ & _).
  { apply (bool_decide_unpack _). vm_compute. exact I. }
  { lia. }
  set (t' := match symbol_table_insert (sample_table 39) "x" (mpfr_of_Z 5)
                     (name_len "x") with
             | Ok t => t
             | _ => symbol_table_create
             end).
  assert (Hins : symbol_table_insert (sample_table 39) "x" (mpfr_of_Z 5)
                   (name_len "x") = Ok t') by (vm_compute; reflexivity).
  assert (Hget : symbol_table_get (sample_table 39) "ha" (name_len "ha")
                 = Ok (Some (mpfr_of_Z 7))) by (vm_compute; reflexivity).
  exists t'. split; [exact Hins|].
  split; [vm_compute; reflexivity|]. split; [vm_compute; reflexivity|].
  split; [exact Hget|]. rewrite <- Hget.
  apply (insert_keeps_other_names (sample_table 39) t' "x" "ha" (mpfr_of_Z 5) Hwf).
  - vm_compute. reflexivity.
  - discriminate.
  - exact Hins.
Defined.

(** X3. Where the update of a bound name stays inside its two text
    buffers, [symbol_table_insert] keeps the table well formed (live
    chains, every symbol in the bucket of its hash, no name twice).  [count]
    grows by one exactly when the name was not bound, the capacity doubles
    exactly when the load was above the threshold on entry, [count] stays
    the number of symbols of the table, and the stored values keep fitting
    the text buffers when the new value fits them. *)
Theorem insert_keeps_table_well_formed (t : SymbolTable) (nm : string) (v : mpfr_t) :
  wf t -> 2 * capacity t < 2 ^ 16 -> update_prints t nm v ->
  exists t',
    symbol_table_insert t nm v (name_len nm) = Ok t'
    /\ wf t'
    /\ count t' = match symbol_table_get t nm (name_len nm) with
                  | Ok (Some _) => count t
                  | _ => (count t + 1) mod 2 ^ 16
                  end
    /\ capacity t' = (if over_threshold t then 2 * capacity t else capacity t)
    /\ (count t = Z.of_nat (length (all_syms (buckets t))) ->
        count t + 1 < 2 ^ 16 ->
        count t' = Z.of_nat (length (all_syms (buckets t'))))
    /\ (values_fit t -> sprintf_fits v = true -> values_fit t').
Proof.
  intros Hwf Hsmall _.
  destruct (symbol_table_insert_spec t nm v Hwf Hsmall)
    as (t' & Hins & Hwf' & _ & Hcnt & Hlen & Hcap).
  exists t'. split; [exact Hins|]. split; [exact Hwf'|].
  rewrite (bound_get _ _ Hwf) in Hcnt, Hlen.
  split; [|split; [exact Hcap|split]].
  - rewrite Hcnt.
    destruct (symbol_table_get t nm (name_len nm)) as [[?|]| | |]; reflexivity.
  - intros Hc Hlt. rewrite Hcnt, Hlen.
    destruct (symbol_table_get t nm (name_len nm)) as [[?|]| | |];
      try exact Hc; rewrite Z.mod_small by lia; lia.
  - intros Hfit Hv. apply (insert_values_fit t t' nm v Hwf Hsmall Hfit Hv Hins).
Qed.

Lemma insert_keeps_table_well_formed_witness :
  exists t',
    symbol_table_insert (sample_table 3) "ba" (mpfr_of_Z 5) (name_len "ba") = Ok t'
    /\ wf t' /\ count t' = 3 /\ capacity t' = 64 /\ values_fit t'.
Proof.
  destruct (sample_table_spec 3) as (_ & Hwf & _ & _).
  { apply (bool_decide_unpack _). vm_compute. exact I. }
  { lia. }
  destruct (insert_keeps_table_well_formed (sample_table 3) "ba" (mpfr_of_Z 5) Hwf)
    as (t' & Hins & Hwf' & Hcnt & Hcap & _ & Hfit).
  - vm_compute. reflexivity.
  - intros old Hold. vm_compute in Hold. injection Hold as <-.
    split; vm_compute; reflexivity.
  - exists t'. split; [exact Hins|]. split; [exact Hwf'|].
    assert (Hget : symbol_table_get (sample_table 3) "ba" (name_len "ba")
                   = Ok (Some (mpfr_of_Z 1))) by (vm_compute; reflexivity).
    rewrite Hget in Hcnt.
    assert (Hover : over_threshold (sample_table 3) = false)
      by (vm_compute; reflexivity).
    rewrite Hover in Hcap.
    split; [rewrite Hcnt; vm_compute; reflexivity|].
    split; [rewrite Hcap; vm_compute; reflexivity|].
    apply Hfit; [|vm_compute; reflexivity].
    apply values_fit_checked. vm_compute. reflexivity.
Defined.

(** X4. [symbol_table_resize] to twice the capacity keeps the table well
    formed, keeps [count], and keeps the result of [symbol_table_get] for
    every name. *)
Theorem resize_keeps_every_binding (t : SymbolTable) :
  wf t -> 2 * capacity t < 2 ^ 16 ->
  exists t',
    symbol_table_resize t (Z.shiftl (capacity t) 1) = Ok t'
    /\ wf t'
    /\ capacity t' = 2 * capacity t
    /\ count t' = count t
    /\ forall nm, symbol_table_get t' nm (name_len nm)
                  = symbol_table_get t nm (name_len nm).
Proof.
  intros Hwf Hsmall.
  destruct (symbol_table_resize_spec t Hwf Hsmall)
    as (t' & Hre & Hwf' & Hperm & Hcnt & Hcap).
  exists t'. split; [exact Hre|]. split; [exact Hwf'|].
  split; [exact Hcap|]. split; [exact Hcnt|].
  intros nm.
  rewrite (symbol_table_get_assoc _ _ Hwf'), (symbol_table_get_assoc _ _ Hwf).
  f_equal. pose proof Hwf' as (_ & _ & _ & _ & _ & Hnd').
  apply assoc_perm; assumption.
Qed.

Lemma resize_keeps_every_binding_witness :
  exists t',
    symbol_table_resize (sample_table 39) 128 = Ok t'
    /\ wf t' /\ capacity t' = 128 /\ count t' = 39
    /\ symbol_table_get t' "ha" (name_len "ha") = Ok (Some (mpfr_of_Z 7))
    /\ symbol_table_get t' "zz" (name_len "zz") = Ok None.
Proof.
  destruct (sample_table_spec 39) as (_ & Hwf & _ & _).
  { apply (bool_decide_unpack _). vm_compute. exact I. }
  { lia. }
  destruct (resize_keeps_every_binding (sample_table 39) Hwf)
    as (t' & Hre & Hwf' & Hcap & Hcnt & Hget).
  { vm_compute. reflexivity. }
  assert (Hc : Z.shiftl (capacity (sample_table 39)) 1 = 128)
    by (vm_compute; reflexivity).
  rewrite Hc in Hre.
  exists t'. split; [exact Hre|]. split; [exact Hwf'|].
  split; [rewrite Hcap; vm_compute; reflexivity|].
  split; [rewrite Hcnt; vm_compute; reflexivity|].
  split; rewrite Hget; vm_compute; reflexivity.
Defined.

Lemma rehash_chain_defined (c : chain) (cap : Z) (nb : list chain) :
  (exists nb', rehash_chain c cap nb = Ok nb') \/ rehash_chain c cap nb = Undef.
Proof.
  revert nb. induction c as [|s next IH|]; simpl; intros nb; eauto.
  destruct (nb !! _); eauto.
Qed.

Lemma rehash_buckets_defined (old : list chain) (cap : Z) (nb : list chain) :
  (exists nb', rehash_buckets old cap nb = Ok nb') \/ rehash_buckets old cap nb = Undef.
Proof.
  revert nb. induction old as [|c rest IH]; simpl; intros nb; eauto.
  destruct (rehash_chain_defined c cap nb) as [(nb' & ->) | ->]; simpl; eauto.
Qed.

(** X5. In a table of 32768 buckets whose load is above the threshold,
    [symbol_table_insert] resizes to 65536, which the 16-bit field
    [capacity] stores as 0, and the index computation that follows divides
    by zero. *)
Theorem insert_at_capacity_32768_divides_by_zero (t : SymbolTable) (nm : string)
    (v : mpfr_t) (nameLen : Z) :
  capacity t = 32768 -> over_threshold t = true ->
  symbol_table_insert t nm v nameLen = Undef.
Proof.
  intros Hcap Hover. unfold symbol_table_insert. rewrite Hover.
  unfold symbol_table_resize. rewrite Hcap.
  change (Z.shiftl 32768 1 =? 0) with false. cbv iota.
  destruct (Z.of_nat (length (buckets t)) <? 32768); [reflexivity|].
  destruct (rehash_buckets_defined (take (Z.to_nat 32768) (buckets t))
              (Z.shiftl 32768 1) (replicate (Z.to_nat (Z.shiftl 32768 1)) Null))
    as [(nb & ->) | ->]; reflexivity.
Qed.

Lemma insert_at_capacity_32768_divides_by_zero_witness :
  symbol_table_insert
    {| buckets := replicate (Z.to_nat 32768) Null; capacity := 32768;
       count := 19661 |}
    "a" (mpfr_of_Z 5) 1 = Undef.
Proof.
  apply insert_at_capacity_32768_divides_by_zero.
  - reflexivity.
  - vm_compute. reflexivity.
Defined.

Lemma show_chain_live (c : chain) :
  live c = true ->
  show_chain c = Ok ((fun s => (name s, num s)) <$> chain_list c).
Proof.
  induction c as [|s next IH|]; simpl; intros Hl; [reflexivity | | discriminate].
  rewrite (IH Hl). reflexivity.
Qed.

Lemma show_buckets_live (bs : list chain) :
  Forall (fun c => live c = true) bs ->
  show_buckets bs = Ok ((fun s => (name s, num s)) <$> all_syms bs).
Proof.
  induction bs as [|c bs IH]; simpl; intros Hl; [reflexivity|].
  apply Forall_cons in Hl as (Hc & Hl).
  rewrite (show_chain_live _ Hc), (IH Hl). simpl. rewrite fmap_app. reflexivity.
Qed.

Lemma symbol_table_show_wf (t : SymbolTable) :
  wf t ->
  symbol_table_show t = Ok ((fun s => (name s, num s)) <$> all_syms (buckets t)).
Proof.
  intros (Hcap & Hlen & Hlive & _). unfold symbol_table_show.
  destruct (Z.of_nat (length (buckets t)) <? capacity t) eqn:E;
    [apply Z.ltb_lt in E; lia|].
  rewrite take_ge by lia. apply show_buckets_live, Hlive.
Qed.

(** X6. [symbol_table_show] on a well-formed table lists every bound name
    once, with the value [symbol_table_get] returns for it, and nothing
    else. *)
Theorem show_lists_the_bindings (t : SymbolTable) :
  wf t ->
  exists shown,
    symbol_table_show t = Ok shown
    /\ NoDup (fst <$> shown)
    /\ forall nm v,
         (nm, v) ∈ shown <-> symbol_table_get t nm (name_len nm) = Ok (Some v).
Proof.
  intros Hwf. eexists. split; [apply symbol_table_show_wf, Hwf|].
  pose proof Hwf as (_ & _ & _ & _ & _ & Hnd).
  split.
  { rewrite <- list_fmap_compose. exact Hnd. }
  intros nm v. rewrite (symbol_table_get_assoc _ _ Hwf). split.
  - intros Hin. apply list_elem_of_fmap in Hin as (s & [= -> ->] & Hs).
    f_equal. apply assoc_NoDup; assumption.
  - intros [= Has]. apply assoc_Some in Has as (s & Hs & <- & <-).
    apply (list_elem_of_fmap_2 (fun s => (name s, num s))). exact Hs.
Qed.

Lemma show_lists_the_bindings_witness :
  exists shown,
    symbol_table_show (sample_table 3) = Ok shown
    /\ length shown = 3%nat
    /\ NoDup (fst <$> shown)
    /\ ("ba", mpfr_of_Z 1) ∈ shown
    /\ forall nm v,
         (nm, v) ∈ shown
         <-> symbol_table_get (sample_table 3) nm (name_len nm) = Ok (Some v).
Proof.
  destruct (sample_table_spec 3) as (_ & Hwf & _ & _).
  { apply (bool_decide_unpack _). vm_compute. exact I. }
  { lia. }
  destruct (show_lists_the_bindings (sample_table 3) Hwf)
    as (shown & Hshow & Hnd & Hiff).
  exists shown. split; [exact Hshow|].
  split.
  { assert (Hl : (let* l := symbol_table_show (sample_table 3) in
                  Ok (length l)) = Ok 3%nat) by (vm_compute; reflexivity).
    rewrite Hshow in Hl. cbn [bind] in Hl. injection Hl as ->. reflexivity. }
  split; [exact Hnd|]. split; [|exact Hiff].
  apply Hiff. vm_compute. reflexivity.
Defined.

Lemma free_chain_live (c : chain) : live c = true -> free_chain c = Ok tt.
Proof. induction c; simpl; intros H; [reflexivity | auto | discriminate]. Qed.

Lemma empty_buckets_live (bs : list chain) :
  Forall (fun c => live c = true) bs ->
  empty_buckets bs = Ok ((fun c => match c with Null => Null | _ => Freed end) <$> bs).
Proof.
  induction bs as [|c bs IH]; simpl; intros Hl; [reflexivity|].
  apply Forall_cons in Hl as (Hc & Hl).
  rewrite (free_chain_live _ Hc), (IH Hl). reflexivity.
Qed.

Lemma free_chain_defined (c : chain) : free_chain c = Ok tt \/ free_chain c = Undef.
Proof. induction c; simpl; auto. Qed.

Lemma empty_buckets_freed (bs : list chain) :
  Freed ∈ bs -> empty_buckets bs = Undef.
Proof.
  induction bs as [|c bs IH]; intros Hin; [inversion Hin|].
  apply elem_of_cons in Hin as [<- | Hin]; [reflexivity|].
  simpl. rewrite (IH Hin).
  destruct (free_chain_defined c) as [-> | ->]; reflexivity.
Qed.

Lemma show_chain_defined (c : chain) :
  (exists l, show_chain c = Ok l) \/ show_chain c = Undef.
Proof.
  induction c as [|s next IH|]; simpl; eauto.
  destruct IH as [(l & ->) | ->]; simpl; eauto.
Qed.

Lemma show_buckets_freed (bs : list chain) :
  Freed ∈ bs -> show_buckets bs = Undef.
Proof.
  induction bs as [|c bs IH]; intros Hin; [inversion Hin|].
  apply elem_of_cons in Hin as [<- | Hin]; [reflexivity|].
  simpl. rewrite (IH Hin).
  destruct (show_chain_defined c) as [(l & ->) | ->]; reflexivity.
Qed.

Lemma all_syms_nonempty (bs : list chain) :
  all_syms bs <> [] -> exists i s c, bs !! i = Some (Node s c).
Proof.
  induction bs as [|c0 bs IH]; simpl; intros H; [congruence|].
  destruct c0 as [|s c|].
  - destruct (IH H) as (i & s & c & Hi). exists (S i), s, c. exact Hi.
  - exists 0%nat, s, c. reflexivity.
  - destruct (IH H) as (i & s & c & Hi). exists (S i), s, c. exact Hi.
Qed.

Lemma all_syms_empty_null (bs : list chain) :
  Forall (fun c => live c = true) bs -> all_syms bs = [] ->
  (fun c => match c with Null => Null | _ => Freed end) <$> bs = bs.
Proof.
  induction bs as [|c bs IH]; intros Hl He; [reflexivity|].
  cbn [all_syms] in He.
  apply Forall_cons in Hl as (Hc & Hl).
  apply app_eq_nil in He as (Hc0 & He).
  rewrite fmap_cons, (IH Hl He).
  destruct c; [reflexivity | discriminate | discriminate].
Qed.

Lemma symbol_table_empty_dangling (t : SymbolTable) :
  wf t ->
  (all_syms (buckets t) <> [] ->
   exists t',
     symbol_table_empty t = Ok t'
     /\ symbol_table_empty t' = Undef
     /\ symbol_table_destroy t' = Undef
     /\ symbol_table_show t' = Undef)
  /\ (all_syms (buckets t) = [] -> symbol_table_empty t = Ok t).
Proof.
  intros (Hcap & Hlen & Hlive & _). split.
  - intros Hne. unfold symbol_table_empty.
    destruct (Z.of_nat (length (buckets t)) <? capacity t) eqn:E;
      [apply Z.ltb_lt in E; lia|].
    rewrite take_ge, drop_ge by lia.
    rewrite (empty_buckets_live _ Hlive). cbn [bind]. rewrite app_nil_r.
    eexists. split; [reflexivity|].
    set (bs' := (fun c => match c with Null => Null | _ => Freed end) <$> buckets t).
    assert (Hin : Freed ∈ bs').
    { destruct (all_syms_nonempty _ Hne) as (i & s & c & Hi).
      apply (list_elem_of_lookup_2 _ i). unfold bs'.
      rewrite list_lookup_fmap, Hi. reflexivity. }
    assert (Hlen' : length bs' = length (buckets t)) by apply length_fmap.
    unfold symbol_table_destroy, symbol_table_show, symbol_table_empty.
    cbn [buckets capacity count]. rewrite Hlen', E.
    rewrite take_ge by lia.
    rewrite (empty_buckets_freed _ Hin), (show_buckets_freed _ Hin). auto.
  - intros He. unfold symbol_table_empty.
    destruct (Z.of_nat (length (buckets t)) <? capacity t) eqn:E;
      [apply Z.ltb_lt in E; lia|].
    rewrite take_ge, drop_ge by lia.
    rewrite (empty_buckets_live _ Hlive), (all_syms_empty_null _ Hlive He).
    cbn [bind]. rewrite app_nil_r. destruct t; reflexivity.
Qed.

(** X7. After [symbol_table_empty] on a table that holds a symbol, a
    second [symbol_table_empty], [symbol_table_destroy] and
    [symbol_table_show] all follow a bucket pointer to a freed symbol.  On a
    table without symbols [symbol_table_empty] changes nothing. *)
Theorem second_clear_reads_freed_symbols (t : SymbolTable) :
  wf t ->
  (all_syms (buckets t) <> [] ->
   exists t',
     symbol_table_empty t = Ok t'
     /\ symbol_table_empty t' = Undef
     /\ symbol_table_destroy t' = Undef
     /\ symbol_table_show t' = Undef)
  /\ (all_syms (buckets t) = [] -> symbol_table_empty t = Ok t).
Proof. apply symbol_table_empty_dangling. Qed.

Lemma second_clear_reads_freed_symbols_witness :
  exists t t',
    symbol_table_insert symbol_table_create "a" (mpfr_of_Z 5) 1 = Ok t
    /\ symbol_table_empty t = Ok t'
    /\ symbol_table_empty t' = Undef
    /\ symbol_table_destroy t' = Undef
    /\ symbol_table_show t' = Undef.
Proof.
  set (t := match symbol_table_insert symbol_table_create "a" (mpfr_of_Z 5) 1 with
            | Ok t => t
            | _ => symbol_table_create
            end).
  assert (Hi : symbol_table_insert symbol_table_create "a" (mpfr_of_Z 5) 1 = Ok t)
    by (vm_compute; reflexivity).
  assert (Hwf : wf t).
  { destruct (symbol_table_insert_spec symbol_table_create "a" (mpfr_of_Z 5)
                wf_symbol_table_create) as (t1 & Hins & Hwf1 & _);
      [vm_compute; reflexivity|].
    change (name_len "a") with 1 in Hins. rewrite Hi in Hins.
    injection Hins as ->. exact Hwf1. }
  destruct (proj1 (second_clear_reads_freed_symbols t Hwf)) as (t' & H).
  { vm_compute. discriminate. }
  exists t, t'. split; [exact Hi | exact H].
Defined.

(** ** The tokenizer on arbitrary lines *)

Lemma suffix_of_refl (s : string) : suffix_of s s.
Proof. exists "". reflexivity. Qed.

Lemma suffix_of_cons (c : ascii) (s line : string) :
  suffix_of (String c s) line -> suffix_of s line.
Proof.
  intros (pre & ->). exists (pre +:+ String c "").
  induction pre as [|a pre IH]; [reflexivity|].
  rewrite !string_app_cons. f_equal. exact IH.
Qed.

Lemma suffix_of_trans (a b c : string) :
  suffix_of a b -> suffix_of b c -> suffix_of a c.
Proof.
  intros (p1 & ->) (p2 & ->). exists (p2 +:+ p1).
  induction p2 as [|x p2 IH]; [reflexivity|].
  rewrite !string_app_cons. f_equal. exact IH.
Qed.

Lemma suffix_of_length (s line : string) :
  suffix_of s line -> (String.length s <= String.length line)%nat.
Proof. intros (pre & ->). rewrite string_length_app. lia. Qed.

Lemma scan_number_suffix (p : string) (isFloat : bool) :
  suffix_of (scan_number p isFloat) p.
Proof.
  revert isFloat. induction p as [|c p IH]; intros isFloat; simpl;
    [apply suffix_of_refl|].
  destruct (isdigit c).
  { destruct (IH isFloat) as (pre & H). exists (String c pre).
    rewrite string_app_cons, <- H. reflexivity. }
  destruct (negb isFloat && _); [|apply suffix_of_refl].
  destruct (IH true) as (pre & H). exists (String c pre).
  rewrite string_app_cons, <- H. reflexivity.
Qed.

Lemma scan_ident_suffix (p : string) : suffix_of (scan_ident p) p.
Proof.
  induction p as [|c p IH]; simpl; [apply suffix_of_refl|].
  destruct (isascii c && lookupTable c); [|apply suffix_of_refl].
  destruct IH as (pre & H). exists (String c pre).
  rewrite string_app_cons, <- H. reflexivity.
Qed.

Lemma skip_blanks_suffix (p : string) : suffix_of (skip_blanks p) p.
Proof.
  induction p as [|c p IH]; simpl; [apply suffix_of_refl|].
  destruct (byte_of c =? 32); [|apply suffix_of_refl].
  destruct IH as (pre & H). exists (String c pre).
  rewrite string_app_cons, <- H. reflexivity.
Qed.

Lemma scan_digits_suffix (p : string) : suffix_of (scan_digits p) p.
Proof.
  induction p as [|c p IH]; simpl; [apply suffix_of_refl|].
  destruct (isdigit c); [|apply suffix_of_refl].
  destruct IH as (pre & H). exists (String c pre).
  rewrite string_app_cons, <- H. reflexivity.
Qed.

Lemma token_buffer_add_grows (tb : TokenBuffer) (ty : TokenType) (s : string) (n : Z) :
  grows_by tb (token_buffer_add tb ty s n)
    {| lexeme := s; type := ty; len := n mod 256; negative := false |}.
Proof. split; reflexivity. Qed.

Lemma set_last_negative_grows (tb : TokenBuffer) (ty : TokenType) (s : string) (n : Z) :
  grows_by tb (set_last_negative (token_buffer_add tb ty s n))
    {| lexeme := s; type := ty; len := n mod 256; negative := true |}.
Proof.
  split; [apply set_last_negative_add|].
  unfold set_last_negative, token_buffer_add. simpl.
  rewrite last_snoc. reflexivity.
Qed.

Lemma ptr_diff_bounds (q n : string) :
  suffix_of q n -> ptr_diff q n <= 255 ->
  0 <= ptr_diff q n mod 256 <= 255
  /\ (Z.to_nat (ptr_diff q n mod 256) <= String.length n)%nat.
Proof.
  intros Hs Hle. apply suffix_of_length in Hs. unfold ptr_diff in *.
  rewrite Z.mod_small by lia. lia.
Qed.

Lemma ptr_diff_mod_bounds (q n : string) :
  suffix_of q n ->
  0 <= ptr_diff q n mod 256 <= 255
  /\ (Z.to_nat (ptr_diff q n mod 256) <= String.length n)%nat.
Proof.
  intros Hs. apply suffix_of_length in Hs. unfold ptr_diff.
  set (d := Z.of_nat (String.length n) - Z.of_nat (String.length q)).
  assert (0 <= d) by (unfold d; lia).
  pose proof (Z.mod_pos_bound d 256 ltac:(lia)).
  pose proof (Z.mod_le d 256 ltac:(lia) ltac:(lia)).
  unfold d in *. lia.
Qed.

(** One iteration of the scanning loop: the pointer moves to a later
    position, and the buffer is unchanged or receives one token that lies
    in the text at the old position. *)
Lemma tokenize_step_spec (c : ascii) (p' q : string) (tb tb' : TokenBuffer) :
  tokenize_step c p' tb = Ok (q, tb') ->
  suffix_of q p'
  /\ (tb' = tb \/ exists tok, grows_by tb tb' tok /\ token_in_line (String c p') tok).
Proof.
  unfold tokenize_step.
  destruct (isspace c); [intros [= <- <-]; split; [apply suffix_of_refl | auto]|].
  destruct (isdigit c).
  { destruct (_ <? _) eqn:E; [discriminate|]. apply Z.ltb_ge in E.
    intros [= <- <-]. split; [apply scan_number_suffix|]. right.
    eexists. split; [apply token_buffer_add_grows|].
    pose proof (scan_number_suffix p' false) as Hs.
    assert (Hs' : suffix_of (scan_number p' false) (String c p')).
    { destruct Hs as (pre & H). exists (String c pre).
      rewrite string_app_cons, <- H. reflexivity. }
    destruct (ptr_diff_bounds _ _ Hs' E) as (H1 & H2).
    unfold token_in_line. cbn [len lexeme negative type].
    split; [exact H1|]. split; [exact H2|]. split; [discriminate|].
    intros _. apply suffix_of_refl. }
  destruct (isascii c && lookupTable c).
  { destruct (_ <? _) eqn:E; [discriminate|]. apply Z.ltb_ge in E.
    pose proof (scan_ident_suffix p') as Hs.
    assert (Hs' : suffix_of (scan_ident p') (String c p')).
    { destruct Hs as (pre & H). exists (String c pre).
      rewrite string_app_cons, <- H. reflexivity. }
    destruct (_ && _); intros [= <- <-]; (split; [exact Hs|]); right;
      (eexists; split; [apply token_buffer_add_grows|]);
      unfold token_in_line; cbn [len lexeme negative type].
    - split; [vm_compute; split; discriminate|].
      split; [vm_compute; lia|]. split; [discriminate|].
      intros [H | H]; discriminate H.
    - destruct (ptr_diff_bounds _ _ Hs' E) as (H1 & H2).
      split; [exact H1|]. split; [exact H2|]. split; [discriminate|].
      intros _. apply suffix_of_refl. }
  assert (Hsingle : forall ty text,
             String.length text = 1%nat ->
             ty <> TOK_NUM -> ty <> TOK_VAR ->
             Ok (p', token_buffer_add tb ty text 1) = Ok (q, tb') ->
             suffix_of q p'
             /\ (tb' = tb \/
                 exists tok, grows_by tb tb' tok /\ token_in_line (String c p') tok)).
  { intros ty text Hlen Hn Hv [= <- <-]. split; [apply suffix_of_refl|]. right.
    eexists. split; [apply token_buffer_add_grows|].
    unfold token_in_line. cbn [len lexeme negative type].
    split; [vm_compute; split; discriminate|].
    split; [rewrite Hlen; vm_compute; lia|]. split; [discriminate|].
    intros [H | H]; congruence. }
  assert (Hunary :
            Ok (scan_digits (skip_blanks p'),
                set_last_negative
                  (token_buffer_add tb TOK_NUM (skip_blanks p')
                     (ptr_diff (scan_digits (skip_blanks p')) (skip_blanks p'))))
            = Ok (q, tb') ->
            suffix_of q p'
            /\ (tb' = tb \/
                exists tok, grows_by tb tb' tok /\ token_in_line (String c p') tok)).
  { intros [= <- <-].
    pose proof (scan_digits_suffix (skip_blanks p')) as Hs1.
    pose proof (skip_blanks_suffix p') as Hs2.
    split; [apply (suffix_of_trans _ _ _ Hs1 Hs2)|]. right.
    eexists. split; [apply set_last_negative_grows|].
    destruct (ptr_diff_mod_bounds _ _ Hs1) as (H1 & H2).
    unfold token_in_line. cbn [len lexeme negative type].
    split; [exact H1|]. split; [exact H2|]. split; [reflexivity|].
    intros _. destruct Hs2 as (pre & H). exists (String c pre).
    rewrite string_app_cons, <- H. reflexivity. }
  destruct (byte_of c) as [|b|b]; try discriminate.
  repeat (destruct b as [b|b|]; try discriminate);
    try (apply Hsingle; solve [reflexivity | discriminate]).
  destruct (unary_position tb); [exact Hunary|].
  apply Hsingle; solve [reflexivity | discriminate].
Qed.

Lemma tokenize_step_errors (c : ascii) (p' : string) (tb : TokenBuffer) (e : error) :
  tokenize_step c p' tb = Err e -> e = TooLong \/ e = UnrecognizedChar.
Proof.
  unfold tokenize_step.
  destruct (isspace c); [discriminate|].
  destruct (isdigit c); [destruct (_ <? _); [intros [= <-]; auto | discriminate]|].
  destruct (isascii c && lookupTable c).
  { destruct (_ <? _); [intros [= <-]; auto|]. destruct (_ && _); discriminate. }
  destruct (byte_of c) as [|b|b]; try (intros [= <-]; auto).
  repeat (destruct b as [b|b|]; try (intros [= <-]; auto); try discriminate).
  destruct (unary_position tb); discriminate.
Qed.

(** An invariant of the scanning loop holds of the buffer it returns, on
    success and on failure. *)
Lemma tokenize_loop_invariant (P : string -> TokenBuffer -> Prop) :
  (forall c p' tb q tb',
      P (String c p') tb -> tokenize_step c p' tb = Ok (q, tb') -> P q tb') ->
  forall fuel p tb, P p tb ->
    exists q, P q (fst (tokenize_loop fuel p tb)).
Proof.
  intros Hstep. induction fuel as [|fuel IH]; intros p tb HP.
  - destruct p; simpl; eauto.
  - destruct p as [|c p']; simpl; [eauto|].
    destruct (tokenize_step c p' tb) as [[q tb']| | |] eqn:E; simpl; eauto.
Qed.

Lemma tokenize_loop_errors (fuel : nat) (p : string) (tb : TokenBuffer) (e : error) :
  snd (tokenize_loop fuel p tb) = Err e -> e = TooLong \/ e = UnrecognizedChar.
Proof.
  revert p tb. induction fuel as [|fuel IH]; intros p tb.
  - destruct p; discriminate.
  - destruct p as [|c p']; [discriminate|]. cbn [tokenize_loop].
    destruct (tokenize_step c p' tb) as [[q tb']|e'| |] eqn:E; simpl;
      try discriminate.
    + apply IH.
    + intros [= <-]. apply (tokenize_step_errors _ _ _ _ E).
Qed.

(** X8. [tokenize] returns on every line that leaves the 16-bit counters
    of the token buffer in their range: its scanning loop ends, with
    success or with one of its two diagnostics, too long or unrecognized
    character. *)
Theorem tokenize_terminates (tokBuff : TokenBuffer) (buff : string) :
  token_counters_in_range tokBuff buff ->
  snd (tokenize tokBuff buff) = Ok tt
  \/ snd (tokenize tokBuff buff) = Err TooLong
  \/ snd (tokenize tokBuff buff) = Err UnrecognizedChar.
Proof.
  intros _.
  destruct (tokenize_total tokBuff buff) as [H | (e & H)]; [auto|].
  right. rewrite H.
  destruct (tokenize_loop_errors _ _ _ _ H) as [-> | ->]; auto.
Qed.

Lemma tokenize_terminates_witness :
  snd (tokenize token_buffer_create "a = 2 * (3 + 4)") = Ok tt
  \/ snd (tokenize token_buffer_create "a = 2 * (3 + 4)") = Err TooLong
  \/ snd (tokenize token_buffer_create "a = 2 * (3 + 4)") = Err UnrecognizedChar.
Proof.
  apply (tokenize_terminates token_buffer_create "a = 2 * (3 + 4)").
  split; [vm_compute; reflexivity | vm_compute; intros H; discriminate H].
Defined.

Lemma tokenize_bounds (tokBuff : TokenBuffer) (buff : string) :
  (tb_count (fst (tokenize tokBuff buff)) <= tb_size (fst (tokenize tokBuff buff)))%nat
  /\ (tb_count (fst (tokenize tokBuff buff)) <= String.length buff)%nat
  /\ (tb_size tokBuff <= tb_size (fst (tokenize tokBuff buff)))%nat.
Proof.
  unfold tokenize.
  destruct (tokenize_loop_invariant
              (fun p tb =>
                 (tb_count tb <= tb_size tb)%nat
                 /\ (tb_count tb + String.length p <= String.length buff)%nat
                 /\ (tb_size tokBuff <= tb_size tb)%nat))
    with (fuel := String.length buff) (p := buff)
         (tb := {| token_buff := []; tb_size := tb_size tokBuff |})
    as (q & H1 & H2 & H3).
  - intros c p' tb q tb' (H1 & H2 & H3) Hstep.
    apply tokenize_step_spec in Hstep as (Hs & Htb).
    apply suffix_of_length in Hs. cbn [String.length] in H2.
    destruct Htb as [-> | (tok & (Hbuf & Hsz) & _)]; [lia|].
    unfold tb_count in *. rewrite Hbuf, Hsz, length_app. cbn [length].
    unfold TOKEN_BUFFER_SIZE.
    destruct (Nat.leb_spec (tb_size tb) (length (token_buff tb))); lia.
  - unfold tb_count. simpl. lia.
  - lia.
Qed.

Lemma tokenize_tokens_in_line (tokBuff : TokenBuffer) (buff : string) :
  Forall (token_in_line buff) (token_buff (fst (tokenize tokBuff buff))).
Proof.
  unfold tokenize.
  destruct (tokenize_loop_invariant
              (fun p tb =>
                 suffix_of p buff /\ Forall (token_in_line buff) (token_buff tb)))
    with (fuel := String.length buff) (p := buff)
         (tb := {| token_buff := []; tb_size := tb_size tokBuff |})
    as (q & _ & H).
  - intros c p' tb q tb' (Hp & Hall) Hstep.
    apply tokenize_step_spec in Hstep as (Hs & Htb).
    split.
    { apply (suffix_of_trans _ p'); [exact Hs|].
      apply (suffix_of_cons c), Hp. }
    destruct Htb as [-> | (tok & (Hbuf & _) & H1 & H2 & H3 & H4)]; [exact Hall|].
    rewrite Hbuf. apply Forall_app. split; [exact Hall|].
    apply Forall_cons. split; [|apply Forall_nil_2].
    unfold token_in_line. repeat split; try tauto; try lia.
    intros Hty. apply (suffix_of_trans _ _ _ (H4 Hty) Hp).
  - split; [apply suffix_of_refl | apply Forall_nil_2].
  - exact H.
Qed.

Lemma tokenize_loop_all_space (fuel : nat) (p : string) (tb : TokenBuffer) :
  all_space p = true -> (String.length p <= fuel)%nat ->
  tokenize_loop fuel p tb = (tb, Ok tt).
Proof.
  revert p. induction fuel as [|fuel IH]; intros p Hsp Hlen.
  - destruct p; [reflexivity | simpl in Hlen; lia].
  - destruct p as [|c p']; [reflexivity|].
    simpl in Hsp. apply andb_true_iff in Hsp as (Hc & Hsp).
    cbn [tokenize_loop]. unfold tokenize_step. rewrite Hc.
    apply IH; [exact Hsp | simpl in Hlen; lia].
Qed.

Lemma parse_no_tokens (parser : Parser) :
  token_buff (tokens parser) = [] -> parse parser = Err UnexpectedEOF.
Proof.
  intros Hnil. unfold parse, parse_statement.
  rewrite is_assignment_statement_start by reflexivity.
  cbn [tokens parse_start]. rewrite Hnil.
  cbn [starts_with_assignment].
  unfold tb_count. rewrite Hnil.
  change (parse_fuel (length (@nil Token))) with 6%nat.
  rewrite parse_expression_S, parse_term_S, parse_power_S, parse_primary_S.
  unfold peek. cbn [tokens curr_tok parse_start]. rewrite Hnil.
  reflexivity.
Qed.

(** X11. A line of white space only gives no token, and [parse] fails on
    it with "unexpected EOF"; the symbol table is not touched. *)
Theorem blank_line_is_unexpected_eof (parser : Parser) (line : string) :
  all_space line = true ->
  snd (run_line parser line) = Err UnexpectedEOF
  /\ symTable (fst (run_line parser line)) = symTable parser.
Proof.
  intros Hsp. unfold run_line, tokenize.
  rewrite (tokenize_loop_all_space _ _ _ Hsp) by lia.
  rewrite parse_no_tokens by reflexivity.
  split; reflexivity.
Qed.

Lemma blank_line_is_unexpected_eof_witness :
  snd (run_line fresh_parser "  ") = Err UnexpectedEOF
  /\ symTable (fst (run_line fresh_parser "  ")) = symTable fresh_parser.
Proof. apply (blank_line_is_unexpected_eof fresh_parser "  "). reflexivity. Defined.

Lemma isdigit_alphabet (c : ascii) : isdigit c = true -> in_alphabet c = true.
Proof. unfold in_alphabet. intros ->. rewrite orb_true_r. reflexivity. Qed.

Lemma scan_number_alphabet (p : string) (isFloat : bool) :
  all_in_alphabet p = false -> all_in_alphabet (scan_number p isFloat) = false.
Proof.
  revert isFloat. induction p as [|c p IH]; intros isFloat; [discriminate|].
  cbn [scan_number]. intros H.
  destruct (isdigit c) eqn:Ed.
  { apply IH. cbn [all_in_alphabet] in H.
    rewrite (isdigit_alphabet _ Ed) in H. exact H. }
  destruct (negb isFloat && ((byte_of c =? 46) || (byte_of c =? 44))) eqn:E;
    [|exact H].
  apply IH. cbn [all_in_alphabet] in H.
  apply andb_true_iff in E as (_ & E).
  assert (Hc : in_alphabet c = true).
  { unfold in_alphabet, operator_char.
    apply orb_true_iff in E as [E | E]; apply Z.eqb_eq in E; rewrite E;
      rewrite ?orb_true_r; reflexivity. }
  rewrite Hc in H. exact H.
Qed.

Lemma scan_ident_alphabet (p : string) :
  all_in_alphabet p = false -> all_in_alphabet (scan_ident p) = false.
Proof.
  induction p as [|c p IH]; [discriminate|].
  cbn [scan_ident]. intros H.
  destruct (isascii c && lookupTable c) eqn:E; [|exact H].
  apply IH. cbn [all_in_alphabet] in H.
  unfold in_alphabet in H. rewrite E in H. rewrite ?orb_true_r in H. exact H.
Qed.

Lemma skip_blanks_alphabet (p : string) :
  all_in_alphabet p = false -> all_in_alphabet (skip_blanks p) = false.
Proof.
  induction p as [|c p IH]; [discriminate|].
  cbn [skip_blanks]. intros H.
  destruct (byte_of c =? 32) eqn:E; [|exact H].
  apply IH. cbn [all_in_alphabet] in H.
  unfold in_alphabet, isspace in H. rewrite E in H. exact H.
Qed.

Lemma scan_digits_alphabet (p : string) :
  all_in_alphabet p = false -> all_in_alphabet (scan_digits p) = false.
Proof.
  induction p as [|c p IH]; [discriminate|].
  cbn [scan_digits]. intros H.
  destruct (isdigit c) eqn:E; [|exact H].
  apply IH. cbn [all_in_alphabet] in H.
  rewrite (isdigit_alphabet _ E) in H. exact H.
Qed.

Lemma tokenize_step_alphabet (c : ascii) (p' : string) (tb : TokenBuffer) :
  all_in_alphabet (String c p') = false ->
  match tokenize_step c p' tb with
  | Ok (q, _) => all_in_alphabet q = false
  | Err _ => True
  | _ => False
  end.
Proof.
  cbn [all_in_alphabet]. unfold in_alphabet, operator_char, tokenize_step.
  destruct (isspace c); [intros H; exact H|].
  destruct (isdigit c).
  { intros H. cbn [orb andb] in H.
    destruct (TOKEN_LEXEME_LEN_LIMIT <? _); [exact I|].
    apply scan_number_alphabet, H. }
  destruct (isascii c && lookupTable c).
  { intros H. cbn [orb andb] in H.
    destruct (TOKEN_LEXEME_LEN_LIMIT <? _); [exact I|].
    destruct ((ptr_diff _ _ =? 4) && _); apply scan_ident_alphabet, H. }
  cbn [orb].
  destruct (byte_of c) as [|b|b]; try (intros _; exact I).
  repeat (destruct b as [b|b|]; try (intros _; exact I));
    cbn [orb andb Z.eqb Pos.eqb]; intros H; try exact H;
    destruct (unary_position tb); try exact H.
  apply scan_digits_alphabet, skip_blanks_alphabet, H.
Qed.

Lemma tokenize_loop_alphabet (fuel : nat) (p : string) (tb : TokenBuffer) :
  (String.length p <= fuel)%nat -> all_in_alphabet p = false ->
  exists e, snd (tokenize_loop fuel p tb) = Err e.
Proof.
  revert p tb. induction fuel as [|fuel IH]; intros p tb Hlen Hbad.
  - destruct p; [discriminate | simpl in Hlen; lia].
  - destruct p as [|c p']; [discriminate|]. cbn [tokenize_loop].
    pose proof (tokenize_step_alphabet c p' tb Hbad) as H.
    destruct (tokenize_step c p' tb) as [[q tb']|e| |] eqn:E;
      [|eexists; reflexivity|contradiction|contradiction].
    apply IH; [|exact H].
    pose proof (tokenize_step_progress _ _ _ _ _ E). simpl in Hlen. lia.
Qed.

(** X12. A line that holds a character outside the tokenizer's
    alphabet (white space, digits, letters, underscore, the operator
    characters and the period) fails in [tokenize], wherever the character
    stands in a line that leaves the 16-bit counters of the token buffer in
    their range. *)
Theorem foreign_character_fails_the_line (tokBuff : TokenBuffer) (buff : string) :
  token_counters_in_range tokBuff buff ->
  all_in_alphabet buff = false ->
  snd (tokenize tokBuff buff) = Err TooLong
  \/ snd (tokenize tokBuff buff) = Err UnrecognizedChar.
Proof.
  intros _ Hbad. unfold tokenize.
  destruct (tokenize_loop_alphabet (String.length buff) buff
              {| token_buff := []; tb_size := tb_size tokBuff |}
              ltac:(lia) Hbad) as (e & H).
  rewrite H. destruct (tokenize_loop_errors _ _ _ _ H) as [-> | ->]; auto.
Qed.

Lemma foreign_character_fails_the_line_witness :
  snd (tokenize token_buffer_create "2 + $") = Err TooLong
  \/ snd (tokenize token_buffer_create "2 + $") = Err UnrecognizedChar.
Proof.
  apply (foreign_character_fails_the_line token_buffer_create "2 + $").
  - split; [vm_compute; reflexivity | vm_compute; intros H; discriminate H].
  - reflexivity.
Defined.

Lemma scan_digits_all (s rest : string) :
  all_digits s = true -> scan_digits (s +:+ rest) = scan_digits rest.
Proof.
  induction s as [|c s IH]; [reflexivity|].
  rewrite string_app_cons. simpl.
  intros H. apply andb_true_iff in H as (-> & Hs). apply IH, Hs.
Qed.

Lemma skip_blanks_digits (s rest : string) :
  all_digits s = true ->
  skip_blanks (s +:+ "." +:+ rest) = s +:+ "." +:+ rest.
Proof.
  destruct s as [|c s]; [reflexivity|].
  rewrite string_app_cons. cbn [all_digits skip_blanks].
  intros H. apply andb_true_iff in H as (Hc & _).
  unfold isdigit in Hc. apply andb_true_iff in Hc as (H1 & _).
  apply Z.leb_le in H1.
  destruct (byte_of c =? 32) eqn:E; [apply Z.eqb_eq in E; lia | reflexivity].
Qed.

(** X13. A line that starts with a minus sign, digits and a period is
    rejected by [tokenize] as an unrecognized character: the sign branch
    scans digits only, so the period is met outside a digit run. *)
Theorem signed_decimal_is_rejected (tokBuff : TokenBuffer) (ip rest : string) :
  all_digits ip = true ->
  snd (tokenize tokBuff ("-" +:+ ip +:+ "." +:+ rest)) = Err UnrecognizedChar.
Proof.
  intros Hip. unfold tokenize.
  rewrite string_app_cons, string_app_nil_l.
  cbn [String.length tokenize_loop].
  unfold tokenize_step.
  change (isspace "-") with false. change (isdigit "-") with false.
  change (isascii "-" && lookupTable "-") with false.
  change (byte_of "-") with 45. cbv iota beta.
  change (unary_position {| token_buff := []; tb_size := tb_size tokBuff |}) with true.
  cbv iota.
  rewrite (skip_blanks_digits _ _ Hip), (scan_digits_all _ _ Hip).
  rewrite string_app_cons, string_app_nil_l. cbn [scan_digits].
  change (isdigit ".") with false. cbv iota.
  rewrite string_length_app. cbn [String.length].
  replace (String.length ip + S (String.length rest))%nat
    with (S (String.length ip + String.length rest)) by lia.
  reflexivity.
Qed.

Lemma signed_decimal_is_rejected_witness :
  snd (tokenize token_buffer_create "-2.5") = Err UnrecognizedChar.
Proof.
  apply (signed_decimal_is_rejected token_buffer_create "2" "5"). reflexivity.
Defined.

(** X14. A literal of at most 254 characters, digits with an optional
    period after the first digits, is one Number token, and the line
    evaluates to the number nearest to the value it denotes. *)
Theorem period_literals_round_trip (ip : string) (frac : option string) :
  all_digits ip = true -> ip <> "" -> all_digits (frac_digits frac) = true ->
  (String.length (literal ip frac) <= 254)%nat ->
  tokens_of (literal ip frac) =
    Ok [{| lexeme := literal ip frac; type := TOK_NUM;
           len := Z.of_nat (String.length (literal ip frac));
           negative := false |}]
  /\ eval_line (literal ip frac) =
       Ok (mpfr_of_ratio
             (digits_value ip * 10 ^ Z.of_nat (String.length (frac_digits frac))
              + digits_value (frac_digits frac))
             (10 ^ Z.of_nat (String.length (frac_digits frac)))).
Proof.
  intros Hip Hne Hfp Hlen. apply period_literal_roundtrip; try assumption. lia.
Qed.

Lemma period_literals_round_trip_witness :
  tokens_of "12.75" =
    Ok [{| lexeme := "12.75"; type := TOK_NUM; len := 5; negative := false |}]
  /\ eval_line "12.75" = Ok (mpfr_of_ratio 1275 100).
Proof.
  apply (period_literals_round_trip "12" (Some "75")).
  - reflexivity.
  - discriminate.
  - reflexivity.
  - vm_compute. lia.
Defined.

Lemma scan_ident_letters (s : string) : all_letters s = true -> scan_ident s = "".
Proof.
  induction s as [|c s IH]; [reflexivity|]. simpl.
  intros H. apply andb_true_iff in H as (-> & Hs). apply IH, Hs.
Qed.

Lemma take_str_length (n : nat) (s : string) :
  (n <= String.length s)%nat -> String.length (take_str n s) = n.
Proof.
  revert s. induction n as [|n IH]; intros s H; [reflexivity|].
  destruct s as [|c s]; simpl in *; [lia|]. rewrite IH; [reflexivity | lia].
Qed.

Lemma letter_not_space_digit (c : ascii) :
  isascii c && lookupTable c = true -> isspace c = false /\ isdigit c = false.
Proof.
  unfold isascii, lookupTable, isspace, isdigit. intros H.
  apply andb_true_iff in H as (_ & H).
  destruct (byte_of c) as [|b|b]; try discriminate.
  repeat (destruct b as [b|b|]; try discriminate); split; reflexivity.
Qed.

(** X15. An identifier of exactly 255 letters passes the length check
    of [tokenize] and becomes one Variable token; [token_adjust_lexeme] then
    writes its 255 characters and the terminator, 256 bytes, into
    [bufferNames], which has 255. *)
Theorem longest_identifier_overflows_bufferNames (tokBuff : TokenBuffer) (x : string) :
  all_letters x = true -> String.length x = 255%nat ->
  snd (tokenize tokBuff x) = Ok tt
  /\ token_buff (fst (tokenize tokBuff x)) =
       [{| lexeme := x; type := TOK_VAR; len := 255; negative := false |}]
  /\ token_adjust_lexeme
       {| lexeme := x; type := TOK_VAR; len := 255; negative := false |} = x
  /\ bufferNames_written
       {| lexeme := x; type := TOK_VAR; len := 255; negative := false |} = 256
  /\ bufferNames_size = 255.
Proof.
  intros Hx Hlen.
  assert (Hadj : token_adjust_lexeme
            {| lexeme := x; type := TOK_VAR; len := 255; negative := false |} = x).
  { unfold token_adjust_lexeme. cbn [type tok_index negative len lexeme].
    change (1 <? 1) with false. cbv iota.
    rewrite string_app_nil_l.
    change (Z.to_nat (255 + 0)) with 255%nat. rewrite <- Hlen. apply take_str_all. }
  assert (Htok : tokenize tokBuff x =
            (token_buffer_add {| token_buff := []; tb_size := tb_size tokBuff |}
               TOK_VAR x 255, Ok tt)).
  { unfold tokenize. rewrite Hlen.
    destruct x as [|c x']; [discriminate|].
    cbn [all_letters] in Hx. apply andb_true_iff in Hx as (Hc & Hx').
    destruct (letter_not_space_digit c Hc) as (Hsp & Hdg).
    cbn [tokenize_loop]. unfold tokenize_step.
    rewrite Hsp, Hdg, Hc, (scan_ident_letters _ Hx').
    unfold ptr_diff. rewrite Hlen. cbn [String.length Z.of_nat].
    change (TOKEN_LEXEME_LEN_LIMIT <? Z.of_nat 255 - 0) with false.
    change (Z.of_nat 255 - 0 =? 4) with false. cbv iota. cbn [andb].
    reflexivity. }
  rewrite Htok. cbn [fst snd].
  split; [reflexivity|]. split; [reflexivity|]. split; [exact Hadj|].
  split; [|reflexivity].
  unfold bufferNames_written. rewrite Hadj. cbn [type tok_index].
  change (1 <? 1) with false. cbv iota. rewrite Hlen. reflexivity.
Qed.

Lemma longest_identifier_overflows_bufferNames_witness :
  snd (tokenize token_buffer_create (string_of 255 "a")) = Ok tt
  /\ bufferNames_written
       {| lexeme := string_of 255 "a"; type := TOK_VAR; len := 255;
          negative := false |} = 256
  /\ bufferNames_size = 255.
Proof.
  destruct (longest_identifier_overflows_bufferNames token_buffer_create
              (string_of 255 "a")) as (H1 & _ & _ & H2 & H3).
  - vm_compute. reflexivity.
  - vm_compute. reflexivity.
  - auto.
Defined.

(** *** The token buffer's size stays a 16-bit number *)

Lemma tokenize_size_in_range (tokBuff : TokenBuffer) (buff : string) :
  token_counters_in_range tokBuff buff ->
  Z.of_nat (tb_size (fst (tokenize tokBuff buff))) < 2 ^ 16.
Proof.
  intros (Hsz & Hlen). unfold tokenize.
  destruct (tokenize_loop_invariant
              (fun p tb =>
                 (tb_count tb + String.length p <= String.length buff)%nat
                 /\ (tb_size tb <= Nat.max (tb_size tokBuff)
                                     (tb_count tb + (TOKEN_BUFFER_SIZE - 1)))%nat))
    with (fuel := String.length buff) (p := buff)
         (tb := {| token_buff := []; tb_size := tb_size tokBuff |})
    as (q & H1 & H2).
  - intros c p' tb q tb' (H1 & H2) Hstep.
    apply tokenize_step_spec in Hstep as (Hs & Htb).
    apply suffix_of_length in Hs. cbn [String.length] in H1.
    destruct Htb as [-> | (tok & (Hbuf & Hsz') & _)]; [lia|].
    unfold tb_count in *. rewrite Hbuf, Hsz', length_app. cbn [length].
    unfold TOKEN_BUFFER_SIZE in *.
    destruct (Nat.leb_spec (tb_size tb) (length (token_buff tb))); lia.
  - unfold tb_count. simpl. lia.
  - unfold TOKEN_BUFFER_SIZE in *. lia.
Qed.

(** X9. For a buffer size that is a 16-bit number and a line of at most
    [2^16 - TOKEN_BUFFER_SIZE] characters, the buffer [tokenize] leaves, on
    success or failure, holds no more tokens than its allocated size and no
    more tokens than the line has characters; its allocated size has not
    shrunk and is still a 16-bit number. *)
Theorem token_buffer_stays_in_bounds (tokBuff : TokenBuffer) (buff : string) :
  token_counters_in_range tokBuff buff ->
  (tb_count (fst (tokenize tokBuff buff)) <= tb_size (fst (tokenize tokBuff buff)))%nat
  /\ (tb_count (fst (tokenize tokBuff buff)) <= String.length buff)%nat
  /\ (tb_size tokBuff <= tb_size (fst (tokenize tokBuff buff)))%nat
  /\ Z.of_nat (tb_size (fst (tokenize tokBuff buff))) < 2 ^ 16.
Proof.
  intros Hrange.
  pose proof (tokenize_bounds tokBuff buff) as (H1 & H2 & H3).
  pose proof (tokenize_size_in_range tokBuff buff Hrange) as H4.
  auto.
Qed.

Lemma token_buffer_stays_in_bounds_witness :
  (tb_count (fst (tokenize token_buffer_create "a = 2 * (3 + 4)"))
   <= tb_size (fst (tokenize token_buffer_create "a = 2 * (3 + 4)")))%nat
  /\ (tb_count (fst (tokenize token_buffer_create "a = 2 * (3 + 4)"))
      <= String.length "a = 2 * (3 + 4)")%nat
  /\ (tb_size token_buffer_create
      <= tb_size (fst (tokenize token_buffer_create "a = 2 * (3 + 4)")))%nat
  /\ Z.of_nat (tb_size (fst (tokenize token_buffer_create "a = 2 * (3 + 4)")))
     < 2 ^ 16.
Proof.
  apply (token_buffer_stays_in_bounds token_buffer_create "a = 2 * (3 + 4)").
  split; [vm_compute; reflexivity | vm_compute; intros H; discriminate H].
Defined.

(** X10. On a line that leaves the 16-bit counters of the token buffer in
    their range, every token [tokenize] stores has a length of at most 255
    that does not exceed the text at its lexeme; only Number tokens carry
    the negative flag; and the lexeme of a Number or Variable token points
    into the line. *)
Theorem tokens_lie_in_the_line (tokBuff : TokenBuffer) (buff : string) :
  token_counters_in_range tokBuff buff ->
  Forall (token_in_line buff) (token_buff (fst (tokenize tokBuff buff))).
Proof. intros _. apply tokenize_tokens_in_line. Qed.

Lemma tokens_lie_in_the_line_witness :
  Forall (token_in_line "a = -2 * b")
    (token_buff (fst (tokenize token_buffer_create "a = -2 * b"))).
Proof.
  apply (tokens_lie_in_the_line token_buffer_create "a = -2 * b").
  split; [vm_compute; reflexivity | vm_compute; intros H; discriminate H].
Defined.

(** ** The parser builds trees the evaluator accepts *)

Lemma pre_consume (k : nat) (toks : list Token) (p : Parser) (t : Token) :
  parse_pre k toks p -> peek p = Some t ->
  parse_pre (S k) toks (consume p) /\ t ∈ toks.
Proof.
  intros (Ht & Hle & Hroom) Hpk.
  pose proof (advances_consume _ _ Hpk) as (H1 & _ & H3 & H4 & H5 & H6).
  unfold parse_pre. rewrite H1, H3, H4, H5.
  unfold tb_count in H6. rewrite Ht in H6.
  split; [split; [exact Ht | split; lia]|].
  unfold peek in Hpk. rewrite Ht in Hpk.
  apply (list_elem_of_lookup_2 _ _ _ Hpk).
Qed.

Lemma pre_advances (k : nat) (toks : list Token) (p p' : Parser) (s : bool) :
  parse_pre k toks p -> advances s p p' -> parse_pre k toks p'.
Proof.
  intros (Ht & Hle & Hroom) (H1 & _ & H3 & H4 & H5 & _ & H7 & H8).
  unfold parse_pre. rewrite H1, H3. unfold tb_count in H5. rewrite Ht in H5.
  split; [exact Ht|]. split; lia.
Qed.

Lemma pre_weaken (k : nat) (toks : list Token) (p : Parser) :
  parse_pre (S k) toks p -> parse_pre k toks p.
Proof. intros (Ht & Hle & Hroom). unfold parse_pre. split; [exact Ht|]. split; lia. Qed.

Lemma pre_leaf (k : nat) (toks : list Token) (p : Parser) (tok : Token) :
  parse_pre (S k) toks p ->
  exists p', create_leaf_node p tok = (Some (mkNode tok None None), p')
             /\ parse_pre k toks p'.
Proof.
  intros (Ht & Hle & Hroom). unfold create_leaf_node.
  destruct (Nat.leb_spec (p_size p) (curr_node p)); [lia|].
  eexists. split; [reflexivity|]. unfold parse_pre. simpl.
  split; [exact Ht|]. split; lia.
Qed.

Lemma pre_binary (k : nat) (toks : list Token) (p : Parser) (op : Token)
    (l r : option ASTNode) :
  parse_pre (S k) toks p ->
  exists p', create_binary_node p op l r = (Some (mkNode op l r), p')
             /\ parse_pre k toks p'.
Proof.
  intros (Ht & Hle & Hroom). unfold create_binary_node.
  destruct (Nat.leb_spec (p_size p) (curr_node p)); [lia|].
  eexists. split; [reflexivity|]. unfold parse_pre. simpl.
  split; [exact Ht|]. split; lia.
Qed.

Lemma parse_safe (toks : list Token) (fuel : nat) :
  safe_main toks parse_primary fuel /\ safe_main toks parse_power fuel
  /\ safe_loop toks parse_term_loop fuel /\ safe_main toks parse_term fuel
  /\ safe_loop toks parse_expression_loop fuel
  /\ safe_main toks parse_expression fuel.
Proof.
  induction fuel as [|f (IHprim & IHpow & IHtl & IHt & IHel & IHe)].
  { unfold safe_main, safe_loop. repeat split; intros; exact I. }
  destruct (parse_frame f) as (Fprim & Fpow & Ftl & Ft & Fel & Fe).
  unfold safe_main, safe_loop, frame_main, frame_loop in *.
  refine (conj _ (conj _ (conj _ (conj _ (conj _ _))))).
  - (* primary *)
    intros p Hpre. rewrite parse_primary_S.
    destruct (peek p) as [curr|] eqn:Epk; [|reflexivity].
    destruct (pre_consume _ _ _ _ Hpre Epk) as (Hpre1 & Hin).
    destruct (type curr) eqn:Ety; try reflexivity.
    + destruct (pre_leaf _ _ _ curr Hpre1) as (p1 & -> & _).
      simpl. rewrite Ety. auto.
    + destruct (pre_leaf _ _ _ curr Hpre1) as (p1 & -> & _).
      simpl. rewrite Ety. auto.
    + destruct (pre_leaf _ _ _ curr Hpre1) as (p1 & -> & Hpre2).
      destruct (expect p1 TOK_LPAR) eqn:Eex; [|reflexivity].
      apply match_tok_peek in Eex as (t1 & Epk1 & _).
      destruct (pre_consume _ _ _ _ Hpre2 Epk1) as (Hpre3 & _).
      pose proof (IHe _ (pre_weaken _ _ _ Hpre3)) as Hpost.
      destruct (parse_expression f (consume p1)) as [[a p2]|e| |] eqn:Earg;
        simpl in *; try assumption.
      destruct (expect p2 TOK_RPAR); simpl; [|reflexivity].
      rewrite Ety. auto.
    + pose proof (IHe _ (pre_weaken _ _ _ Hpre1)) as Hpost.
      destruct (parse_expression f (consume p)) as [[a p1]|e| |] eqn:Earg;
        simpl in *; try assumption.
      destruct (expect p1 TOK_RPAR); simpl; [exact Hpost | reflexivity].
  - (* power *)
    intros p Hpre. rewrite parse_power_S.
    pose proof (IHprim _ Hpre) as Hpost.
    destruct (parse_primary f p) as [[lhs p1]|e| |] eqn:Eprim;
      simpl in *; try assumption.
    pose proof (Fprim _ _ _ Eprim) as (Hadv1 & _).
    pose proof (pre_advances _ _ _ _ _ Hpre Hadv1) as Hpre1.
    destruct (match_tok p1 TOK_POWER) eqn:Em; [|exact Hpost].
    apply match_tok_peek in Em as (op & Epk & Hop). rewrite Epk.
    destruct (pre_consume _ _ _ _ Hpre1 Epk) as (Hpre2 & Hin).
    pose proof (IHpow _ (pre_weaken _ _ _ Hpre2)) as Hpost2.
    destruct (parse_power f (consume p1)) as [[rhs p2]|e| |] eqn:Epow;
      simpl in *; try assumption.
    pose proof (Fpow _ _ _ Epow) as (Hadv2 & _).
    pose proof (pre_advances _ _ _ _ _ Hpre2 Hadv2) as Hpre3.
    destruct (pre_binary _ _ _ op (Some lhs) (Some rhs) Hpre3) as (p3 & -> & _).
    simpl. rewrite Hop. auto.
  - (* term loop *)
    intros p l Hpre Hl. rewrite parse_term_loop_S.
    destruct (match_tok p TOK_MULT || match_tok p TOK_DIVIDE
              || match_tok p TOK_MODULE) eqn:Em; [|exact Hl].
    destruct (peek p) as [op|] eqn:Epk.
    2:{ unfold match_tok in Em. rewrite Epk in Em. discriminate. }
    assert (Hop : type op = TOK_MULT \/ type op = TOK_DIVIDE \/ type op = TOK_MODULE).
    { unfold match_tok in Em. rewrite Epk in Em.
      destruct (type op); try discriminate; auto. }
    destruct (pre_consume _ _ _ _ Hpre Epk) as (Hpre1 & Hin).
    pose proof (IHpow _ (pre_weaken _ _ _ Hpre1)) as Hpost.
    destruct (parse_power f (consume p)) as [[rhs p1]|e| |] eqn:Epow;
      simpl in *; try assumption.
    pose proof (Fpow _ _ _ Epow) as (Hadv1 & _).
    pose proof (pre_advances _ _ _ _ _ Hpre1 Hadv1) as Hpre2.
    destruct (pre_binary _ _ _ op (Some l) (Some rhs) Hpre2) as (p2 & -> & Hpre3).
    apply IHtl; [exact Hpre3|].
    simpl. destruct Hop as [-> | [-> | ->]]; auto.
  - (* term *)
    intros p Hpre. rewrite parse_term_S.
    pose proof (IHpow _ Hpre) as Hpost.
    destruct (parse_power f p) as [[lhs p1]|e| |] eqn:Epow;
      simpl in *; try assumption.
    pose proof (Fpow _ _ _ Epow) as (Hadv1 & _).
    apply IHtl; [apply (pre_advances _ _ _ _ _ Hpre Hadv1) | exact Hpost].
  - (* expression loop *)
    intros p l Hpre Hl. rewrite parse_expression_loop_S.
    destruct (match_tok p TOK_ADD || match_tok p TOK_SUB) eqn:Em; [|exact Hl].
    destruct (peek p) as [op|] eqn:Epk.
    2:{ unfold match_tok in Em. rewrite Epk in Em. discriminate. }
    assert (Hop : type op = TOK_ADD \/ type op = TOK_SUB).
    { unfold match_tok in Em. rewrite Epk in Em.
      destruct (type op); try discriminate; auto. }
    destruct (pre_consume _ _ _ _ Hpre Epk) as (Hpre1 & Hin).
    pose proof (IHt _ (pre_weaken _ _ _ Hpre1)) as Hpost.
    destruct (parse_term f (consume p)) as [[rhs p1]|e| |] eqn:Eterm;
      simpl in *; try assumption.
    pose proof (Ft _ _ _ Eterm) as (Hadv1 & _).
    pose proof (pre_advances _ _ _ _ _ Hpre1 Hadv1) as Hpre2.
    destruct (pre_binary _ _ _ op (Some l) (Some rhs) Hpre2) as (p2 & -> & Hpre3).
    apply IHel; [exact Hpre3|].
    simpl. destruct Hop as [-> | ->]; auto.
  - (* expression *)
    intros p Hpre. rewrite parse_expression_S.
    pose proof (IHt _ Hpre) as Hpost.
    destruct (parse_term f p) as [[lhs p1]|e| |] eqn:Eterm;
      simpl in *; try assumption.
    pose proof (Ft _ _ _ Eterm) as (Hadv1 & _).
    apply IHel; [apply (pre_advances _ _ _ _ _ Hpre Hadv1) | exact Hpost].
Qed.

Lemma parse_start_pre (parser : Parser) :
  (tb_count (tokens parser) <= tb_size (tokens parser))%nat ->
  parse_pre 0 (token_buff (tokens parser)) (parse_start parser).
Proof.
  intros H. pose proof (parse_start_room parser H) as Hroom.
  unfold parse_pre, tb_count in *. cbn [tokens curr_tok curr_node parse_start] in *.
  split; [reflexivity|]. split; lia.
Qed.

(** What [parse] returns for a buffer that holds its tokens. *)
Lemma parse_spec (parser : Parser) :
  (tb_count (tokens parser) <= tb_size (tokens parser))%nat ->
  (exists ast p',
      parse parser = Ok (ast, p')
      /\ statement_tree (token_buff (tokens parser)) ast
      /\ symTable p' = symTable parser
      /\ tokens p' = tokens parser
      /\ type_eqb (type (node_token ast)) TOK_ASSING =
         starts_with_assignment (token_buff (tokens parser))
      /\ (starts_with_assignment (token_buff (tokens parser)) = true ->
          node_left ast =
          (fun v => mkNode v None None) <$> head (token_buff (tokens parser))))
  \/ (exists e, parse parser = Err e /\ syntax_error e = true).
Proof.
  intros Hwf.
  pose proof (parse_start_pre parser Hwf) as Hpre.
  pose proof (parse_total parser) as Htot.
  set (toks := token_buff (tokens parser)) in *.
  destruct (parse_safe toks (parse_fuel (tb_count (tokens parser))))
    as (_ & _ & _ & _ & _ & Se).
  destruct (parse_frame (parse_fuel (tb_count (tokens parser))))
    as (_ & _ & _ & _ & _ & Fe).
  unfold safe_main, frame_main in *.
  destruct (parse parser) as [[ast p']|e| |] eqn:Eparse; [| | |congruence].
  - pose proof (parse_statement_assign _ _ _ _ Eparse) as (_ & _ & Hroot).
    rewrite is_assignment_statement_start in Hroot by reflexivity.
    change (token_buff (tokens (parse_start parser))) with toks in Hroot.
    rewrite parse_unfold in Eparse. unfold parse_statement in Eparse.
    set (p0 := parse_start parser) in *.
    assert (Hs0 : symTable p0 = symTable parser) by reflexivity.
    assert (Ht0 : tokens p0 = tokens parser) by reflexivity.
    assert (Hc0 : curr_tok p0 = 0%nat) by reflexivity.
    clearbody p0.
    left. exists ast, p'. split; [reflexivity|].
    destruct (is_assignment_statement p0) eqn:Eas.
    + unfold is_assignment_statement in Eas.
      destruct (peek p0) as [v|] eqn:Epk; [|discriminate].
      destruct (peek_next p0) as [op|] eqn:Epn; [|discriminate].
      apply andb_true_iff in Eas as (Hv & Hop).
      apply type_eqb_eq in Hv. apply type_eqb_eq in Hop.
      destruct (pre_consume _ _ _ _ Hpre Epk) as (Hpre1 & Hin).
      destruct (pre_leaf _ _ _ v Hpre1) as (p1 & Hleaf & Hpre2).
      rewrite Hleaf in Eparse. cbn [returned bind] in Eparse.
      pose proof (advances_consume _ _ Epk) as (Hc1 & Hc2 & _ & _ & Hc5 & _).
      apply create_leaf_node_Some in Hleaf as (_ & Hp1 & _).
      assert (Epk1 : peek p1 = Some op).
      { rewrite Hp1. unfold peek. cbn [tokens curr_tok set_curr_node].
        rewrite Hc1, Hc5, Hc0.
        unfold peek_next in Epn. rewrite Hc0 in Epn. exact Epn. }
      destruct (pre_consume _ _ _ _ Hpre2 Epk1) as (Hpre3 & _).
      pose proof (advances_consume _ _ Epk1) as (Hd1 & Hd2 & _).
      apply bind_Ok in Eparse as ([rhs p2] & Hrhs & Eparse).
      pose proof (Se _ (pre_weaken _ _ _ Hpre3)) as Hpost.
      rewrite Hrhs in Hpost. cbn [parse_post] in Hpost.
      pose proof (Fe _ _ _ Hrhs) as (Hadv & _).
      pose proof (pre_advances _ _ _ _ _ Hpre3 Hadv) as Hpre4.
      destruct (pre_binary _ _ _ op (Some (mkNode v None None)) (Some rhs) Hpre4)
        as (p3 & Hbin & _).
      rewrite Hbin in Eparse. cbn [returned] in Eparse.
      injection Eparse as <- <-.
      apply create_binary_node_Some in Hbin as (_ & Hp3 & _).
      destruct Hadv as (Ha1 & Ha2 & _).
      split; [right; exists op, v, rhs; auto|].
      split; [|split; [|split; [exact Hroot|]]].
      3:{ intros _. cbn [node_left]. unfold peek in Epk.
          rewrite Ht0, Hc0 in Epk. fold toks in Epk.
          destruct toks as [|v0 rest]; [discriminate|].
          injection Epk as ->. reflexivity. }
      * rewrite Hp3. cbn [symTable set_curr_node].
        rewrite Ha2, Hd2, Hp1. cbn [symTable set_curr_node].
        rewrite Hc2. exact Hs0.
      * rewrite Hp3. cbn [tokens set_curr_node].
        rewrite Ha1, Hd1, Hp1. cbn [tokens set_curr_node].
        rewrite Hc1. exact Ht0.
    + pose proof (Se _ Hpre) as Hpost. rewrite Eparse in Hpost.
      pose proof (Fe _ _ _ Eparse) as ((Ha1 & Ha2 & _) & _).
      split; [left; exact Hpost|].
      split; [rewrite Ha2; exact Hs0|].
      split; [rewrite Ha1; exact Ht0|]. split; [exact Hroot|].
      intros Hst. rewrite is_assignment_statement_start in Eas by exact Hc0.
      rewrite Ht0 in Eas. fold toks in Eas. congruence.
  - right. exists e. split; [reflexivity|].
    rewrite parse_unfold in Eparse. unfold parse_statement in Eparse.
    set (p0 := parse_start parser) in *.
    assert (Hc0 : curr_tok p0 = 0%nat) by reflexivity.
    clearbody p0.
    destruct (is_assignment_statement p0) eqn:Eas.
    + unfold is_assignment_statement in Eas.
      destruct (peek p0) as [v|] eqn:Epk; [|discriminate].
      destruct (peek_next p0) as [op|] eqn:Epn; [|discriminate].
      destruct (pre_consume _ _ _ _ Hpre Epk) as (Hpre1 & Hin).
      destruct (pre_leaf _ _ _ v Hpre1) as (p1 & Hleaf & Hpre2).
      rewrite Hleaf in Eparse. cbn [returned bind] in Eparse.
      pose proof (advances_consume _ _ Epk) as (Hc1 & Hc2 & _ & _ & Hc5 & _).
      apply create_leaf_node_Some in Hleaf as (_ & Hp1 & _).
      assert (Epk1 : peek p1 = Some op).
      { rewrite Hp1. unfold peek. cbn [tokens curr_tok set_curr_node].
        rewrite Hc1, Hc5, Hc0.
        unfold peek_next in Epn. rewrite Hc0 in Epn. exact Epn. }
      destruct (pre_consume _ _ _ _ Hpre2 Epk1) as (Hpre3 & _).
      pose proof (Se _ (pre_weaken _ _ _ Hpre3)) as Hpost.
      destruct (parse_expression _ (consume p1)) as [[rhs p2]|e'| |] eqn:Hrhs;
        cbn [bind parse_post] in *; try discriminate.
      * pose proof (Fe _ _ _ Hrhs) as (Hadv & _).
        pose proof (pre_advances _ _ _ _ _ Hpre3 Hadv) as Hpre4.
        destruct (pre_binary _ _ _ op (Some (mkNode v None None)) (Some rhs) Hpre4)
          as (p3 & Hbin & _).
        rewrite Hbin in Eparse. discriminate.
      * injection Eparse as <-. exact Hpost.
    + pose proof (Se _ Hpre) as Hpost. rewrite Eparse in Hpost. exact Hpost.
  - exfalso.
    rewrite parse_unfold in Eparse. unfold parse_statement in Eparse.
    set (p0 := parse_start parser) in *.
    assert (Hc0 : curr_tok p0 = 0%nat) by reflexivity.
    clearbody p0.
    destruct (is_assignment_statement p0) eqn:Eas.
    + unfold is_assignment_statement in Eas.
      destruct (peek p0) as [v|] eqn:Epk; [|discriminate].
      destruct (peek_next p0) as [op|] eqn:Epn; [|discriminate].
      destruct (pre_consume _ _ _ _ Hpre Epk) as (Hpre1 & Hin).
      destruct (pre_leaf _ _ _ v Hpre1) as (p1 & Hleaf & Hpre2).
      rewrite Hleaf in Eparse. cbn [returned bind] in Eparse.
      pose proof (advances_consume _ _ Epk) as (Hc1 & Hc2 & _ & _ & Hc5 & _).
      apply create_leaf_node_Some in Hleaf as (_ & Hp1 & _).
      assert (Epk1 : peek p1 = Some op).
      { rewrite Hp1. unfold peek. cbn [tokens curr_tok set_curr_node].
        rewrite Hc1, Hc5, Hc0.
        unfold peek_next in Epn. rewrite Hc0 in Epn. exact Epn. }
      destruct (pre_consume _ _ _ _ Hpre2 Epk1) as (Hpre3 & _).
      pose proof (Se _ (pre_weaken _ _ _ Hpre3)) as Hpost.
      destruct (parse_expression _ (consume p1)) as [[rhs p2]|e'| |] eqn:Hrhs;
        cbn [bind parse_post] in *; try discriminate; try contradiction.
      pose proof (Fe _ _ _ Hrhs) as (Hadv & _).
      pose proof (pre_advances _ _ _ _ _ Hpre3 Hadv) as Hpre4.
      destruct (pre_binary _ _ _ op (Some (mkNode v None None)) (Some rhs) Hpre4)
        as (p3 & Hbin & _).
      rewrite Hbin in Eparse. discriminate.
    + pose proof (Se _ Hpre) as Hpost. rewrite Eparse in Hpost. exact Hpost.
Qed.

(** *** No more nodes than tokens *)




(** X16. On a token buffer that holds its tokens, [parse] returns a tree
    whose operators all have their operands, with tokens of the buffer, and
    an Assign node at the root only; or it fails with one of the four
    syntax diagnostics.  It never finds the node arena full and never reads
    a null token. *)
Theorem parse_builds_a_statement_tree (parser : Parser) :
  (tb_count (tokens parser) <= tb_size (tokens parser))%nat ->
  match parse parser with
  | Ok (ast, _) => statement_tree (token_buff (tokens parser)) ast
  | Err e => syntax_error e = true
  | Undef => False
  | Timeout => False
  end.
Proof.
  intros Hwf.
  destruct (parse_spec parser Hwf) as [(ast & p' & -> & H & _) | (e & -> & H)];
    exact H.
Qed.

Lemma parse_builds_a_statement_tree_witness :
  match parse (parser_on {| token_buff :=
            [{| lexeme := "2 + 3"; type := TOK_NUM; len := 1; negative := false |};
             {| lexeme := "+"; type := TOK_ADD; len := 1; negative := false |};
             {| lexeme := "3"; type := TOK_NUM; len := 1; negative := false |}];
            tb_size := 128 |}) with
  | Ok (ast, _) =>
      statement_tree
        [{| lexeme := "2 + 3"; type := TOK_NUM; len := 1; negative := false |};
         {| lexeme := "+"; type := TOK_ADD; len := 1; negative := false |};
         {| lexeme := "3"; type := TOK_NUM; len := 1; negative := false |}] ast
  | Err e => syntax_error e = true
  | Undef => False
  | Timeout => False
  end.
Proof.
  apply (parse_builds_a_statement_tree
           (parser_on {| token_buff :=
              [{| lexeme := "2 + 3"; type := TOK_NUM; len := 1; negative := false |};
               {| lexeme := "+"; type := TOK_ADD; len := 1; negative := false |};
               {| lexeme := "3"; type := TOK_NUM; len := 1; negative := false |}];
              tb_size := 128 |})).
  unfold tb_count. simpl. lia.
Defined.

Ltac token_cases :=
  unfold operand, additive, multiplicative in *;
  repeat match goal with
         | t : Token |- _ => destruct t
         end;
  cbn [type] in *;
  repeat match goal with
         | H : _ \/ _ |- _ => destruct H
         end;
  subst; vm_compute; reflexivity.

(** X17. For operands [a], [b], [c]: an additive operator followed by a
    multiplicative one groups the multiplication first, on either side, and
    a multiplicative operator next to [^] groups the power first. *)
Theorem tighter_operators_group_first (a b c plus times pow : Token) :
  operand a -> operand b -> operand c ->
  additive plus -> multiplicative times -> type pow = TOK_POWER ->
  tree_of [a; plus; b; times; c] =
    Ok (operator_node plus (operand_leaf a)
          (operator_node times (operand_leaf b) (operand_leaf c)))
  /\ tree_of [a; times; b; plus; c] =
    Ok (operator_node plus
          (operator_node times (operand_leaf a) (operand_leaf b))
          (operand_leaf c))
  /\ tree_of [a; times; b; pow; c] =
    Ok (operator_node times (operand_leaf a)
          (operator_node pow (operand_leaf b) (operand_leaf c)))
  /\ tree_of [a; pow; b; times; c] =
    Ok (operator_node times
          (operator_node pow (operand_leaf a) (operand_leaf b))
          (operand_leaf c)).
Proof.
  intros Ha Hb Hc Hplus Htimes Hpow.
  repeat split; token_cases.
Qed.

(** X18. Two additive operators, or two multiplicative operators, group
    to the left; two [^] group to the right. *)
Theorem operators_associate (a b c op1 op2 : Token) :
  operand a -> operand b -> operand c ->
  (additive op1 -> additive op2 ->
   tree_of [a; op1; b; op2; c] =
     Ok (operator_node op2
           (operator_node op1 (operand_leaf a) (operand_leaf b))
           (operand_leaf c)))
  /\ (multiplicative op1 -> multiplicative op2 ->
      tree_of [a; op1; b; op2; c] =
        Ok (operator_node op2
              (operator_node op1 (operand_leaf a) (operand_leaf b))
              (operand_leaf c)))
  /\ (type op1 = TOK_POWER -> type op2 = TOK_POWER ->
      tree_of [a; op1; b; op2; c] =
        Ok (operator_node op1 (operand_leaf a)
              (operator_node op2 (operand_leaf b) (operand_leaf c)))).
Proof.
  intros Ha Hb Hc. repeat split; intros H1 H2; token_cases.
Qed.

Lemma tighter_operators_group_first_witness :
  tree_of [{| lexeme := "2+3*4"; type := TOK_NUM; len := 1; negative := false |};
           {| lexeme := "+"; type := TOK_ADD; len := 1; negative := false |};
           {| lexeme := "3*4"; type := TOK_NUM; len := 1; negative := false |};
           {| lexeme := "*"; type := TOK_MULT; len := 1; negative := false |};
           {| lexeme := "4"; type := TOK_NUM; len := 1; negative := false |}]
  = Ok (binop "+" TOK_ADD (leaf "2+3*4" TOK_NUM 1)
          (binop "*" TOK_MULT (leaf "3*4" TOK_NUM 1) (leaf "4" TOK_NUM 1))).
Proof.
  apply (tighter_operators_group_first
           {| lexeme := "2+3*4"; type := TOK_NUM; len := 1; negative := false |}
           {| lexeme := "3*4"; type := TOK_NUM; len := 1; negative := false |}
           {| lexeme := "4"; type := TOK_NUM; len := 1; negative := false |}
           {| lexeme := "+"; type := TOK_ADD; len := 1; negative := false |}
           {| lexeme := "*"; type := TOK_MULT; len := 1; negative := false |}
           {| lexeme := "^"; type := TOK_POWER; len := 1; negative := false |}).
  - left. reflexivity.
  - left. reflexivity.
  - left. reflexivity.
  - left. reflexivity.
  - left. reflexivity.
  - reflexivity.
Defined.

Lemma operators_associate_witness :
  tree_of [{| lexeme := "8-3-2"; type := TOK_NUM; len := 1; negative := false |};
           {| lexeme := "-"; type := TOK_SUB; len := 1; negative := false |};
           {| lexeme := "3-2"; type := TOK_NUM; len := 1; negative := false |};
           {| lexeme := "-"; type := TOK_SUB; len := 1; negative := false |};
           {| lexeme := "2"; type := TOK_NUM; len := 1; negative := false |}]
  = Ok (binop "-" TOK_SUB
          (binop "-" TOK_SUB (leaf "8-3-2" TOK_NUM 1) (leaf "3-2" TOK_NUM 1))
          (leaf "2" TOK_NUM 1)).
Proof.
  apply (proj1 (operators_associate
           {| lexeme := "8-3-2"; type := TOK_NUM; len := 1; negative := false |}
           {| lexeme := "3-2"; type := TOK_NUM; len := 1; negative := false |}
           {| lexeme := "2"; type := TOK_NUM; len := 1; negative := false |}
           {| lexeme := "-"; type := TOK_SUB; len := 1; negative := false |}
           {| lexeme := "-"; type := TOK_SUB; len := 1; negative := false |}
           (or_introl eq_refl) (or_introl eq_refl) (or_introl eq_refl))).
  - right. reflexivity.
  - right. reflexivity.
Defined.

(** ** One line through tokenizer, parser and evaluator *)

Lemma ASTNode_nested_ind (P : ASTNode -> Prop) :
  (forall tok l r,
      (forall a, l = Some a -> P a) -> (forall b, r = Some b -> P b) ->
      P (mkNode tok l r)) ->
  forall n, P n.
Proof.
  intros H. fix IH 1. intros [tok l r]. apply H.
  - destruct l as [a|]; intros a' E; [injection E as <-; apply IH | discriminate].
  - destruct r as [b|]; intros b' E; [injection E as <-; apply IH | discriminate].
Qed.

Lemma variable_name_len (line : string) (tok : Token) :
  token_in_line line tok -> type tok = TOK_VAR ->
  name_len (token_adjust_lexeme tok) = len tok.
Proof.
  intros (Hlen & Hle & Hneg & _) Hty.
  assert (Hn : negative tok = false).
  { destruct (negative tok); [|reflexivity].
    specialize (Hneg eq_refl). congruence. }
  unfold token_adjust_lexeme. rewrite Hty, Hn.
  change (1 <? tok_index TOK_VAR) with false. cbv iota.
  rewrite string_app_nil_l, Z.add_0_r. unfold name_len.
  rewrite take_str_length by exact Hle.
  rewrite Z2Nat.id by lia. apply Z.mod_small. lia.
Qed.

(** An expression tree over tokens of the line evaluates, in a well-formed
    table, to a value, and the table is not written. *)
Lemma evaluate_expression_tree (line : string) (toks : list Token) (t : SymbolTable) :
  wf t -> Forall (token_in_line line) toks ->
  forall n, expression_tree toks n -> exists v, evaluate_node t n = (t, Ok v).
Proof.
  intros Hwf Htoks n. induction n as [tok l r IHl IHr] using ASTNode_nested_ind.
  cbn [expression_tree]. intros (Hin & Hshape).
  rewrite Forall_forall in Htoks. pose proof (Htoks _ Hin) as Htok.
  destruct (type tok) eqn:Ety; try contradiction.
  - eexists. cbn [evaluate_node]. rewrite Ety. reflexivity.
  - cbn [evaluate_node]. rewrite Ety.
    rewrite <- (variable_name_len _ _ Htok Ety).
    rewrite (symbol_table_get_assoc _ _ Hwf).
    destruct (assoc _ _); eexists; reflexivity.
  - destruct l as [a|], r as [b|]; try contradiction. destruct Hshape as (Ha & Hb).
    destruct (IHl a eq_refl Ha) as (va & Hva). destruct (IHr b eq_refl Hb) as (vb & Hvb).
    eexists. apply (evaluate_node_add t t t tok a b va vb Hva Hvb Ety).
  - destruct l as [a|], r as [b|]; try contradiction. destruct Hshape as (Ha & Hb).
    destruct (IHl a eq_refl Ha) as (va & Hva). destruct (IHr b eq_refl Hb) as (vb & Hvb).
    eexists. apply (evaluate_node_sub t t t tok a b va vb Hva Hvb Ety).
  - destruct l as [a|], r as [b|]; try contradiction. destruct Hshape as (Ha & Hb).
    destruct (IHl a eq_refl Ha) as (va & Hva). destruct (IHr b eq_refl Hb) as (vb & Hvb).
    eexists. apply (evaluate_node_divide t t t tok a b va vb Hva Hvb Ety).
  - destruct l as [a|], r as [b|]; try contradiction. destruct Hshape as (Ha & Hb).
    destruct (IHl a eq_refl Ha) as (va & Hva). destruct (IHr b eq_refl Hb) as (vb & Hvb).
    eexists. apply (evaluate_node_modulo t t t tok a b va vb Hva Hvb Ety).
  - destruct l as [a|], r as [b|]; try contradiction. destruct Hshape as (Ha & Hb).
    destruct (IHl a eq_refl Ha) as (va & Hva). destruct (IHr b eq_refl Hb) as (vb & Hvb).
    eexists. apply (evaluate_node_mult t t t tok a b va vb Hva Hvb Ety).
  - destruct l as [a|], r as [b|]; try contradiction. destruct Hshape as (Ha & Hb).
    destruct (IHl a eq_refl Ha) as (va & Hva). destruct (IHr b eq_refl Hb) as (vb & Hvb).
    eexists. apply (evaluate_node_power t t t tok a b va vb Hva Hvb Ety).
  - destruct l as [a|]; try contradiction.
    destruct (IHl a eq_refl Hshape) as (va & Hva).
    eexists. cbn [evaluate_node]. rewrite Ety, Hva. reflexivity.
Qed.

Lemma expression_tree_root (toks : list Token) (n : ASTNode) :
  expression_tree toks n -> type_eqb (type (node_token n)) TOK_ASSING = false.
Proof.
  destruct n as [tok l r]. cbn [expression_tree node_token]. intros (_ & H).
  destruct (type tok); solve [reflexivity | contradiction].
Qed.

(** A statement tree evaluates to a value; only an Assign root writes the
    table, with one [symbol_table_insert] of that value. *)
Lemma evaluate_statement_tree (line : string) (toks : list Token)
    (t : SymbolTable) (n : ASTNode) :
  wf t -> 2 * capacity t < 2 ^ 16 ->
  Forall (token_in_line line) toks -> statement_tree toks n ->
  exists t' v,
    evaluate_node t n = (t', Ok v) /\ wf t'
    /\ capacity t' <= 2 * capacity t
    /\ (type_eqb (type (node_token n)) TOK_ASSING = false -> t' = t)
    /\ (forall target,
          type_eqb (type (node_token n)) TOK_ASSING = true ->
          node_left n = Some (mkNode target None None) ->
          symbol_table_insert t (token_adjust_lexeme target) v (len target) = Ok t'
          /\ symbol_table_get t' (token_adjust_lexeme target) (len target)
             = Ok (Some v)).
Proof.
  intros Hwf Hsmall Htoks [Hexp | (op & target & rhs & -> & Hop & Hv & Hin & Hrhs)].
  - destruct (evaluate_expression_tree line toks t Hwf Htoks n Hexp) as (v & Hev).
    exists t, v. split; [exact Hev|]. split; [exact Hwf|].
    split; [destruct Hwf; lia|]. split; [auto|].
    intros target Hroot. rewrite (expression_tree_root _ _ Hexp) in Hroot.
    discriminate.
  - destruct (evaluate_expression_tree line toks t Hwf Htoks rhs Hrhs) as (v & Hev).
    rewrite Forall_forall in Htoks.
    pose proof (variable_name_len _ _ (Htoks _ Hin) Hv) as Hlen.
    destruct (symbol_table_insert_spec t (token_adjust_lexeme target) v Hwf Hsmall)
      as (t' & Hins & Hwf' & Has & _ & _ & Hcap).
    rewrite Hlen in Hins.
    exists t', v. cbn [evaluate_node node_token node_left].
    rewrite Hop, Hev, Hins.
    split; [reflexivity|]. split; [exact Hwf'|].
    split; [destruct Hwf; destruct (over_threshold t); lia|].
    split; [intros H; vm_compute in H; discriminate H|].
    intros target' _ [= <-]. split; [exact Hins|].
    rewrite <- Hlen, (symbol_table_get_assoc _ _ Hwf'), Has, String.eqb_refl.
    reflexivity.
Qed.

(** What one line does to the parser, in a table that is well formed. *)
Lemma run_line_spec (parser : Parser) (line : string) :
  wf (symTable parser) -> 2 * capacity (symTable parser) < 2 ^ 16 ->
  let toks := token_buff (fst (tokenize (tokens parser) line)) in
  let parser' := fst (run_line parser line) in
  wf (symTable parser')
  /\ capacity (symTable parser') <= 2 * capacity (symTable parser)
  /\ ((exists e, snd (run_line parser line) = Err e
                 /\ (lexical_error e || syntax_error e = true)
                 /\ symTable parser' = symTable parser)
      \/ (exists v, snd (run_line parser line) = Ok v
                    /\ (starts_with_assignment toks = false ->
                        symTable parser' = symTable parser)
                    /\ (starts_with_assignment toks = true ->
                        exists target,
                          head toks = Some target
                          /\ symbol_table_insert (symTable parser)
                               (token_adjust_lexeme target) v (len target)
                             = Ok (symTable parser')
                          /\ symbol_table_get (symTable parser')
                               (token_adjust_lexeme target) (len target)
                             = Ok (Some v)))).
Proof.
  intros Hwf Hsmall. cbv zeta. unfold run_line.
  pose proof (tokenize_bounds (tokens parser) line) as (Hb & _).
  pose proof (tokenize_tokens_in_line (tokens parser) line) as Htoks.
  pose proof (tokenize_total (tokens parser) line) as Htot.
  destruct (tokenize (tokens parser) line) as [tb scanned] eqn:Etok.
  cbn [fst snd] in *.
  destruct Htot as [-> | (e & He)].
  2:{ rewrite He. cbn [fst snd symTable set_tokens]. split; [exact Hwf|].
      split; [destruct Hwf; lia|]. left.
      exists e. split; [reflexivity|]. split; [|reflexivity].
      assert (Hs : snd (tokenize (tokens parser) line) = Err e)
        by (rewrite Etok; exact He).
      apply tokenize_loop_errors in Hs as [-> | ->]; reflexivity. }
  destruct (parse_spec (set_tokens parser tb) Hb)
    as [(ast & p' & Hparse & Htree & Hsym & _ & Hroot & Htarget) | (e & Hparse & He)];
    rewrite Hparse.
  2:{ cbn [fst snd symTable parse_start set_tokens]. split; [exact Hwf|].
      split; [destruct Hwf; lia|]. left.
      exists e. split; [reflexivity|]. split; [|reflexivity].
      rewrite He. apply orb_true_r. }
  cbn [tokens set_tokens symTable] in *.
  unfold evaluate_expression. rewrite Hsym.
  destruct (evaluate_statement_tree line (token_buff tb) (symTable parser) ast
              Hwf Hsmall Htoks Htree)
    as (t' & v & Hev & Hwf' & Hcap & Hsame & Hassign).
  rewrite Hev. cbn [fst snd symTable set_symTable].
  split; [exact Hwf'|]. split; [exact Hcap|]. right. exists v. split; [reflexivity|].
  rewrite Hroot in Hsame, Hassign. split; [exact Hsame|].
  intros Hst. specialize (Htarget Hst).
  destruct (head (token_buff tb)) as [target|] eqn:Ehd.
  2:{ destruct (token_buff tb) as [|? [|? ?]]; discriminate. }
  exists target. split; [reflexivity|].
  apply (Hassign target Hst Htarget).
Qed.







Lemma parse_single_token (parser : Parser) (tok : Token) :
  token_buff (tokens parser) = [tok] ->
  type tok = TOK_NUM \/ type tok = TOK_VAR ->
  (1 <= tb_size (tokens parser))%nat ->
  exists p',
    parse parser = Ok (mkNode tok None None, p')
    /\ symTable p' = symTable parser.
Proof.
  intros Htoks Hty Hsize. unfold parse, parse_statement.
  set (p0 := parse_start parser).
  assert (Hpk : peek p0 = Some tok).
  { unfold peek, p0. cbn [tokens curr_tok parse_start]. rewrite Htoks. reflexivity. }
  assert (Has : is_assignment_statement p0 = false).
  { unfold is_assignment_statement. rewrite Hpk. unfold peek_next, p0.
    cbn [tokens curr_tok parse_start]. rewrite Htoks. reflexivity. }
  rewrite Has. unfold tb_count. rewrite Htoks.
  change (parse_fuel (length [tok])) with 10%nat.
  rewrite parse_expression_S, parse_term_S, parse_power_S, parse_primary_S.
  rewrite Hpk.
  assert (Hsz : (1 <= p_size p0)%nat).
  { unfold p0. cbn [p_size parse_start]. unfold tb_count. rewrite Htoks.
    change (length [tok] + 1)%nat with 2%nat.
    destruct (Nat.ltb_spec (p_size parser) 2); lia. }
  rewrite (consume_peek _ _ Hpk).
  assert (Hleaf : create_leaf_node (set_curr_tok p0 (curr_tok p0 + 1)) tok
                  = (Some (mkNode tok None None),
                     set_curr_node (set_curr_tok p0 (curr_tok p0 + 1)) 1)).
  { unfold create_leaf_node. cbn [p_size curr_node set_curr_tok].
    change (curr_node p0) with 0%nat.
    destruct (Nat.leb_spec (p_size p0) 0); [lia | reflexivity]. }
  set (p1 := set_curr_node (set_curr_tok p0 (curr_tok p0 + 1)) 1) in *.
  assert (Hnone : peek p1 = None).
  { unfold peek, p1, p0. cbn [tokens curr_tok set_curr_node set_curr_tok parse_start].
    rewrite Htoks. reflexivity. }
  assert (Hm : forall ty, match_tok p1 ty = false).
  { intros ty. unfold match_tok. rewrite Hnone. reflexivity. }
  exists p1. split; [|reflexivity].
  destruct (type tok) eqn:Ety; try (destruct Hty; discriminate);
    rewrite Hleaf; cbn [returned bind];
    rewrite Hm; cbn [bind];
    rewrite parse_term_loop_S, !Hm; cbn [orb returned bind];
    rewrite parse_expression_loop_S, !Hm; reflexivity.
Qed.

Lemma tokenize_identifier (tb : TokenBuffer) (x : string) :
  all_letters x = true -> x <> "" -> x <> "sqrt" ->
  (String.length x <= 255)%nat ->
  tokenize tb x =
  (token_buffer_add {| token_buff := []; tb_size := tb_size tb |} TOK_VAR x
     (Z.of_nat (String.length x)), Ok tt).
Proof.
  intros Hx Hne Hsqrt Hlen. unfold tokenize.
  destruct x as [|c x']; [congruence|].
  cbn [all_letters] in Hx. apply andb_true_iff in Hx as (Hc & Hx').
  destruct (letter_not_space_digit c Hc) as (Hsp & Hdg).
  cbn [String.length tokenize_loop]. unfold tokenize_step.
  rewrite Hsp, Hdg, Hc, (scan_ident_letters _ Hx').
  unfold ptr_diff. cbn [String.length].
  assert (Hd : Z.of_nat (S (String.length x')) - Z.of_nat 0
               = Z.of_nat (S (String.length x'))) by lia.
  rewrite Hd.
  destruct (TOKEN_LEXEME_LEN_LIMIT <? _) eqn:E.
  { apply Z.ltb_lt in E. unfold TOKEN_LEXEME_LEN_LIMIT in E.
    cbn [String.length] in Hlen. lia. }
  destruct ((Z.of_nat (S (String.length x')) =? 4)
            && String.eqb (take_str 4 (String c x')) "sqrt") eqn:E4.
  { exfalso. apply andb_true_iff in E4 as (E4 & Es).
    apply Z.eqb_eq in E4. apply String.eqb_eq in Es.
    assert (Hl4 : String.length (String c x') = 4%nat) by (cbn [String.length]; lia).
    rewrite <- Hl4, take_str_all in Es. congruence. }
  destruct (String.length x'); reflexivity.
Qed.

Lemma run_line_identifier (parser : Parser) (x : string) :
  wf (symTable parser) ->
  all_letters x = true -> x <> "" -> x <> "sqrt" ->
  (String.length x <= 254)%nat ->
  snd (run_line parser x) =
    Ok (match symbol_table_get (symTable parser) x (name_len x) with
        | Ok (Some v) => v
        | _ => MNaN
        end)
  /\ symTable (fst (run_line parser x)) = symTable parser.
Proof.
  intros Hwf Hx Hne Hsqrt Hlen. unfold run_line.
  rewrite (tokenize_identifier _ _ Hx Hne Hsqrt) by lia.
  set (tok := {| lexeme := x; type := TOK_VAR;
                 len := Z.of_nat (String.length x) mod 256; negative := false |}).
  set (tb := token_buffer_add _ _ _ _).
  assert (Hmod : Z.of_nat (String.length x) mod 256 = Z.of_nat (String.length x))
    by (apply Z.mod_small; lia).
  destruct (parse_single_token (set_tokens parser tb) tok) as (p' & -> & Hsym).
  - reflexivity.
  - right. reflexivity.
  - unfold tb, token_buffer_add. cbn [tokens set_tokens tb_size tb_count token_buff length].
    unfold TOKEN_BUFFER_SIZE.
    destruct (Nat.leb_spec (tb_size (tokens parser)) 0); lia.
  - unfold evaluate_expression. rewrite Hsym. cbn [symTable set_tokens].
    cbn [evaluate_node]. cbn [type tok].
    assert (Hadj : token_adjust_lexeme tok = x).
    { unfold token_adjust_lexeme, tok. cbn [type tok_index negative len lexeme].
      change (1 <? 1) with false. cbv iota.
      rewrite string_app_nil_l, Hmod, Z.add_0_r, Nat2Z.id. apply take_str_all. }
    assert (Hl : len tok = name_len x) by reflexivity.
    rewrite Hadj, Hl, (symbol_table_get_assoc _ _ Hwf).
    destruct (assoc x _); split; reflexivity.
Qed.

(** X21. A line that is one identifier evaluates to the value bound to
    it, and to NaN, not to a failure, when the name is not bound; the table
    is unchanged. *)
Theorem identifier_line_reads_the_variable (parser : Parser) (x : string) :
  wf (symTable parser) ->
  all_letters x = true -> x <> "" -> x <> "sqrt" ->
  (String.length x <= 254)%nat ->
  snd (run_line parser x) =
    Ok (match symbol_table_get (symTable parser) x (name_len x) with
        | Ok (Some v) => v
        | _ => MNaN
        end)
  /\ symTable (fst (run_line parser x)) = symTable parser.
Proof. apply run_line_identifier. Qed.

Lemma identifier_line_reads_the_variable_witness :
  snd (run_line fresh_parser "speed") = Ok MNaN
  /\ symTable (fst (run_line fresh_parser "speed")) = symTable fresh_parser.
Proof.
  apply (identifier_line_reads_the_variable fresh_parser "speed").
  - exact wf_symbol_table_create.
  - reflexivity.
  - discriminate.
  - discriminate.
  - vm_compute. lia.
Defined.

Lemma mk_num_neg (s : bool) (m e : Z) :
  mk_num (negb s) m e = mpfr_neg (mk_num s m e).
Proof.
  unfold mk_num. destruct m as [|p|p]; try reflexivity.
  destruct (strip_pos p e). reflexivity.
Qed.

Lemma round_ratio_neg (s : bool) (num den e : Z) :
  round_ratio (negb s) num den e = mpfr_neg (round_ratio s num den e).
Proof.
  unfold round_ratio, round_nearest.
  destruct (_ <=? 0); apply mk_num_neg.
Qed.

Lemma skip_blanks_digit (p : string) :
  starts_with_digit p = true -> skip_blanks p = p.
Proof.
  destruct p as [|c p]; [discriminate|]. cbn [starts_with_digit skip_blanks].
  intros Hc. unfold isdigit in Hc. apply andb_true_iff in Hc as (H1 & _).
  apply Z.leb_le in H1.
  destruct (byte_of c =? 32) eqn:E; [apply Z.eqb_eq in E; lia | reflexivity].
Qed.

Lemma scan_digits_whole (s : string) : all_digits s = true -> scan_digits s = "".
Proof.
  induction s as [|c s IH]; [reflexivity|]. simpl.
  intros H. apply andb_true_iff in H as (-> & Hs). apply IH, Hs.
Qed.

Lemma tokenize_loop_nil (fuel : nat) (tb : TokenBuffer) :
  tokenize_loop fuel "" tb = (tb, Ok tt).
Proof. destruct fuel; reflexivity. Qed.

(** X28. A minus sign in sign position followed by at most 253 digits is
    one Number token with the negative flag, and the line evaluates to the
    negated integer (to minus zero when the digits denote zero); the table
    is unchanged. *)
Theorem signed_integer_is_one_negative_number (parser : Parser) (ip : string) :
  all_digits ip = true -> ip <> "" -> (String.length ip <= 253)%nat ->
  token_buff (fst (tokenize (tokens parser) ("-" +:+ ip))) =
    [{| lexeme := ip; type := TOK_NUM; len := Z.of_nat (String.length ip);
        negative := true |}]
  /\ snd (run_line parser ("-" +:+ ip)) =
       Ok (mpfr_neg (mpfr_of_ratio (digits_value ip) 1))
  /\ symTable (fst (run_line parser ("-" +:+ ip))) = symTable parser.
Proof.
  intros Hip Hne Hlen.
  assert (Hmod : Z.of_nat (String.length ip) mod 256 = Z.of_nat (String.length ip))
    by (apply Z.mod_small; lia).
  set (tok := {| lexeme := ip; type := TOK_NUM; len := Z.of_nat (String.length ip);
                 negative := true |}).
  assert (Htok : exists tb,
             tokenize (tokens parser) ("-" +:+ ip) = (tb, Ok tt)
             /\ token_buff tb = [tok] /\ (1 <= tb_size tb)%nat).
  { unfold tokenize. rewrite string_app_cons, string_app_nil_l.
    cbn [String.length tokenize_loop]. unfold tokenize_step.
    change (isspace "-") with false. change (isdigit "-") with false.
    change (isascii "-" && lookupTable "-") with false.
    change (byte_of "-") with 45. cbv iota beta.
    change (unary_position {| token_buff := []; tb_size := tb_size (tokens parser) |})
      with true. cbv iota.
    assert (Hd : starts_with_digit ip = true).
    { destruct ip as [|c ip']; [congruence|]. simpl in Hip.
      apply andb_true_iff in Hip as (Hc & _). exact Hc. }
    rewrite (skip_blanks_digit _ Hd), (scan_digits_whole _ Hip).
    unfold ptr_diff. cbn [String.length]. rewrite Z.sub_0_r.
    rewrite tokenize_loop_nil. eexists. split.
    - reflexivity.
    - split.
      + rewrite set_last_negative_add, Hmod. reflexivity.
      + destruct (set_last_negative_grows
                    {| token_buff := []; tb_size := tb_size (tokens parser) |}
                    TOK_NUM ip (Z.of_nat (String.length ip))) as (_ & ->).
        cbn [tb_size tb_count token_buff length]. unfold TOKEN_BUFFER_SIZE.
        destruct (Nat.leb_spec (tb_size (tokens parser)) 0); lia. }
  destruct Htok as (tb & Htk & Hbuf & Hsz).
  rewrite Htk. cbn [fst]. split; [exact Hbuf|].
  unfold run_line. rewrite Htk.
  destruct (parse_single_token (set_tokens parser tb) tok Hbuf (or_introl eq_refl) Hsz)
    as (p' & -> & Hsym).
  unfold evaluate_expression. rewrite Hsym. cbn [symTable set_tokens].
  cbn [evaluate_node type tok fst snd set_symTable symTable].
  split; [|reflexivity].
  assert (Hadj : token_adjust_lexeme tok = "-" +:+ ip).
  { unfold token_adjust_lexeme, tok. cbn [type tok_index negative len lexeme].
    change (1 <? 0) with false. cbv iota.
    replace (Z.to_nat (Z.of_nat (String.length ip) + 1))
      with (String.length ("-" +:+ ip))
      by (rewrite string_app_cons, string_app_nil_l; cbn [String.length]; lia).
    apply take_str_all. }
  unfold eval_number. rewrite Hadj.
  rewrite string_app_cons, string_app_nil_l. unfold mpfr_set_str.
  change (byte_of "-" =? 45) with true. cbv iota.
  unfold set_str_unsigned.
  rewrite <- (string_app_nil_r ip) at 1.
  rewrite (parse_significand_digits ip "" 0 0 0 false Hip).
  cbn [parse_significand].
  destruct (0 + Z.of_nat (String.length ip) =? 0) eqn:E0.
  { apply Z.eqb_eq in E0. destruct ip; [congruence | simpl in E0; lia]. }
  rewrite Z.mul_0_l, Z.add_0_l. unfold mpfr_of_ratio.
  change (10 ^ 0) with 1.
  destruct (digits_value ip =? 0); [reflexivity|].
  unfold mpfr_set. f_equal. apply (round_ratio_neg false).
Qed.

Lemma signed_integer_is_one_negative_number_witness :
  token_buff (fst (tokenize (tokens fresh_parser) "-42")) =
    [{| lexeme := "42"; type := TOK_NUM; len := 2; negative := true |}]
  /\ snd (run_line fresh_parser "-42") = Ok (mpfr_neg (mpfr_of_ratio 42 1))
  /\ symTable (fst (run_line fresh_parser "-42")) = symTable fresh_parser.
Proof.
  apply (signed_integer_is_one_negative_number fresh_parser "42").
  - reflexivity.
  - discriminate.
  - vm_compute. lia.
Defined.

(** ** The scratch pool *)

Lemma take_slot_spec (b : MpfrBuffer) :
  (0 < mb_size b)%nat -> (mb_count b <= mb_size b)%nat ->
  mb_count (take_slot b) = S (mb_count b)
  /\ (mb_size b <= mb_size (take_slot b))%nat
  /\ (mb_count (take_slot b) <= mb_size (take_slot b))%nat
  /\ ((mb_count b < mb_size b)%nat -> mb_size (take_slot b) = mb_size b)
  /\ ((mb_size b <= mb_count b)%nat -> (mb_size b < mb_size (take_slot b))%nat).
Proof.
  intros Hpos Hle. unfold take_slot. simpl.
  destruct (Nat.leb_spec (mb_size b) (mb_count b)); repeat split; lia.
Qed.

Lemma pool_walk_spec (n : ASTNode) :
  forall b b' s,
    (0 < mb_size b)%nat -> (mb_count b <= mb_size b)%nat ->
    pool_walk n b = (b', s) -> pool_post (evaluated_nodes n) b b' s.
Proof.
  induction n as [tok l r IHl IHr] using ASTNode_nested_ind.
  intros b b' s Hpos Hle H. cbn [pool_walk evaluated_nodes] in *.
  pose proof (take_slot_spec b Hpos Hle) as (Hc1 & Hs1 & Hle1 & Hsame1 & Hgrow1).
  set (b1 := take_slot b) in *.
  assert (Hleaf : (b1, false) = (b', s) -> pool_post 1 b b' s).
  { intros [= <- <-]. unfold pool_post. split; [lia|]. split; [lia|]. split; [lia|].
    split; [intros Hfit; split; [apply Hsame1; lia | reflexivity]|].
    intros Hover. apply Hgrow1. lia. }
  assert (Hchild : forall o b0 b2 s0,
            (forall a, o = Some a -> forall b b' s,
                (0 < mb_size b)%nat -> (mb_count b <= mb_size b)%nat ->
                pool_walk a b = (b', s) -> pool_post (evaluated_nodes a) b b' s) ->
            (0 < mb_size b0)%nat -> (mb_count b0 <= mb_size b0)%nat ->
            match o with Some n0 => pool_walk n0 b0 | None => (b0, false) end
            = (b2, s0) ->
            pool_post (match o with Some n0 => evaluated_nodes n0 | None => 0%nat end)
              b0 b2 s0).
  { intros [a|] b0 b2 s0 IH Hp0 Hl0 E.
    - apply (IH a eq_refl _ _ _ Hp0 Hl0 E).
    - injection E as <- <-. unfold pool_post.
      split; [lia|]. split; [lia|]. split; [lia|]. split; [auto|].
      intros Hover. lia. }
  assert (Hmoved : forall b2,
            mb_size b2 = mb_size b1 -> negb (mb_size b2 =? mb_size b1)%nat = false).
  { intros b2 ->. rewrite Nat.eqb_refl. reflexivity. }
  unfold pool_post in *.
  destruct (type tok); try (apply Hleaf; exact H).
  all: try (destruct (match l with Some n0 => pool_walk n0 b1 | None => (b1, false) end)
              as [b2 s1] eqn:El;
            destruct (match r with Some n0 => pool_walk n0 b2 | None => (b2, false) end)
              as [b3 s2] eqn:Er;
            injection H as <- <-;
            pose proof (Hchild l b1 b2 s1 IHl ltac:(lia) Hle1 El)
              as (Hc2 & Hs2 & Hle2 & Hsame2 & Hgrow2);
            pose proof (Hchild r b2 b3 s2 IHr ltac:(lia) Hle2 Er)
              as (Hc3 & Hs3 & Hle3 & Hsame3 & Hgrow3);
            set (kl := match l with Some n0 => evaluated_nodes n0 | None => 0%nat end) in *;
            set (kr := match r with Some n0 => evaluated_nodes n0 | None => 0%nat end) in *;
            split; [lia|]; split; [lia|]; split; [lia|]; split;
            [ intros Hfit;
              destruct Hsame2 as (E2 & ->); [lia|];
              destruct Hsame3 as (E3 & ->); [lia|];
              split; [rewrite E3, E2; apply Hsame1; lia|];
              cbn [orb]; apply Hmoved; lia
            | intros Hover;
              destruct (Nat.le_gt_cases (mb_size b) (mb_count b));
              [ specialize (Hgrow1 ltac:(lia)); lia |];
              pose proof (Hsame1 ltac:(lia)) as E1;
              destruct (Nat.le_gt_cases (mb_count b1 + kl) (mb_size b1));
              [ destruct Hsame2 as (E2 & _); [lia|];
                specialize (Hgrow3 ltac:(lia)); lia
              | specialize (Hgrow2 ltac:(lia)); lia ] ]).
  - (* assignment: the right child *)
    destruct (match r with Some n0 => pool_walk n0 b1 | None => (b1, false) end)
      as [b2 s1] eqn:Er.
    injection H as <- <-.
    pose proof (Hchild r b1 b2 s1 IHr ltac:(lia) Hle1 Er)
      as (Hc2 & Hs2 & Hle2 & Hsame2 & Hgrow2).
    set (kr := match r with Some n0 => evaluated_nodes n0 | None => 0%nat end) in *.
    split; [lia|]. split; [lia|]. split; [lia|]. split.
    + intros Hfit. destruct Hsame2 as (E2 & ->); [lia|].
      split; [rewrite E2; apply Hsame1; lia|].
      cbn [orb]. apply Hmoved; lia.
    + intros Hover.
      destruct (Nat.le_gt_cases (mb_size b) (mb_count b));
        [specialize (Hgrow1 ltac:(lia)); lia|].
      pose proof (Hsame1 ltac:(lia)) as E1. specialize (Hgrow2 ltac:(lia)). lia.
  - (* sqrt: the left child *)
    destruct (match l with Some n0 => pool_walk n0 b1 | None => (b1, false) end)
      as [b2 s1] eqn:El.
    injection H as <- <-.
    pose proof (Hchild l b1 b2 s1 IHl ltac:(lia) Hle1 El)
      as (Hc2 & Hs2 & Hle2 & Hsame2 & Hgrow2).
    set (kl := match l with Some n0 => evaluated_nodes n0 | None => 0%nat end) in *.
    split; [lia|]. split; [lia|]. split; [lia|]. split.
    + intros Hfit. destruct Hsame2 as (E2 & ->); [lia|].
      split; [rewrite E2; apply Hsame1; lia|].
      cbn [orb]. apply Hmoved; lia.
    + intros Hover.
      destruct (Nat.le_gt_cases (mb_size b) (mb_count b));
        [specialize (Hgrow1 ltac:(lia)); lia|].
      pose proof (Hsame1 ltac:(lia)) as E1. specialize (Hgrow2 ltac:(lia)). lia.
Qed.

(** *** The scratch pool's size stays a 16-bit number *)

Lemma pool_walk_size (n : ASTNode) :
  forall b b' s,
    (0 < mb_size b)%nat -> (mb_count b <= mb_size b)%nat ->
    pool_walk n b = (b', s) ->
    (mb_size b' + 2 <= Nat.max (mb_size b + 2) (2 * mb_count b'))%nat.
Proof.
  induction n as [tok l r IHl IHr] using ASTNode_nested_ind.
  intros b b' s Hpos Hle H.
  pose proof (pool_walk_spec _ _ _ _ Hpos Hle H) as (Hcount & _).
  cbn [pool_walk evaluated_nodes] in *.
  pose proof (take_slot_spec b Hpos Hle) as (Hc1 & Hs1 & Hle1 & _ & _).
  assert (Hb1 : (mb_size (take_slot b) + 2
                 <= Nat.max (mb_size b + 2) (2 * mb_count (take_slot b)))%nat).
  { unfold take_slot. simpl.
    destruct (Nat.leb_spec (mb_size b) (mb_count b)); lia. }
  set (b1 := take_slot b) in *.
  assert (Hchild : forall o b0 b2 s0,
            (forall a, o = Some a -> forall b b' s,
                (0 < mb_size b)%nat -> (mb_count b <= mb_size b)%nat ->
                pool_walk a b = (b', s) ->
                (mb_size b' + 2 <= Nat.max (mb_size b + 2) (2 * mb_count b'))%nat) ->
            (0 < mb_size b0)%nat -> (mb_count b0 <= mb_size b0)%nat ->
            match o with Some n0 => pool_walk n0 b0 | None => (b0, false) end
            = (b2, s0) ->
            (mb_size b2 + 2 <= Nat.max (mb_size b0 + 2) (2 * mb_count b2))%nat
            /\ (mb_count b0 <= mb_count b2)%nat
            /\ (0 < mb_size b2)%nat /\ (mb_count b2 <= mb_size b2)%nat).
  { intros [a|] b0 b2 s0 IH Hp0 Hl0 E.
    - pose proof (pool_walk_spec _ _ _ _ Hp0 Hl0 E) as (Hc & Hs & Hl & _).
      split; [apply (IH a eq_refl _ _ _ Hp0 Hl0 E)|]. lia.
    - injection E as <- <-. lia. }
  destruct (type tok);
    try (injection H as <- <-; exact Hb1).
  all: try (destruct (match l with Some n0 => pool_walk n0 b1 | None => (b1, false) end)
              as [b2 s1] eqn:El;
            destruct (match r with Some n0 => pool_walk n0 b2 | None => (b2, false) end)
              as [b3 s2] eqn:Er;
            injection H as <- <-;
            pose proof (Hchild l b1 b2 s1 IHl ltac:(lia) Hle1 El)
              as (Hz2 & Hm2 & Hp2 & Hl2);
            pose proof (Hchild r b2 b3 s2 IHr Hp2 Hl2 Er)
              as (Hz3 & Hm3 & _ & _);
            lia).
  (* assignment: the right child *)
  destruct (match r with Some n0 => pool_walk n0 b1 | None => (b1, false) end)
    as [b2 s1] eqn:Er.
  injection H as <- <-.
  pose proof (Hchild r b1 b2 s1 IHr ltac:(lia) Hle1 Er) as (Hz2 & Hm2 & _ & _).
  lia.
Qed.

(** X22. For a pool whose size is a 16-bit number and a tree of at most
    [2^15] nodes, [evaluate_node] takes one slot of the scratch pool per
    node it evaluates and never more slots than the pool has, and the size
    of the pool stays a 16-bit number.  A tree of at most [size] nodes
    leaves the pool in place; a larger one makes a call below the root
    reallocate the pool while the callers above it still hold pointers to
    their slots. *)
Theorem long_expression_reallocates_the_pool_under_live_pointers
    (size : nat) (head : ASTNode) :
  (0 < size)%nat -> Z.of_nat size < 2 ^ 16 ->
  Z.of_nat (evaluated_nodes head) <= 2 ^ 15 ->
  mb_count (fst (evaluate_expression_pool size head)) = evaluated_nodes head
  /\ (mb_count (fst (evaluate_expression_pool size head))
      <= mb_size (fst (evaluate_expression_pool size head)))%nat
  /\ Z.of_nat (mb_size (fst (evaluate_expression_pool size head))) < 2 ^ 16
  /\ ((evaluated_nodes head <= size)%nat ->
      mb_size (fst (evaluate_expression_pool size head)) = size
      /\ snd (evaluate_expression_pool size head) = false)
  /\ ((size < evaluated_nodes head)%nat ->
      (size < mb_size (fst (evaluate_expression_pool size head)))%nat
      /\ snd (evaluate_expression_pool size head) = true).
Proof.
  intros Hpos Hsize Hnodes. unfold evaluate_expression_pool.
  set (b0 := {| mb_size := size; mb_count := 0 |}).
  destruct (pool_walk head b0) as [b' stale] eqn:E. cbn [fst snd].
  pose proof (pool_walk_spec head b0 b' stale Hpos ltac:(simpl; lia) E)
    as (Hc & Hs & Hle & Hsame & Hgrow).
  pose proof (pool_walk_size head b0 b' stale Hpos ltac:(simpl; lia) E) as Hmax.
  cbn [mb_size mb_count b0] in *.
  split; [lia|]. split; [exact Hle|]. split; [lia|].
  split; [intros H; apply Hsame; lia|].
  intros Hover. specialize (Hgrow ltac:(lia)). split; [exact Hgrow|].
  destruct head as [tok l r]. cbn [pool_walk evaluated_nodes] in *.
  assert (Hb1 : mb_size (take_slot b0) = size).
  { unfold take_slot, b0. simpl. destruct (Nat.leb_spec size 0); [lia | reflexivity]. }
  assert (Hmoved : forall b2 s1, b2 = b' ->
            s1 || negb (mb_size b2 =? mb_size (take_slot b0))%nat = true).
  { intros b2 s1 ->. rewrite Hb1. apply orb_true_iff. right.
    apply negb_true_iff, Nat.eqb_neq. lia. }
  destruct (type tok); try (exfalso; lia).
  - destruct (match r with Some n0 => pool_walk n0 _ | None => _ end) as [b2 s1].
    injection E as <- <-. apply Hmoved. reflexivity.
  - destruct (match l with Some n0 => pool_walk n0 _ | None => _ end) as [b2 s1].
    destruct (match r with Some n0 => pool_walk n0 _ | None => _ end) as [b3 s2].
    injection E as <- <-. apply Hmoved. reflexivity.
  - destruct (match l with Some n0 => pool_walk n0 _ | None => _ end) as [b2 s1].
    destruct (match r with Some n0 => pool_walk n0 _ | None => _ end) as [b3 s2].
    injection E as <- <-. apply Hmoved. reflexivity.
  - destruct (match l with Some n0 => pool_walk n0 _ | None => _ end) as [b2 s1].
    destruct (match r with Some n0 => pool_walk n0 _ | None => _ end) as [b3 s2].
    injection E as <- <-. apply Hmoved. reflexivity.
  - destruct (match l with Some n0 => pool_walk n0 _ | None => _ end) as [b2 s1].
    destruct (match r with Some n0 => pool_walk n0 _ | None => _ end) as [b3 s2].
    injection E as <- <-. apply Hmoved. reflexivity.
  - destruct (match l with Some n0 => pool_walk n0 _ | None => _ end) as [b2 s1].
    destruct (match r with Some n0 => pool_walk n0 _ | None => _ end) as [b3 s2].
    injection E as <- <-. apply Hmoved. reflexivity.
  - destruct (match l with Some n0 => pool_walk n0 _ | None => _ end) as [b2 s1].
    destruct (match r with Some n0 => pool_walk n0 _ | None => _ end) as [b3 s2].
    injection E as <- <-. apply Hmoved. reflexivity.
  - destruct (match l with Some n0 => pool_walk n0 _ | None => _ end) as [b2 s1].
    injection E as <- <-. apply Hmoved. reflexivity.
Qed.

Lemma long_expression_reallocates_the_pool_under_live_pointers_witness :
  evaluated_nodes (sum_tree 64) = 129%nat
  /\ (MPRF_BUFFER_SIZE < mb_size (fst (evaluate_expression_pool MPRF_BUFFER_SIZE
                                         (sum_tree 64))))%nat
  /\ snd (evaluate_expression_pool MPRF_BUFFER_SIZE (sum_tree 64)) = true.
Proof.
  split; [reflexivity|].
  apply (long_expression_reallocates_the_pool_under_live_pointers
           MPRF_BUFFER_SIZE (sum_tree 64)).
  - unfold MPRF_BUFFER_SIZE. lia.
  - vm_compute. reflexivity.
  - vm_compute. intros H. discriminate H.
  - vm_compute. lia.
Defined.

(** ** Commands and the loop of [main] *)

Lemma instruction_map_creation_value : instruction_map_creation = Ok instructions.
Proof. vm_compute. reflexivity. Qed.

Lemma find_instruction_unknown (token : string) (curr : Instruction) :
  command_named token = None ->
  curr ∈ inst_map instructions ->
  find_instruction curr token = Ok None.
Proof.
  unfold command_named. intros Hn Hin.
  destruct (String.eqb token "-clear-vars") eqn:E1; [discriminate|].
  destruct (String.eqb token "-help") eqn:E2; [discriminate|].
  destruct (String.eqb token "-info") eqn:E3; [discriminate|].
  destruct (String.eqb token "-exit") eqn:E4; [discriminate|].
  destruct (String.eqb token "-clear") eqn:E5; [discriminate|].
  destruct (String.eqb token "-show") eqn:E6; [discriminate|].
  rewrite String.eqb_sym in E1, E2, E3, E4, E5, E6.
  let l := eval vm_compute in (inst_map instructions) in
  change (inst_map instructions) with l in Hin.
  repeat (apply elem_of_cons in Hin as [-> | Hin];
          [cbn [find_instruction]; rewrite ?E1, ?E2, ?E3, ?E4, ?E5, ?E6; reflexivity|]).
  inversion Hin.
Qed.

Lemma instruction_lookup_spec (token : string) :
  instruction_lookup instructions token = Ok (command_named token).
Proof.
  destruct (command_named token) as [c|] eqn:Ec.
  - unfold command_named in Ec.
    repeat match type of Ec with
           | (if String.eqb token ?s then _ else _) = _ =>
               let E := fresh "E" in
               destruct (String.eqb token s) eqn:E;
               [apply String.eqb_eq in E; subst token; injection Ec as <-;
                vm_compute; reflexivity|]
           end.
    discriminate.
  - unfold instruction_lookup.
    set (i := Z.to_nat (string_hash token (strlen token) mod INSTRUCTION_COUNT)).
    destruct (inst_map instructions !! i) as [curr|] eqn:Ei.
    + apply list_elem_of_lookup_2 in Ei. apply find_instruction_unknown; assumption.
    + exfalso. apply lookup_ge_None in Ei.
      change (length (inst_map instructions)) with (Z.to_nat 24) in Ei.
      pose proof (bucket_index_lt 24 (string_hash token (strlen token)) ltac:(lia)).
      unfold i, INSTRUCTION_COUNT in Ei. lia.
Qed.

(** X23. [instruction_map_creation] stores the six commands, in 43 bytes
    of the chunk, and the lookup of [instruction_map_execute] and
    [instruction_map_exist] finds exactly them: a string that is one of the
    six names gives its function, every other string gives none. *)
Theorem instruction_map_holds_the_six_commands :
  instruction_map_creation = Ok instructions
  /\ chunk_offset instructions = 43
  /\ forall token,
       instruction_lookup instructions token = Ok (command_named token)
       /\ instruction_map_exist instructions token =
          Ok (match command_named token with Some _ => true | None => false end).
Proof.
  split; [exact instruction_map_creation_value|]. split; [reflexivity|].
  intros token. unfold instruction_map_exist.
  rewrite instruction_lookup_spec. split; reflexivity.
Qed.

Lemma token_of_no_space (w rest : string) :
  no_space w = true -> token_of (w +:+ String " " rest) = w.
Proof.
  induction w as [|c w IH]; [reflexivity|].
  rewrite string_app_cons. cbn [no_space token_of].
  intros H. apply andb_true_iff in H as (Hc & Hw).
  apply negb_true_iff in Hc. rewrite Hc, (IH Hw). reflexivity.
Qed.

Lemma token_of_whole (w : string) : no_space w = true -> token_of w = w.
Proof.
  induction w as [|c w IH]; [reflexivity|].
  cbn [no_space token_of].
  intros H. apply andb_true_iff in H as (Hc & Hw).
  apply negb_true_iff in Hc. rewrite Hc, (IH Hw). reflexivity.
Qed.

(** X24. A line that starts with [-] and whose first word is not a
    command is evaluated as that first word only: [strtok] has cut the
    buffer at the first space before [tokenize] reads it, so [-5 + 3] is
    evaluated as [-5]. *)
Theorem unknown_dash_line_is_cut_at_the_first_space (app : App) (w rest : string) :
  no_space w = true -> command_named ("-" +:+ w) = None ->
  main_step instructions app ("-" +:+ w +:+ " " +:+ rest)
  = evaluate_line app ("-" +:+ w)
  /\ main_step instructions app ("-" +:+ w) = evaluate_line app ("-" +:+ w).
Proof.
  intros Hw Hn. rewrite !string_app_cons, !string_app_nil_l in *.
  unfold main_step, instruction_map_execute, strtok.
  change (byte_of "-" =? 45) with true. cbv iota.
  cbn [skip_blanks strtok_cut token_of].
  change (byte_of "-" =? 32) with false. cbv iota.
  rewrite (token_of_no_space _ _ Hw), (token_of_whole _ Hw).
  rewrite instruction_lookup_spec.
  change (byte_of "-" =? 32) with false. cbv iota.
  rewrite Hn. split; reflexivity.
Qed.

Lemma unknown_dash_line_is_cut_at_the_first_space_witness :
  main_step instructions
    {| result := MNaN; parser := fresh_parser; run := true |} "-5 + 3"
  = evaluate_line {| result := MNaN; parser := fresh_parser; run := true |} "-5".
Proof.
  apply (unknown_dash_line_is_cut_at_the_first_space
           {| result := MNaN; parser := fresh_parser; run := true |} "5" "+ 3").
  - reflexivity.
  - reflexivity.
Defined.





Lemma main_step_dash (app : App) (w : string) :
  no_space w = true ->
  main_step instructions app (String "-" w) =
  match command_named (String "-" w) with
  | Some c => run_command c app
  | None => evaluate_line app (String "-" w)
  end.
Proof.
  intros Hw. unfold main_step, instruction_map_execute, strtok.
  change (byte_of "-" =? 45) with true. cbv iota.
  cbn [skip_blanks strtok_cut token_of].
  change (byte_of "-" =? 32) with false. cbv iota.
  rewrite (token_of_whole _ Hw), instruction_lookup_spec.
  change (byte_of "-" =? 32) with false. cbv iota.
  cbn [bind].
  destruct (command_named (String "-" w)); [|reflexivity].
  destruct (run_command c app) as [[a o]| | |]; reflexivity.
Qed.

(** X26. With at least one variable in the table, [-clear-vars]
    succeeds and leaves dangling bucket pointers: a following [-show], a
    second [-clear-vars] and the [parser_destroy] at the end of [main] all
    read freed symbols. *)
Theorem clear_vars_then_show_or_exit_reads_freed_memory (app : App) :
  wf (symTable (parser app)) ->
  all_syms (buckets (symTable (parser app))) <> [] ->
  exists app',
    main_step instructions app "-clear-vars" = Ok (app', [])
    /\ main_step instructions app' "-show" = Undef
    /\ main_step instructions app' "-clear-vars" = Undef
    /\ parser_destroy (parser app') = Undef.
Proof.
  intros Hwf Hne.
  destruct (symbol_table_empty_dangling _ Hwf) as (Hfull & _).
  destruct (Hfull Hne) as (t' & Hempty & Hagain & Hdestroy & Hshow).
  set (app' := {| result := result app; parser := set_symTable (parser app) t';
                  run := run app |}).
  assert (Ht' : symTable (parser app') = t') by reflexivity.
  exists app'.
  assert (Hclear : forall a, main_step instructions a "-clear-vars"
                             = run_command clear_vars_command a).
  { intros a. apply (main_step_dash a "clear-vars" eq_refl). }
  assert (Hshowc : forall a, main_step instructions a "-show"
                             = run_command show_command a).
  { intros a. apply (main_step_dash a "show" eq_refl). }
  rewrite !Hclear, Hshowc. unfold parser_destroy, run_command.
  rewrite Ht', Hempty, Hagain, Hshow, Hdestroy.
  repeat split; reflexivity.
Qed.

Lemma clear_vars_then_show_or_exit_reads_freed_memory_witness :
  exists app app',
    main_step instructions
      {| result := MNaN; parser := fresh_parser; run := true |} "a = 5"
    = Ok (app, [Result (mpfr_of_Z 5)])
    /\ main_step instructions app "-clear-vars" = Ok (app', [])
    /\ main_step instructions app' "-show" = Undef
    /\ parser_destroy (parser app') = Undef.
Proof.
  eexists.
  assert (Hstep : main_step instructions
            {| result := MNaN; parser := fresh_parser; run := true |} "a = 5"
            = Ok (match main_step instructions
                          {| result := MNaN; parser := fresh_parser; run := true |}
                          "a = 5" with
                  | Ok (a, _) => a
                  | _ => {| result := MNaN; parser := fresh_parser; run := true |}
                  end, [Result (mpfr_of_Z 5)])).
  { vm_compute. reflexivity. }
  set (app := match main_step _ _ "a = 5" with Ok (a, _) => a | _ => _ end) in *.
  assert (Hwf : wf (symTable (parser app))).
  { destruct (run_line_spec fresh_parser "a = 5" wf_symbol_table_create)
      as (Hwf1 & _); [vm_compute; reflexivity|].
    cbv zeta in Hwf1.
    destruct (symbol_table_insert_spec (symTable (fst (run_line fresh_parser "a = 5")))
                "last" (mpfr_of_Z 5) Hwf1) as (t' & Hins & Hwf' & _);
      [vm_compute; reflexivity|].
    assert (Ht : symTable (parser app) = t').
    { assert (Hi : symbol_table_insert
                     (symTable (fst (run_line fresh_parser "a = 5"))) "last"
                     (mpfr_of_Z 5) (name_len "last")
                   = Ok (symTable (parser app))) by (vm_compute; reflexivity).
      rewrite Hins in Hi. injection Hi as ->. reflexivity. }
    rewrite Ht. exact Hwf'. }
  destruct (clear_vars_then_show_or_exit_reads_freed_memory app Hwf)
    as (app' & H1 & H2 & _ & H4).
  { vm_compute. discriminate. }
  exists app'. split; [exact Hstep|]. auto.
Defined.

Lemma fgets_line (n : nat) (s rest : string) :
  no_newline s = true -> (String.length s < n)%nat ->
  fgets n (s +:+ String "010" rest) = (s +:+ String "010" "", rest).
Proof.
  revert n. induction s as [|c s IH]; intros n Hs Hlen.
  - destruct n; [simpl in Hlen; lia | reflexivity].
  - destruct n; [simpl in Hlen; lia|].
    rewrite !string_app_cons. cbn [no_newline fgets] in *.
    apply andb_true_iff in Hs as (Hc & Hs). apply negb_true_iff in Hc.
    rewrite Hc, (IH n Hs); [reflexivity | simpl in Hlen; lia].
Qed.

Lemma fgets_full (n : nat) (s rest : string) :
  no_newline s = true -> String.length s = n ->
  fgets n (s +:+ rest) = (s, rest).
Proof.
  revert n. induction s as [|c s IH]; intros n Hs Hlen.
  - simpl in Hlen. subst n. reflexivity.
  - destruct n; [discriminate|].
    rewrite !string_app_cons. cbn [no_newline fgets] in *.
    apply andb_true_iff in Hs as (Hc & Hs). apply negb_true_iff in Hc.
    rewrite Hc, (IH n Hs); [reflexivity | simpl in Hlen; lia].
Qed.

Lemma cut_newline_line (s : string) :
  no_newline s = true ->
  cut_newline (s +:+ String "010" "") = s /\ cut_newline s = s.
Proof.
  induction s as [|c s IH]; intros Hs; [split; reflexivity|].
  rewrite !string_app_cons. cbn [no_newline cut_newline] in *.
  apply andb_true_iff in Hs as (Hc & Hs). apply negb_true_iff in Hc.
  rewrite Hc. destruct (IH Hs) as (-> & ->). split; reflexivity.
Qed.

(** X27. The loop of [main] handles a line of at most 510 characters
    followed by a newline in one iteration; of a longer line it handles the
    first 511 characters as a line of their own and leaves the rest for the
    next iteration. *)
Theorem input_is_read_in_lines_of_at_most_511_characters
    (fuel : nat) (map : InstructionMap) (app : App) (s rest : string) :
  run app = true -> no_newline s = true ->
  ((String.length s <= 510)%nat ->
   main_loop (S fuel) map app (s +:+ String "010" rest) =
   let* (app1, out1) := main_step map app s in
   let* (app2, out2) := main_loop fuel map app1 rest in
   Ok (app2, out1 ++ out2))
  /\ (String.length s = 511%nat ->
      main_loop (S fuel) map app (s +:+ rest) =
      let* (app1, out1) := main_step map app s in
      let* (app2, out2) := main_loop fuel map app1 rest in
      Ok (app2, out1 ++ out2)).
Proof.
  intros Hrun Hs. destruct (cut_newline_line s Hs) as (Hcut1 & Hcut2). split.
  - intros Hlen. cbn [main_loop]. rewrite Hrun.
    change (INPUT_BUFFER - 1)%nat with 511%nat.
    rewrite (fgets_line 511 s rest Hs) by lia. rewrite Hcut1.
    destruct s; reflexivity.
  - intros Hlen. cbn [main_loop]. rewrite Hrun.
    change (INPUT_BUFFER - 1)%nat with 511%nat.
    rewrite (fgets_full 511 s rest Hs Hlen), Hcut2.
    destruct s; [discriminate | reflexivity].
Qed.

Lemma input_is_read_in_lines_of_at_most_511_characters_witness :
  main_loop 2 instructions
    {| result := MNaN; parser := fresh_parser; run := true |}
    ("1 + 1" +:+ String "010" "")
  = let* (app1, out1) :=
      main_step instructions
        {| result := MNaN; parser := fresh_parser; run := true |} "1 + 1" in
    let* (app2, out2) := main_loop 1 instructions app1 "" in
    Ok (app2, out1 ++ out2).
Proof.
  apply (proj1 (input_is_read_in_lines_of_at_most_511_characters 1 instructions
                  {| result := MNaN; parser := fresh_parser; run := true |}
                  "1 + 1" "" eq_refl eq_refl)).
  cbn [String.length]. lia.
Defined.
